(** * Extendible hash index: the table controller of
    [container/hash/extendible_hash_table.cpp]

  The controller ([ExtendibleHashTable]) is embedded as state-passing code
  over an explicit table state: the directory page, the bucket pages, the
  pin counts of the buffer pool, the table latch and a trace of the calls
  made on the buffer pool and on the latches.  The directory page, the
  bucket page, the buffer pool and the reader/writer latch are
  collaborators whose code is not part of the controller; they are
  modelled from the design document. *)

From Stdlib Require Import ZArith NArith Lia List Bool.
From stdpp Require Import base decidable option list gmap.

Open Scope N_scope.

(** Page identifiers are [page_id_t] (a signed 32-bit integer). *)
Definition INVALID_PAGE_ID : Z := (-1)%Z.

(** ** Directory page *)

Module Dir.

(** Modelled from the spec: the directory page class
    ([HashTableDirectoryPage]) is not part of the controller.  The two
    entry arrays are kept at their logical length [2^global_depth]:
    growing duplicates them, shrinking halves them.  Depths never exceed
    [MAX_BUCKET_DEPTH] (at most 9), so no shift leaves 32 bits. *)
Record directory := mkDirectory {
  page_id_ : Z;
  global_depth_ : N;
  local_depths_ : list N;
  bucket_page_ids_ : list Z
}.

(** A page fresh from [NewPage] is zeroed: depth 0, one entry. *)
Definition zeroed : directory := mkDirectory 0%Z 0 [0] [0%Z].

Definition GetPageId (d : directory) : Z := page_id_ d.

Definition SetPageId (d : directory) (p : Z) : directory :=
  mkDirectory p (global_depth_ d) (local_depths_ d) (bucket_page_ids_ d).

Definition GetGlobalDepth (d : directory) : N := global_depth_ d.

Definition GetGlobalDepthMask (d : directory) : N :=
  N.shiftl 1 (global_depth_ d) - 1.

Definition Size (d : directory) : N := N.shiftl 1 (global_depth_ d).

Definition GetLocalDepth (d : directory) (i : N) : N :=
  default 0 (local_depths_ d !! N.to_nat i).

Definition GetLocalDepthMask (d : directory) (i : N) : N :=
  N.shiftl 1 (GetLocalDepth d i) - 1.

Definition GetBucketPageId (d : directory) (i : N) : Z :=
  default 0%Z (bucket_page_ids_ d !! N.to_nat i).

Definition SetBucketPageId (d : directory) (i : N) (p : Z) : directory :=
  mkDirectory (page_id_ d) (global_depth_ d) (local_depths_ d)
              (<[N.to_nat i := p]> (bucket_page_ids_ d)).

Definition SetLocalDepth (d : directory) (i : N) (ld : N) : directory :=
  mkDirectory (page_id_ d) (global_depth_ d)
              (<[N.to_nat i := ld]> (local_depths_ d)) (bucket_page_ids_ d).

Definition IncrLocalDepth (d : directory) (i : N) : directory :=
  SetLocalDepth d i (GetLocalDepth d i + 1).

Definition DecrLocalDepth (d : directory) (i : N) : directory :=
  SetLocalDepth d i (GetLocalDepth d i - 1).

(** Entries [[0, 2^k)] are duplicated into [[2^k, 2^(k+1))]. *)
Definition IncrGlobalDepth (d : directory) : directory :=
  mkDirectory (page_id_ d) (global_depth_ d + 1)
              (local_depths_ d ++ local_depths_ d)
              (bucket_page_ids_ d ++ bucket_page_ids_ d).

(** The upper half of the entries is dropped. *)
Definition DecrGlobalDepth (d : directory) : directory :=
  mkDirectory (page_id_ d) (global_depth_ d - 1)
              (take (N.to_nat (N.shiftl 1 (global_depth_ d - 1))) (local_depths_ d))
              (take (N.to_nat (N.shiftl 1 (global_depth_ d - 1))) (bucket_page_ids_ d)).

(** [i XOR (1 << (local_depth[i] - 1))]; the design gives it a meaning for
    a local depth of at least 1 only. *)
Definition GetSplitImageIndex (d : directory) (i : N) : N :=
  N.lxor i (N.shiftl 1 (GetLocalDepth d i - 1)).

(** True iff every local depth is below the global depth. *)
Definition CanShrink (d : directory) : bool :=
  forallb (fun ld => ld <? global_depth_ d) (local_depths_ d).

(** The check of [VerifyIntegrity]: every local depth is at most the
    global depth, and the slots congruent to [i] modulo [2^local_depth[i]]
    carry the page and the depth of slot [i]. *)
Definition slot_ok (d : directory) (i j : N) : bool :=
  implb (N.land j (GetLocalDepthMask d i) =? N.land i (GetLocalDepthMask d i))
        ((GetBucketPageId d j =? GetBucketPageId d i)%Z
         && (GetLocalDepth d j =? GetLocalDepth d i)).

Definition slots (d : directory) : list N :=
  map N.of_nat (seq 0 (N.to_nat (Size d))).

Definition VerifyIntegrity (d : directory) : bool :=
  forallb (fun i => (GetLocalDepth d i <=? global_depth_ d)
                    && forallb (slot_ok d i) (slots d)) (slots d).

End Dir.

(** ** Bucket page *)

Module Bucket.
Section Bucket.

Context {K V : Type} `{!EqDecision K, !EqDecision V}.

(** Modelled from the spec: the bucket page class ([HashTableBucketPage])
    is not part of the controller.  A slot is never used, or occupied but
    no longer readable, or readable with its live pair. *)
Inductive slot := Unused | Tombstone | Live (k : K) (v : V).

Definition bucket := list slot.

Definition readable (s : slot) : bool :=
  match s with Live _ _ => true | _ => false end.

Definition holds (key : K) (value : V) (s : slot) : bool :=
  match s with
  | Live k v => bool_decide (k = key) && bool_decide (v = value)
  | _ => false
  end.

(** Every value whose slot is readable and whose key compares equal. *)
Fixpoint GetValue (key : K) (b : bucket) : list V :=
  match b with
  | [] => []
  | Live k v :: b' =>
      if bool_decide (k = key) then v :: GetValue key b' else GetValue key b'
  | _ :: b' => GetValue key b'
  end.

Definition IsFull (b : bucket) : bool := forallb readable b.

Definition IsEmpty (b : bucket) : bool := forallb (fun s => negb (readable s)) b.

Fixpoint GetArrayCopy (b : bucket) : list (K * V) :=
  match b with
  | [] => []
  | Live k v :: b' => (k, v) :: GetArrayCopy b'
  | _ :: b' => GetArrayCopy b'
  end.

Definition NumReadable (b : bucket) : nat := length (List.filter readable b).

Definition Reset (b : bucket) : bucket := replicate (length b) Unused.

(** Writes the pair into the first slot that is not readable. *)
Fixpoint put (key : K) (value : V) (b : bucket) : bucket :=
  match b with
  | [] => []
  | Live k v :: b' => Live k v :: put key value b'
  | _ :: b' => Live key value :: b'
  end.

(** False if the exact pair is present or the bucket is full. *)
Definition Insert (key : K) (value : V) (b : bucket) : bool * bucket :=
  if existsb (holds key value) b || IsFull b then (false, b)
  else (true, put key value b).

(** Clears the readable bit of the first slot holding the pair. *)
Fixpoint clear (key : K) (value : V) (b : bucket) : bucket :=
  match b with
  | [] => []
  | s :: b' => if holds key value s then Tombstone :: b' else s :: clear key value b'
  end.

Definition Remove (key : K) (value : V) (b : bucket) : bool * bucket :=
  if existsb (holds key value) b then (true, clear key value b) else (false, b).

End Bucket.
End Bucket.

Arguments Bucket.slot : clear implicits.
Arguments Bucket.bucket : clear implicits.

(** ** Buffer pool, latch and table state *)

(** Calls on the buffer pool and on the latches, newest first in a trace. *)
Inductive event :=
| EvNewPage (p : Z)
| EvFetchPage (p : Z)
| EvUnpinPage (p : Z) (is_dirty : bool)
| EvDeletePage (p : Z)
| EvRLock
| EvRUnlock
| EvWLock
| EvWUnlock
| EvRLatch (p : Z)
| EvRUnlatch (p : Z)
| EvWLatch (p : Z)
| EvWUnlatch (p : Z).

(** Modelled from the spec: the table latch ([ReaderWriterLatch]) is a
  multi-reader / single-writer latch and is not reentrant. *)
Record rwlatch := mkLatch {
reader_count_ : nat;
writer_entered_ : bool
}.

Definition latch_free : rwlatch := mkLatch 0 false.

(** What the table is instantiated with: the hash function (64-bit result)
    and the constants of [hash_table_page_defs.h], taken as parameters.  The
    key comparator is used for equality only and is the decidable equality
    of the key type. *)
Class TableParams (K : Type) := {
  hash_fn : K -> N;
  MAX_BUCKET_DEPTH : N;
  BUCKET_ARRAY_SIZE : nat
}.

Section Table.

Context {K V : Type} `{!EqDecision K, !EqDecision V, !TableParams K}.

Abbreviation bucket := (Bucket.bucket K V).
Abbreviation directory := Dir.directory.

(** The state the controller works on.  [dir_page] is the content of the
    directory page (meaningful once [directory_page_id_] is valid),
    [buckets] the contents of the bucket pages.  Modelled from the spec:
    the buffer pool ([BufferPoolManager]) keeps a pin count per page and
    hands out fresh page identifiers; it is assumed never to run out of
    frames. *)
Record table := mkTable {
  directory_page_id_ : Z;
  dir_page : directory;
  buckets : gmap Z bucket;
  pin_count : Z -> nat;
  next_page_id : Z;
  table_latch_ : rwlatch;
  trace : list event
}.

Definition zeroed_bucket : bucket := replicate BUCKET_ARRAY_SIZE Bucket.Unused.

(** The content of bucket page [p]; a page that was never written is zeroed. *)
Definition bucket_at (m : gmap Z bucket) (p : Z) : bucket :=
  default zeroed_bucket (m !! p).

Definition log (e : event) (s : table) : table :=
  mkTable (directory_page_id_ s) (dir_page s) (buckets s) (pin_count s)
          (next_page_id s) (table_latch_ s) (e :: trace s).

Definition with_dir (d : directory) (s : table) : table :=
  mkTable (directory_page_id_ s) d (buckets s) (pin_count s)
          (next_page_id s) (table_latch_ s) (trace s).

Definition with_buckets (m : gmap Z bucket) (s : table) : table :=
  mkTable (directory_page_id_ s) (dir_page s) m (pin_count s)
          (next_page_id s) (table_latch_ s) (trace s).

Definition with_pins (f : Z -> nat) (s : table) : table :=
  mkTable (directory_page_id_ s) (dir_page s) (buckets s) f
          (next_page_id s) (table_latch_ s) (trace s).

Definition with_latch (l : rwlatch) (s : table) : table :=
  mkTable (directory_page_id_ s) (dir_page s) (buckets s) (pin_count s)
          (next_page_id s) l (trace s).

Definition pin (p : Z) (f : Z -> nat) : Z -> nat :=
  fun q => ((if (q =? p)%Z then 1 else 0) + f q)%nat.

Definition unpin (p : Z) (f : Z -> nat) : Z -> nat :=
  fun q => (f q - (if (q =? p)%Z then 1 else 0))%nat.

(** *** Outcomes *)

(** A call returns, or waits for ever on the table latch, or stops on a
    failed [assert]; [OutOfFuel] is the model's own: the recursion bound
    given to [Insert] was too small. *)
Inductive outcome (A : Type) :=
| Done (a : A) (s : table)
| Blocked (s : table)
| AssertFail (s : table)
| OutOfFuel (s : table).
Arguments Done {A}.
Arguments Blocked {A}.
Arguments AssertFail {A}.
Arguments OutOfFuel {A}.

Definition M (A : Type) := table -> outcome A.

Definition ret {A} (a : A) : M A := fun s => Done a s.

Definition bind {A B} (m : M A) (k : A -> M B) : M B :=
  fun s => match m s with
           | Done a s' => k a s'
           | Blocked s' => Blocked s'
           | AssertFail s' => AssertFail s'
           | OutOfFuel s' => OutOfFuel s'
           end.

Definition state_of {A} (o : outcome A) : table :=
  match o with
  | Done _ s | Blocked s | AssertFail s | OutOfFuel s => s
  end.

Declare Scope table_scope.
Notation "x ← y ; z" := (bind y (fun x => z))
  (at level 20, y at level 100, z at level 200, only parsing) : table_scope.
Notation "x ;; z" := (bind x (fun _ => z))
  (at level 100, z at level 200, only parsing, right associativity) : table_scope.
Local Open Scope table_scope.

Definition assert_ (b : bool) : M unit :=
  fun s => if b then Done tt s else AssertFail s.

(** *** The table latch *)

Definition RLock : M unit :=
  fun s => if writer_entered_ (table_latch_ s) then Blocked s
           else Done tt (log EvRLock
                  (with_latch (mkLatch (S (reader_count_ (table_latch_ s))) false) s)).

Definition RUnlock : M unit :=
  fun s => Done tt (log EvRUnlock
             (with_latch (mkLatch (pred (reader_count_ (table_latch_ s)))
                                  (writer_entered_ (table_latch_ s))) s)).

Definition WLock : M unit :=
  fun s => if writer_entered_ (table_latch_ s)
              || negb (Nat.eqb (reader_count_ (table_latch_ s)) 0)
           then Blocked s
           else Done tt (log EvWLock
                  (with_latch (mkLatch (reader_count_ (table_latch_ s)) true) s)).

Definition WUnlock : M unit :=
  fun s => Done tt (log EvWUnlock
             (with_latch (mkLatch (reader_count_ (table_latch_ s)) false) s)).

(** Page latches are taken one at a time on pages the caller has pinned;
    they are recorded in the trace. *)
Definition RLatch (p : Z) : M unit := fun s => Done tt (log (EvRLatch p) s).
Definition RUnlatch (p : Z) : M unit := fun s => Done tt (log (EvRUnlatch p) s).
Definition WLatch (p : Z) : M unit := fun s => Done tt (log (EvWLatch p) s).
Definition WUnlatch (p : Z) : M unit := fun s => Done tt (log (EvWUnlatch p) s).

(** *** The buffer pool *)

(** Allocates the next page identifier, zeroes the page and pins it. *)
Definition NewPage : M Z :=
  fun s =>
    let p := next_page_id s in
    Done p (mkTable (directory_page_id_ s) (dir_page s) (delete p (buckets s))
                    (pin p (pin_count s)) (next_page_id s + 1)%Z
                    (table_latch_ s) (EvNewPage p :: trace s)).

Definition FetchPage (p : Z) : M unit :=
  fun s => Done tt (log (EvFetchPage p) (with_pins (pin p (pin_count s)) s)).

(** False when the page is not pinned. *)
Definition UnpinPage (p : Z) (is_dirty : bool) : M bool :=
  fun s => match pin_count s p with
           | O => Done false (log (EvUnpinPage p is_dirty) s)
           | S _ => Done true (log (EvUnpinPage p is_dirty)
                                   (with_pins (unpin p (pin_count s)) s))
           end.

(** False when the page is still pinned. *)
Definition DeletePage (p : Z) : M bool :=
  fun s => match pin_count s p with
           | O => Done true (log (EvDeletePage p)
                                 (with_buckets (delete p (buckets s)) s))
           | S _ => Done false (log (EvDeletePage p) s)
           end.

(** *** Access to page contents through the pointers the fetches return *)

Definition get_dir : M directory := fun s => Done (dir_page s) s.

Definition modify_dir (f : directory -> directory) : M unit :=
  fun s => Done tt (with_dir (f (dir_page s)) s).

Definition get_bucket (p : Z) : M bucket :=
  fun s => Done (bucket_at (buckets s) p) s.

Definition set_bucket (p : Z) (b : bucket) : M unit :=
  fun s => Done tt (with_buckets (<[p := b]> (buckets s)) s).

(** *** Helpers *)

(** [Hash]: the 64-bit hash downcast to 32 bits. *)
Definition Hash (key : K) : N := hash_fn key mod 2 ^ 32.

Definition KeyToDirectoryIndex (key : K) (d : directory) : N :=
  N.land (Hash key) (Dir.GetGlobalDepthMask d).

Definition KeyToPageId (key : K) (d : directory) : Z :=
  Dir.GetBucketPageId d (KeyToDirectoryIndex key d).

(** [FetchDirectoryPage]: creates the directory and its first bucket when
    there is none yet, then pins the directory page.  The mutex
    [directory_lock_] is taken and released inside the call. *)
Definition FetchDirectoryPage : M unit :=
  (fun s =>
     if (directory_page_id_ s =? INVALID_PAGE_ID)%Z then
       (new_page_id_dir ← NewPage;
        (fun s' => Done tt
           (mkTable new_page_id_dir (Dir.SetPageId Dir.zeroed new_page_id_dir)
                    (buckets s') (pin_count s') (next_page_id s')
                    (table_latch_ s') (trace s')));;
        new_page_id_buc ← NewPage;
        modify_dir (fun d => Dir.SetBucketPageId d 0 new_page_id_buc);;
        ok ← UnpinPage new_page_id_dir true;
        assert_ ok;;
        ok ← UnpinPage new_page_id_buc true;
        assert_ ok) s
     else Done tt s);;
  (fun s => assert_ (negb (directory_page_id_ s =? INVALID_PAGE_ID)%Z) s);;
  (fun s => FetchPage (directory_page_id_ s) s).

Definition FetchBucketPage (bucket_page_id : Z) : M unit :=
  FetchPage bucket_page_id.

(** *** Search *)

Definition GetValue (key : K) : M (bool * list V) :=
  RLock;;
  FetchDirectoryPage;;
  dir ← get_dir;
  let bucket_page_id := KeyToPageId key dir in
  FetchBucketPage bucket_page_id;;
  RLatch bucket_page_id;;
  b ← get_bucket bucket_page_id;
  let result := Bucket.GetValue key b in
  let r := negb (Nat.eqb (length result) 0) in
  RUnlatch bucket_page_id;;
  ok ← UnpinPage bucket_page_id false;
  assert_ ok;;
  dir ← get_dir;
  ok ← UnpinPage (Dir.GetPageId dir) false;
  assert_ ok;;
  RUnlock;;
  ret (r, result).

(** *** Insertion *)

(** The body of the four alias loops of [SplitInsert]: slot [i] gets the
    page [page] and the local depth of slot [idx]. *)
Definition set_slot (d : directory) (i : N) (page : Z) (idx : N) : directory :=
  let d1 := Dir.SetBucketPageId d i page in
  Dir.SetLocalDepth d1 i (Dir.GetLocalDepth d1 idx).

(** [for (i = start; i >= diff; i -= diff)] *)
Fixpoint loop_down (fuel : nat) (diff i : N) (page : Z) (idx : N)
                   (d : directory) : directory :=
  match fuel with
  | O => d
  | S fuel' =>
      if diff <=? i
      then loop_down fuel' diff (i - diff) page idx (set_slot d i page idx)
      else d
  end.

(** [for (i = start; i < Size(); i += diff)] *)
Fixpoint loop_up (fuel : nat) (diff i : N) (page : Z) (idx : N)
                 (d : directory) : directory :=
  match fuel with
  | O => d
  | S fuel' =>
      if i <? Dir.Size d
      then loop_up fuel' diff (i + diff) page idx (set_slot d i page idx)
      else d
  end.

(** The four loops in the order of the source; each runs at most
    [start] resp. [Size()] times because [diff] is at least 1. *)
Definition rewire (split_bucket_index split_image_bucket_index : N)
                  (split_bucket_page_id image_bucket_page_id : Z)
                  (d : directory) : directory :=
  let diff := N.shiftl 1 (Dir.GetLocalDepth d split_bucket_index) in
  let d1 := loop_down (S (N.to_nat split_bucket_index)) diff split_bucket_index
                      split_bucket_page_id split_bucket_index d in
  let d2 := loop_up (S (N.to_nat (Dir.Size d1))) diff split_bucket_index
                    split_bucket_page_id split_bucket_index d1 in
  let d3 := loop_down (S (N.to_nat split_image_bucket_index)) diff
                      split_image_bucket_index
                      image_bucket_page_id split_bucket_index d2 in
  loop_up (S (N.to_nat (Dir.Size d3))) diff split_image_bucket_index
          image_bucket_page_id split_bucket_index d3.

(** The loop that puts the saved pairs back, with its assertions. *)
Fixpoint reinsert (origin_array : list (K * V)) (split_bucket_index : N)
                  (split_bucket_page_id image_bucket_page_id : Z) : M unit :=
  match origin_array with
  | [] => ret tt
  | tmp :: rest =>
      dir ← get_dir;
      let target_bucket_index :=
        N.land (Hash (fst tmp)) (Dir.GetLocalDepthMask dir split_bucket_index) in
      let target_bucket_index_page := Dir.GetBucketPageId dir target_bucket_index in
      assert_ ((target_bucket_index_page =? split_bucket_page_id)%Z
               || (target_bucket_index_page =? image_bucket_page_id)%Z);;
      (if (target_bucket_index_page =? split_bucket_page_id)%Z then
         b ← get_bucket split_bucket_page_id;
         set_bucket split_bucket_page_id (snd (Bucket.Insert (fst tmp) (snd tmp) b));;
         assert_ (fst (Bucket.Insert (fst tmp) (snd tmp) b))
       else
         b ← get_bucket image_bucket_page_id;
         set_bucket image_bucket_page_id (snd (Bucket.Insert (fst tmp) (snd tmp) b));;
         assert_ (fst (Bucket.Insert (fst tmp) (snd tmp) b)));;
      reinsert rest split_bucket_index split_bucket_page_id image_bucket_page_id
  end.

(** [SplitInsert], with the [Insert] it ends in as a parameter. *)
Definition SplitInsert_ (Insert_ : K -> V -> M bool) (key : K) (value : V) : M bool :=
  WLock;;
  FetchDirectoryPage;;
  dir ← get_dir;
  let split_bucket_index := KeyToDirectoryIndex key dir in
  let split_bucket_depth := Dir.GetLocalDepth dir split_bucket_index in
  if MAX_BUCKET_DEPTH <=? split_bucket_depth then
    ok ← UnpinPage (Dir.GetPageId dir) false;
    assert_ ok;;
    WUnlock;;
    ret false
  else
    (if split_bucket_depth =? Dir.GetGlobalDepth dir
     then modify_dir Dir.IncrGlobalDepth else ret tt);;
    modify_dir (fun d => Dir.IncrLocalDepth d split_bucket_index);;
    dir ← get_dir;
    let split_bucket_page_id := KeyToPageId key dir in
    FetchBucketPage split_bucket_page_id;;
    WLatch split_bucket_page_id;;
    split_bucket ← get_bucket split_bucket_page_id;
    let origin_array_size := Bucket.NumReadable split_bucket in
    let origin_array := Bucket.GetArrayCopy split_bucket in
    set_bucket split_bucket_page_id (Bucket.Reset split_bucket);;
    image_bucket_page_id ← NewPage;
    WLatch image_bucket_page_id;;
    dir ← get_dir;
    let split_image_bucket_index := Dir.GetSplitImageIndex dir split_bucket_index in
    modify_dir (fun d => Dir.SetLocalDepth d split_image_bucket_index
                           (Dir.GetLocalDepth d split_bucket_index));;
    modify_dir (fun d => Dir.SetBucketPageId d split_image_bucket_index
                           image_bucket_page_id);;
    modify_dir (rewire split_bucket_index split_image_bucket_index
                       split_bucket_page_id image_bucket_page_id);;
    reinsert (take origin_array_size origin_array) split_bucket_index
             split_bucket_page_id image_bucket_page_id;;
    WUnlatch split_bucket_page_id;;
    WUnlatch image_bucket_page_id;;
    ok ← UnpinPage split_bucket_page_id true;
    assert_ ok;;
    ok ← UnpinPage image_bucket_page_id true;
    assert_ ok;;
    dir ← get_dir;
    ok ← UnpinPage (Dir.GetPageId dir) true;
    assert_ ok;;
    Insert_ key value.

(** [Insert]; [fuel] bounds the depth of the recursion through
    [SplitInsert]. *)
Fixpoint Insert (fuel : nat) (key : K) (value : V) : M bool :=
  match fuel with
  | O => fun s => OutOfFuel s
  | S fuel' =>
      RLock;;
      FetchDirectoryPage;;
      dir ← get_dir;
      let bucket_page_id := KeyToPageId key dir in
      FetchBucketPage bucket_page_id;;
      WLatch bucket_page_id;;
      b ← get_bucket bucket_page_id;
      if negb (Bucket.IsFull b) then
        set_bucket bucket_page_id (snd (Bucket.Insert key value b));;
        let ret_ := fst (Bucket.Insert key value b) in
        WUnlatch bucket_page_id;;
        ok ← UnpinPage bucket_page_id true;
        assert_ ok;;
        dir ← get_dir;
        ok ← UnpinPage (Dir.GetPageId dir) false;
        assert_ ok;;
        RUnlock;;
        ret ret_
      else
        WUnlatch bucket_page_id;;
        ok ← UnpinPage bucket_page_id false;
        assert_ ok;;
        dir ← get_dir;
        ok ← UnpinPage (Dir.GetPageId dir) false;
        assert_ ok;;
        RUnlock;;
        SplitInsert_ (Insert fuel') key value
  end.

Definition SplitInsert (fuel : nat) (key : K) (value : V) : M bool :=
  SplitInsert_ (Insert fuel) key value.

(** *** Merge and Remove *)

(** [for (i = 0; i < Size(); i++)] of [Merge]. *)
Fixpoint merge_loop (fuel : nat) (i : N) (target_bucket_page_id image_bucket_page_id : Z)
                    (target_bucket_index : N) (d : directory) : directory :=
  match fuel with
  | O => d
  | S fuel' =>
      if i <? Dir.Size d then
        merge_loop fuel' (i + 1) target_bucket_page_id image_bucket_page_id
          target_bucket_index
          (if (Dir.GetBucketPageId d i =? target_bucket_page_id)%Z
              || (Dir.GetBucketPageId d i =? image_bucket_page_id)%Z
           then set_slot d i image_bucket_page_id target_bucket_index
           else d)
      else d
  end.

(** [while (CanShrink()) DecrGlobalDepth();] *)
Fixpoint shrink_loop (fuel : nat) (d : directory) : directory :=
  match fuel with
  | O => d
  | S fuel' => if Dir.CanShrink d then shrink_loop fuel' (Dir.DecrGlobalDepth d) else d
  end.

Definition Merge (target_bucket_index : N) : M unit :=
  WLock;;
  FetchDirectoryPage;;
  dir ← get_dir;
  let target_bucket_page_id := Dir.GetBucketPageId dir target_bucket_index in
  let image_bucket_index := Dir.GetSplitImageIndex dir target_bucket_index in
  let local_depth := Dir.GetLocalDepth dir target_bucket_index in
  if local_depth =? 0 then
    ok ← UnpinPage (Dir.GetPageId dir) false;
    assert_ ok;;
    WUnlock
  else if negb (local_depth =? Dir.GetLocalDepth dir image_bucket_index) then
    ok ← UnpinPage (Dir.GetPageId dir) false;
    assert_ ok;;
    WUnlock
  else
    FetchBucketPage target_bucket_page_id;;
    RLatch target_bucket_page_id;;
    target_bucket ← get_bucket target_bucket_page_id;
    if negb (Bucket.IsEmpty target_bucket) then
      RUnlatch target_bucket_page_id;;
      ok ← UnpinPage target_bucket_page_id false;
      assert_ ok;;
      ok ← UnpinPage (Dir.GetPageId dir) false;
      assert_ ok;;
      WUnlock
    else
      RUnlatch target_bucket_page_id;;
      ok ← UnpinPage target_bucket_page_id false;
      assert_ ok;;
      ok ← DeletePage target_bucket_page_id;
      assert_ ok;;
      dir ← get_dir;
      let image_bucket_page_id := Dir.GetBucketPageId dir image_bucket_index in
      modify_dir (fun d => Dir.SetBucketPageId d target_bucket_index image_bucket_page_id);;
      modify_dir (fun d => Dir.DecrLocalDepth d target_bucket_index);;
      modify_dir (fun d => Dir.DecrLocalDepth d image_bucket_index);;
      dir ← get_dir;
      assert_ (Dir.GetLocalDepth dir target_bucket_index
               =? Dir.GetLocalDepth dir image_bucket_index);;
      modify_dir (fun d => merge_loop (N.to_nat (Dir.Size d)) 0 target_bucket_page_id
                             image_bucket_page_id target_bucket_index d);;
      modify_dir (fun d => shrink_loop (S (N.to_nat (Dir.GetGlobalDepth d))) d);;
      dir ← get_dir;
      ok ← UnpinPage (Dir.GetPageId dir) true;
      assert_ ok;;
      WUnlock.

Definition Remove (key : K) (value : V) : M bool :=
  RLock;;
  FetchDirectoryPage;;
  dir ← get_dir;
  let bucket_page_id := KeyToPageId key dir in
  let bucket_index := KeyToDirectoryIndex key dir in
  FetchBucketPage bucket_page_id;;
  WLatch bucket_page_id;;
  b ← get_bucket bucket_page_id;
  set_bucket bucket_page_id (snd (Bucket.Remove key value b));;
  let ret_ := fst (Bucket.Remove key value b) in
  b ← get_bucket bucket_page_id;
  if Bucket.IsEmpty b then
    WUnlatch bucket_page_id;;
    ok ← UnpinPage bucket_page_id true;
    assert_ ok;;
    dir ← get_dir;
    ok ← UnpinPage (Dir.GetPageId dir) false;
    assert_ ok;;
    RUnlock;;
    Merge bucket_index;;
    ret ret_
  else
    WUnlatch bucket_page_id;;
    ok ← UnpinPage bucket_page_id true;
    assert_ ok;;
    dir ← get_dir;
    ok ← UnpinPage (Dir.GetPageId dir) false;
    assert_ ok;;
    RUnlock;;
    ret ret_.

(** *** GetGlobalDepth and VerifyIntegrity *)

Definition GetGlobalDepth : M N :=
  RLock;;
  FetchDirectoryPage;;
  dir ← get_dir;
  let global_depth := Dir.GetGlobalDepth dir in
  ok ← (fun s => UnpinPage (directory_page_id_ s) false s);
  assert_ ok;;
  RUnlock;;
  ret global_depth.

Definition VerifyIntegrity : M unit :=
  RLock;;
  FetchDirectoryPage;;
  dir ← get_dir;
  assert_ (Dir.VerifyIntegrity dir);;
  ok ← (fun s => UnpinPage (directory_page_id_ s) false s);
  assert_ ok;;
  RUnlock.

(** The table as the constructor leaves it. *)
Definition new_table : table :=
  mkTable INVALID_PAGE_ID Dir.zeroed ∅ (fun _ => O) 0%Z latch_free [].

End Table.

Arguments Done {K V A}.
Arguments Blocked {K V A}.
Arguments AssertFail {K V A}.
Arguments OutOfFuel {K V A}.
Arguments table : clear implicits.
Arguments outcome : clear implicits.
Arguments M : clear implicits.

(** * Vocabulary of the specification *)

#[global] Instance directory_eq_dec : EqDecision Dir.directory.
Proof. solve_decision. Defined.

#[global] Instance slot_eq_dec {K V : Type} `{!EqDecision K, !EqDecision V} :
  EqDecision (Bucket.slot K V).
Proof. solve_decision. Defined.

Section Vocabulary.

Context {K V : Type} `{!EqDecision K, !EqDecision V, !TableParams K}.

Implicit Types (s : table K V) (p q : Z) (d : Dir.directory) (key : K) (value : V).

(** The two entry arrays have the logical size of the directory. *)
Definition well_sized d : Prop :=
  length (Dir.local_depths_ d) = N.to_nat (Dir.Size d)
  ∧ length (Dir.bucket_page_ids_ d) = N.to_nat (Dir.Size d).

(** What [FetchDirectoryPage] finds or creates: the fields of the table
    once the directory and the first bucket exist. *)
Definition boot_id (id np : Z) : Z :=
  if (id =? INVALID_PAGE_ID)%Z then np else id.

Definition boot_dir (id np : Z) d : Dir.directory :=
  if (id =? INVALID_PAGE_ID)%Z
  then Dir.SetBucketPageId (Dir.SetPageId Dir.zeroed np) 0 (np + 1)%Z
  else d.

Definition boot_buckets (id np : Z) (m : gmap Z (Bucket.bucket K V)) :=
  if (id =? INVALID_PAGE_ID)%Z then delete (np + 1)%Z (delete np m) else m.

Definition boot_pins (id np : Z) (f : Z -> nat) : Z -> nat :=
  if (id =? INVALID_PAGE_ID)%Z
  then unpin (np + 1)%Z (unpin np (pin (np + 1)%Z (pin np f)))
  else f.

Definition boot_next (id np : Z) : Z :=
  if (id =? INVALID_PAGE_ID)%Z then (np + 1 + 1)%Z else np.

Definition boot_events (id np : Z) : list event :=
  if (id =? INVALID_PAGE_ID)%Z
  then [EvUnpinPage (np + 1)%Z true; EvUnpinPage np true;
        EvNewPage (np + 1)%Z; EvNewPage np]
  else [].

Definition booted s : table K V :=
  mkTable (boot_id (directory_page_id_ s) (next_page_id s))
          (boot_dir (directory_page_id_ s) (next_page_id s) (dir_page s))
          (boot_buckets (directory_page_id_ s) (next_page_id s) (buckets s))
          (boot_pins (directory_page_id_ s) (next_page_id s) (pin_count s))
          (boot_next (directory_page_id_ s) (next_page_id s))
          (table_latch_ s)
          (boot_events (directory_page_id_ s) (next_page_id s) ++ trace s).

(** The directory page is there and knows its own page id. *)
Definition attached s : Prop :=
  directory_page_id_ s ≠ INVALID_PAGE_ID
  ∧ Dir.page_id_ (dir_page s) = directory_page_id_ s.

(** The directory is there, or can be created. *)
Definition startable s : Prop :=
  attached s
  ∨ (directory_page_id_ s = INVALID_PAGE_ID ∧ next_page_id s ≠ INVALID_PAGE_ID).

(** [post s s' d m evs]: [s'] is [s] with directory [d], buckets [m] and
    the events [evs] added; the pin counts and the latch are those of [s]
    and the directory exists. *)
Definition post s s' d (m : gmap Z (Bucket.bucket K V)) (evs : list event) : Prop :=
  directory_page_id_ s' = directory_page_id_ (booted s)
  ∧ dir_page s' = d
  ∧ buckets s' = m
  ∧ (∀ p, pin_count s' p = pin_count s p)
  ∧ next_page_id s' = next_page_id (booted s)
  ∧ table_latch_ s' = table_latch_ s
  ∧ trace s' = evs ++ trace s.

(** The directory as the split leaves it, for the key being inserted and
    the page [image_bucket_page_id] that [NewPage] hands out. *)
Definition split_dir key (image_bucket_page_id : Z) d : Dir.directory :=
  let i := KeyToDirectoryIndex key d in
  let d1 := if Dir.GetLocalDepth d i =? Dir.GetGlobalDepth d
            then Dir.IncrGlobalDepth d else d in
  let d2 := Dir.IncrLocalDepth d1 i in
  let j := Dir.GetSplitImageIndex d2 i in
  rewire i j (KeyToPageId key d2) image_bucket_page_id
         (Dir.SetBucketPageId (Dir.SetLocalDepth d2 j (Dir.GetLocalDepth d2 i))
                              j image_bucket_page_id).

(** The page the split empties and refills. *)
Definition split_page key d : Z :=
  let i := KeyToDirectoryIndex key d in
  let d1 := if Dir.GetLocalDepth d i =? Dir.GetGlobalDepth d
            then Dir.IncrGlobalDepth d else d in
  KeyToPageId key (Dir.IncrLocalDepth d1 i).

(** [reinsert] on the bucket map alone: the map it leaves and whether all
    its assertions held. *)
Fixpoint reinsert_map (origin_array : list (K * V)) (i : N) (spid ipid : Z)
    d (m : gmap Z (Bucket.bucket K V)) : bool * gmap Z (Bucket.bucket K V) :=
  match origin_array with
  | [] => (true, m)
  | tmp :: rest =>
      let t := Dir.GetBucketPageId d (N.land (Hash (fst tmp)) (Dir.GetLocalDepthMask d i)) in
      if (t =? spid)%Z then
        let r := Bucket.Insert (fst tmp) (snd tmp) (bucket_at m spid) in
        if fst r then reinsert_map rest i spid ipid d (<[spid := snd r]> m)
        else (false, <[spid := snd r]> m)
      else if (t =? ipid)%Z then
        let r := Bucket.Insert (fst tmp) (snd tmp) (bucket_at m ipid) in
        if fst r then reinsert_map rest i spid ipid d (<[ipid := snd r]> m)
        else (false, <[ipid := snd r]> m)
      else (false, m)
  end.

(** [s'] is [s] with other bucket contents. *)
Definition rebucketed s s' (m : gmap Z (Bucket.bucket K V)) : Prop :=
  directory_page_id_ s' = directory_page_id_ s
  ∧ dir_page s' = dir_page s
  ∧ buckets s' = m
  ∧ pin_count s' = pin_count s
  ∧ next_page_id s' = next_page_id s
  ∧ table_latch_ s' = table_latch_ s
  ∧ trace s' = trace s.

(** What the split leaves behind when it reaches its final [Insert]: the
    table latch is still held exclusively. *)
Definition post_split s s' d (m : gmap Z (Bucket.bucket K V)) (evs : list event) : Prop :=
  directory_page_id_ s' = directory_page_id_ (booted s)
  ∧ dir_page s' = d
  ∧ buckets s' = m
  ∧ (∀ p, pin_count s' p = pin_count s p)
  ∧ next_page_id s' = (next_page_id (booted s) + 1)%Z
  ∧ table_latch_ s' = mkLatch 0 true
  ∧ trace s' = evs ++ trace s.

Definition split_events (did spid ipid : Z) : list event :=
  [EvUnpinPage did true; EvUnpinPage ipid true; EvUnpinPage spid true;
   EvWUnlatch ipid; EvWUnlatch spid; EvWLatch ipid; EvNewPage ipid;
   EvWLatch spid; EvFetchPage spid; EvFetchPage did].

Definition remove_events (did p : Z) : list event :=
  [EvRUnlock; EvUnpinPage did false; EvUnpinPage p true; EvWUnlatch p;
   EvWLatch p; EvFetchPage p; EvFetchPage did].

(** A directory whose slots are laid out as extendible hashing wants them:
    slot [j] is on the page of slot [i] exactly when the two agree on the
    bits of the local depth of [i], and then it has that depth too. *)
Definition aligned_at d (i j : N) : bool :=
  let same := N.land j (Dir.GetLocalDepthMask d i)
              =? N.land i (Dir.GetLocalDepthMask d i) in
  Bool.eqb (Dir.GetBucketPageId d j =? Dir.GetBucketPageId d i)%Z same
  && implb same (Dir.GetLocalDepth d j =? Dir.GetLocalDepth d i).

Definition aligned d : bool :=
  (length (Dir.local_depths_ d) =? N.to_nat (Dir.Size d))%nat
  && (length (Dir.bucket_page_ids_ d) =? N.to_nat (Dir.Size d))%nat
  && forallb (fun i => (Dir.GetLocalDepth d i <=? Dir.GetGlobalDepth d)
                       && forallb (aligned_at d i) (Dir.slots d)) (Dir.slots d).

(** The same as a proposition. *)
Definition dir_wf d : Prop :=
  well_sized d
  ∧ ∀ i, i < Dir.Size d ->
      Dir.GetLocalDepth d i <= Dir.GetGlobalDepth d
      ∧ ∀ j, j < Dir.Size d ->
          (Dir.GetBucketPageId d j = Dir.GetBucketPageId d i
           <-> N.land j (N.ones (Dir.GetLocalDepth d i))
               = N.land i (N.ones (Dir.GetLocalDepth d i)))
          ∧ (N.land j (N.ones (Dir.GetLocalDepth d i))
             = N.land i (N.ones (Dir.GetLocalDepth d i))
             -> Dir.GetLocalDepth d j = Dir.GetLocalDepth d i).

(** The page a hash value is routed to. *)
Definition route (h : N) d : Z :=
  Dir.GetBucketPageId d (N.land h (Dir.GetGlobalDepthMask d)).

(** The three conditions under which [Merge] leaves everything as it is. *)
Definition merge_skips d (m : gmap Z (Bucket.bucket K V)) (t : N) : bool :=
  (Dir.GetLocalDepth d t =? 0)
  || negb (Dir.GetLocalDepth d t =? Dir.GetLocalDepth d (Dir.GetSplitImageIndex d t))
  || negb (Bucket.IsEmpty (bucket_at m (Dir.GetBucketPageId d t))).

Definition merge_skip_events (d : Dir.directory) (t : N) : list event :=
  let did := Dir.GetPageId d in
  let tp := Dir.GetBucketPageId d t in
  if (Dir.GetLocalDepth d t =? 0)
     || negb (Dir.GetLocalDepth d t =? Dir.GetLocalDepth d (Dir.GetSplitImageIndex d t))
  then [EvWUnlock; EvUnpinPage did false; EvFetchPage did]
  else [EvWUnlock; EvUnpinPage did false; EvUnpinPage tp false; EvRUnlatch tp;
        EvRLatch tp; EvFetchPage tp; EvFetchPage did].

(** The directory after a merge of slot [t] into its split image. *)
Definition merge_dir (t : N) d : Dir.directory :=
  let tp := Dir.GetBucketPageId d t in
  let image := Dir.GetSplitImageIndex d t in
  let ip := Dir.GetBucketPageId d image in
  let d3 := Dir.DecrLocalDepth
              (Dir.DecrLocalDepth (Dir.SetBucketPageId d t ip) t) image in
  let d4 := merge_loop (N.to_nat (Dir.Size d3)) 0 tp ip t d3 in
  shrink_loop (S (N.to_nat (Dir.GetGlobalDepth d4))) d4.

(** The assertion [Merge] makes on the two decremented depths. *)
Definition merge_assert (t : N) d : bool :=
  let image := Dir.GetSplitImageIndex d t in
  let ip := Dir.GetBucketPageId d image in
  let d3 := Dir.DecrLocalDepth
              (Dir.DecrLocalDepth (Dir.SetBucketPageId d t ip) t) image in
  Dir.GetLocalDepth d3 t =? Dir.GetLocalDepth d3 image.

Definition merge_events (did tp : Z) : list event :=
  [EvWUnlock; EvUnpinPage did true; EvDeletePage tp; EvUnpinPage tp false;
   EvRUnlatch tp; EvRLatch tp; EvFetchPage tp; EvFetchPage did].

Definition settled {A} (o : outcome K V A) : Prop :=
  match o with
  | Done _ _ | Blocked _ => True
  | AssertFail _ | OutOfFuel _ => False
  end.

Definition acquires (p : Z) (e : event) : nat :=
  match e with
  | EvFetchPage q | EvNewPage q => if (q =? p)%Z then 1 else 0
  | _ => 0
  end.

Definition releases (p : Z) (e : event) : nat :=
  match e with
  | EvUnpinPage q _ => if (q =? p)%Z then 1 else 0
  | _ => 0
  end.

(** Every fetch or allocation of a page is matched by one unpin. *)
Definition balanced (evs : list event) : Prop :=
  ∀ p, sum_list_with (acquires p) evs = sum_list_with (releases p) evs.

(** The call left the pin count of every page as it found it, through
    matching fetches and unpins. *)
Definition pins_balanced {A} s (o : outcome K V A) : Prop :=
  settled o ->
  (∀ p, pin_count (state_of o) p = pin_count s p)
  ∧ ∃ evs, trace (state_of o) = evs ++ trace s ∧ balanced evs.

(** Between [s] and [s'], with the calls [evs] in between: the directory
    page, if its content changed, was unpinned dirty, and every bucket page
    whose content changed was unpinned dirty or deleted. *)
Definition changes_dirty s s' (evs : list event) : Prop :=
  (dir_page s' ≠ dir_page s -> EvUnpinPage (directory_page_id_ s') true ∈ evs)
  ∧ (∀ p, bucket_at (buckets s') p ≠ bucket_at (buckets s) p ->
          EvUnpinPage p true ∈ evs ∨ EvDeletePage p ∈ evs).

Definition dirty_ok {A} s (o : outcome K V A) : Prop :=
  settled o ->
  ∃ evs, trace (state_of o) = evs ++ trace s
         ∧ changes_dirty s (state_of o) evs
         ∧ directory_page_id_ (state_of o) = directory_page_id_ (booted s).

(** The calls of the public interface, and a client that makes them one
    after the other on one thread. *)
Inductive call :=
| CallGetValue (key : K)
| CallInsert (key : K) (value : V)
| CallRemove (key : K) (value : V)
| CallGetGlobalDepth
| CallVerifyIntegrity.

Definition run_call (fuel : nat) (c : call) : M K V unit :=
  match c with
  | CallGetValue key => bind (GetValue key) (fun _ => ret tt)
  | CallInsert key value => bind (Insert fuel key value) (fun _ => ret tt)
  | CallRemove key value => bind (Remove key value) (fun _ => ret tt)
  | CallGetGlobalDepth => bind GetGlobalDepth (fun _ => ret tt)
  | CallVerifyIntegrity => VerifyIntegrity
  end.

Fixpoint run_calls (fuel : nat) (cs : list call) : M K V unit :=
  match cs with
  | [] => ret tt
  | c :: cs' => bind (run_call fuel c) (fun _ => run_calls fuel cs')
  end.

(** The pair is in the bucket its key is routed to. *)
Definition stored key value s : Prop :=
  (key, value) ∈ Bucket.GetArrayCopy
                   (bucket_at (buckets s) (KeyToPageId key (dir_page s))).

(** A table at rest, between two calls: nobody holds the table latch, the
    directory exists and is aligned. *)
Definition at_rest s : Prop :=
  table_latch_ s = latch_free ∧ attached s ∧ aligned (dir_page s) = true.

(** The bucket of page [p] is in order: each of its pairs is routed to
    [p] by the directory, no pair is there twice, and it has no more than
    [BUCKET_ARRAY_SIZE] slots. *)
Definition bucket_ok d (m : gmap Z (Bucket.bucket K V)) p : bool :=
  let b := bucket_at m p in
  forallb (fun x => (KeyToPageId (fst x) d =? p)%Z) (Bucket.GetArrayCopy b)
  && bool_decide (NoDup (Bucket.GetArrayCopy b))
  && (length b <=? BUCKET_ARRAY_SIZE)%nat.

(** The page the redistribution loop of the split finds for a pair, in
    the directory [d] it reads and for the slot [i] being split. *)
Definition target_page d (i : N) (tmp : K * V) : Z :=
  Dir.GetBucketPageId d (N.land (Hash (fst tmp)) (Dir.GetLocalDepthMask d i)).

(** The table latch in its two modes and the latch of each page, and how
    often an event takes or gives back one of them. *)
Inductive latch_id := TableRead | TableWrite | PageRead (p : Z) | PageWrite (p : Z).

Definition takes (l : latch_id) (e : event) : nat :=
  match l, e with
  | TableRead, EvRLock | TableWrite, EvWLock => 1
  | PageRead p, EvRLatch q | PageWrite p, EvWLatch q => if (q =? p)%Z then 1 else 0
  | _, _ => 0
  end.

Definition gives_back (l : latch_id) (e : event) : nat :=
  match l, e with
  | TableRead, EvRUnlock | TableWrite, EvWUnlock => 1
  | PageRead p, EvRUnlatch q | PageWrite p, EvWUnlatch q => if (q =? p)%Z then 1 else 0
  | _, _ => 0
  end.

(** Every latch is given back as often as it is taken. *)
Definition latches_released (evs : list event) : Prop :=
  ∀ l, sum_list_with (takes l) evs = sum_list_with (gives_back l) evs.

(** Every bucket page is in order.  Pages without an entry are zeroed,
    hence in order. *)
Definition buckets_ok d (m : gmap Z (Bucket.bucket K V)) : bool :=
  forallb (fun pb => bucket_ok d m (fst pb)) (map_to_list m).

(** A table the index can work on: nobody holds the table latch, the
    directory exists or can be created, it is aligned, and every bucket is
    in order. *)
Definition table_ok s : Prop :=
  table_latch_ s = latch_free ∧ startable s
  ∧ aligned (dir_page (booted s)) = true
  ∧ buckets_ok (dir_page (booted s)) (buckets (booted s)) = true.

(** Between [s] and [s'] every latch taken was given back; in [s'] the
    table latch is free and the directory exists. *)
Definition released_after s s' : Prop :=
  table_latch_ s' = latch_free ∧ attached s'
  ∧ ∃ evs, trace s' = evs ++ trace s ∧ latches_released evs.

(** No page is pinned, and no slot of the directory names the directory
    page itself. *)
Definition quiescent s : Prop :=
  (∀ p, pin_count s p = O)
  ∧ forallb (fun i => negb (Dir.GetBucketPageId (dir_page (booted s)) i
                            =? directory_page_id_ (booted s))%Z)
            (Dir.slots (dir_page (booted s))) = true.

(** No slot of the directory names page [p]. *)
Definition fresh_page d (p : Z) : bool :=
  forallb (fun i => negb (Dir.GetBucketPageId d i =? p)%Z) (Dir.slots d).

End Vocabulary.

(** ** Example tables *)

Module Sample.

(** The instantiation [ExtendibleHashTable<int, int, IntComparator>] with
    [MAX_BUCKET_DEPTH = 9]; for compact examples a bucket holds two pairs
    and an integer key hashes to itself. *)
#[global] Instance int_table : TableParams Z := {|
  hash_fn := Z.to_N;
  MAX_BUCKET_DEPTH := 9;
  BUCKET_ARRAY_SIZE := 2
|}.

(** The state a call leaves behind. *)
Definition after {A} (o : outcome Z Z A) : table Z Z := state_of o.

(** A table holding the pair (1, 10). *)
Definition one_pair : table Z Z :=
  after (Insert 1 1%Z 10%Z new_table).

(** A table whose only bucket is full: it holds (0, 100) and (2, 200). *)
Definition two_pairs : table Z Z :=
  after (Insert 1 2%Z 200%Z (after (Insert 1 0%Z 100%Z new_table))).

(** A directory of global depth 3: page 2 has local depth 1 and serves the
    odd slots, page 3 has local depth 2 (slots 2 and 6), pages 1 and 4 have
    local depth 3 (slots 0 and 4). *)
Definition comb_dir : Dir.directory :=
  Dir.mkDirectory 0%Z 3 [3; 1; 2; 1; 3; 1; 2; 1]
                  [1; 2; 3; 2; 4; 2; 3; 2]%Z.

(** The bucket of the odd slots is full: it holds (7, 70) and (15, 150). *)
Definition comb_table : table Z Z :=
  mkTable 0%Z comb_dir
          {[ 2%Z := [Bucket.Live 7%Z 70%Z; Bucket.Live 15%Z 150%Z] ]}
          (fun _ => O) 5%Z latch_free [].

(** A directory of global depth 9 in which slot 0 has local depth 9: the
    directory left by nine splits of the bucket of key 0, the n-th of which
    creates page n + 1. *)
Definition deep_dir : Dir.directory :=
  fold_left (fun d ip => split_dir 0%Z ip d) [2; 3; 4; 5; 6; 7; 8; 9; 10]%Z
            (Dir.mkDirectory 0%Z 0 [0] [1%Z]).

(** Its bucket for slot 0 is full: keys 0 and 512 agree on their low nine
    bits. *)
Definition deep_table : table Z Z :=
  mkTable 0%Z deep_dir
          {[ 1%Z := [Bucket.Live 0%Z 100%Z; Bucket.Live 512%Z 200%Z] ]}
          (fun _ => O) 11%Z latch_free [].

(** [comb_table] after [Insert(8, 80)], which goes to page 1 through slot
    0. *)
Definition with_8 : table Z Z := after (Insert 1 8%Z 80%Z comb_table).

(** Calls of a client; the [Remove] empties the bucket of slot 4 and
    merges it into the bucket of slot 0. *)
Definition client_calls : list (call (K:=Z) (V:=Z)) :=
  [CallInsert 4%Z 40%Z; CallRemove 4%Z 40%Z; CallGetGlobalDepth; CallVerifyIntegrity].

Definition with_8_later : table Z Z := after (run_calls 1 client_calls with_8).

(** [comb_table] after [Insert(4, 40)]: the pair is alone in page 4, the
    bucket of slot 4, whose split image is slot 0. *)
Definition with_4 : table Z Z := after (Insert 1 4%Z 40%Z comb_table).

(** [with_4] after [Remove(4, 40)], which merges page 4 into page 1. *)
Definition without_4 : table Z Z := after (Remove 4%Z 40%Z with_4).

(** [comb_table] while somebody has page 4 pinned. *)
Definition pinned_table : table Z Z :=
  mkTable 0%Z comb_dir
          {[ 2%Z := [Bucket.Live 7%Z 70%Z; Bucket.Live 15%Z 150%Z] ]}
          (fun p => if (p =? 4)%Z then 1%nat else 0%nat) 5%Z latch_free [].

(** The table a first [FetchDirectoryPage] leaves of a new one. *)
Definition created : table Z Z := after (FetchDirectoryPage new_table).

End Sample.

(** * Single calls *)

Section BucketFacts.

Context {K V : Type} `{!EqDecision K, !EqDecision V}.

Implicit Types (b : Bucket.bucket K V) (key : K) (value : V).

Lemma holds_Live key value (sl : Bucket.slot K V) :
  Bucket.holds key value sl = true <-> sl = Bucket.Live key value.
Proof.
  destruct sl as [| |k v]; cbn; try (split; [done|discriminate]).
  rewrite andb_true_iff, !bool_decide_eq_true. split.
  - by intros [-> ->].
  - intros [= -> ->]. done.
Qed.

Lemma existsb_holds key value b :
  existsb (Bucket.holds key value) b = true <-> (key, value) ∈ Bucket.GetArrayCopy b.
Proof.
  induction b as [|sl b IH]; cbn.
  - split; [discriminate|]. by intros ?%elem_of_nil.
  - rewrite orb_true_iff, IH, holds_Live. destruct sl as [| |k v]; cbn.
    + split; [by intros [?|?]|by right].
    + split; [by intros [?|?]|by right].
    + rewrite elem_of_cons. split.
      * intros [[= -> ->]|?]; [by left|by right].
      * intros [[= -> ->]|?]; [by left|by right].
Qed.

Lemma IsEmpty_pairs b :
  Bucket.IsEmpty b = true <-> Bucket.GetArrayCopy b = [].
Proof.
  unfold Bucket.IsEmpty. induction b as [|sl b IH]; cbn; [done|].
  rewrite andb_true_iff, IH. destruct sl; cbn.
  - split; [by intros [_ ?]|done].
  - split; [by intros [_ ?]|done].
  - split; [by intros [? _]|done].
Qed.

Lemma GetValue_pairs key value b :
  value ∈ Bucket.GetValue key b <-> (key, value) ∈ Bucket.GetArrayCopy b.
Proof.
  induction b as [|sl b IH]; cbn; [by rewrite !elem_of_nil|].
  destruct sl as [| |k v]; [done..|].
  rewrite elem_of_cons. case_bool_decide as Hk.
  - subst k. rewrite elem_of_cons, IH. split.
    + intros [->|?]; [by left|by right].
    + intros [[= ->]|?]; [by left|by right].
  - rewrite IH. split; [by right|]. intros [[= ? ?]|?]; [by subst|done].
Qed.

Lemma put_pairs key value b x :
  Bucket.IsFull b = false ->
  x ∈ Bucket.GetArrayCopy (Bucket.put key value b)
  <-> x = (key, value) ∨ x ∈ Bucket.GetArrayCopy b.
Proof.
  unfold Bucket.IsFull. induction b as [|sl b IH]; cbn; [done|].
  destruct sl as [| |k v]; cbn.
  - intros _. by rewrite elem_of_cons.
  - intros _. by rewrite elem_of_cons.
  - intros Hf. rewrite !elem_of_cons, (IH Hf). tauto.
Qed.

Lemma clear_pairs key value b x :
  x ∈ Bucket.GetArrayCopy b -> x ≠ (key, value) ->
  x ∈ Bucket.GetArrayCopy (Bucket.clear key value b).
Proof.
  induction b as [|sl b IH]; cbn; [done|].
  destruct sl as [| |k v]; cbn; try exact IH.
  rewrite elem_of_cons. intros Hx Hne.
  destruct (bool_decide (k = key) && bool_decide (v = value)) eqn:E; cbn.
  - apply andb_true_iff in E as [->%bool_decide_eq_true ->%bool_decide_eq_true].
    by destruct Hx.
  - rewrite elem_of_cons. destruct Hx; [by left|right; by apply IH].
Qed.

Lemma Insert_keeps key value b x :
  x ∈ Bucket.GetArrayCopy b ->
  x ∈ Bucket.GetArrayCopy (snd (Bucket.Insert key value b)).
Proof.
  unfold Bucket.Insert. destruct (existsb _ b); cbn; [done|].
  destruct (Bucket.IsFull b) eqn:Hf; cbn; [done|].
  intros. apply put_pairs; auto.
Qed.

Lemma Insert_true key value b :
  fst (Bucket.Insert key value b) = true ->
  (key, value) ∈ Bucket.GetArrayCopy (snd (Bucket.Insert key value b)).
Proof.
  unfold Bucket.Insert. destruct (existsb _ b); cbn; [done|].
  destruct (Bucket.IsFull b) eqn:Hf; cbn; [done|].
  intros _. apply put_pairs; auto.
Qed.

Lemma Insert_false key value b :
  Bucket.IsFull b = false ->
  (fst (Bucket.Insert key value b) = false
   <-> (key, value) ∈ Bucket.GetArrayCopy b).
Proof.
  intros Hf. unfold Bucket.Insert. rewrite Hf, orb_false_r, <- existsb_holds.
  by destruct (existsb _ b).
Qed.

Lemma Insert_rejected key value b :
  fst (Bucket.Insert key value b) = false -> snd (Bucket.Insert key value b) = b.
Proof. unfold Bucket.Insert. by destruct (_ || _). Qed.

Lemma Remove_keeps key value b x :
  x ∈ Bucket.GetArrayCopy b -> x ≠ (key, value) ->
  x ∈ Bucket.GetArrayCopy (snd (Bucket.Remove key value b)).
Proof.
  unfold Bucket.Remove. destruct (existsb _ b); cbn; [|done].
  apply clear_pairs.
Qed.

Lemma Remove_false key value b :
  fst (Bucket.Remove key value b) = false
  <-> (key, value) ∉ Bucket.GetArrayCopy b.
Proof.
  unfold Bucket.Remove. rewrite <- existsb_holds.
  destruct (existsb _ b); cbn; split; try done; intros H; by destruct H.
Qed.

Lemma Remove_rejected key value b :
  fst (Bucket.Remove key value b) = false -> snd (Bucket.Remove key value b) = b.
Proof. unfold Bucket.Remove. by destruct (existsb _ b). Qed.

(** *** Room in a bucket *)

Lemma length_GetArrayCopy b : length (Bucket.GetArrayCopy b) = Bucket.NumReadable b.
Proof.
  unfold Bucket.NumReadable. induction b as [|sl b IH]; cbn; [done|].
  destruct sl; cbn; by rewrite ?IH.
Qed.

Lemma NumReadable_le b : (Bucket.NumReadable b <= length b)%nat.
Proof. unfold Bucket.NumReadable. apply List.filter_length_le. Qed.

Lemma IsFull_NumReadable b :
  Bucket.IsFull b = false <-> (Bucket.NumReadable b < length b)%nat.
Proof.
  unfold Bucket.IsFull, Bucket.NumReadable. induction b as [|sl b IH]; cbn.
  - split; [done|lia].
  - pose proof (List.filter_length_le Bucket.readable b).
    destruct sl; cbn; try (split; [lia|done]). rewrite IH. lia.
Qed.

Lemma length_put key value b : length (Bucket.put key value b) = length b.
Proof. induction b as [|sl b IH]; cbn; [done|]. destruct sl; cbn; by rewrite ?IH. Qed.

Lemma NumReadable_put key value b :
  Bucket.IsFull b = false ->
  Bucket.NumReadable (Bucket.put key value b) = S (Bucket.NumReadable b).
Proof.
  unfold Bucket.IsFull, Bucket.NumReadable. induction b as [|sl b IH]; cbn; [done|].
  destruct sl; cbn; try done. intros Hf. by rewrite IH.
Qed.

Lemma GetArrayCopy_unused n :
  Bucket.GetArrayCopy (replicate n (Bucket.Unused : Bucket.slot K V)) = [].
Proof. induction n as [|n IH]; cbn; [done|exact IH]. Qed.

Lemma NumReadable_unused n :
  Bucket.NumReadable (replicate n (Bucket.Unused : Bucket.slot K V)) = O.
Proof. by rewrite <- length_GetArrayCopy, GetArrayCopy_unused. Qed.

Lemma length_Reset b : length (Bucket.Reset b) = length b.
Proof. unfold Bucket.Reset. apply length_replicate. Qed.

(** A pair that is not there goes into a bucket with a free slot. *)
Lemma Insert_fits key value b :
  (key, value) ∉ Bucket.GetArrayCopy b ->
  (Bucket.NumReadable b < length b)%nat ->
  fst (Bucket.Insert key value b) = true
  ∧ length (snd (Bucket.Insert key value b)) = length b
  ∧ Bucket.NumReadable (snd (Bucket.Insert key value b)) = S (Bucket.NumReadable b)
  ∧ ∀ x, x ∈ Bucket.GetArrayCopy (snd (Bucket.Insert key value b))
         <-> x = (key, value) ∨ x ∈ Bucket.GetArrayCopy b.
Proof.
  intros Hnot Hroom. apply IsFull_NumReadable in Hroom.
  unfold Bucket.Insert. rewrite Hroom, orb_false_r.
  destruct (existsb _ b) eqn:E; [by apply existsb_holds in E|]. cbn.
  split; [done|]. split; [apply length_put|].
  split; [by apply NumReadable_put|]. intros x. by apply put_pairs.
Qed.

End BucketFacts.

Section DirFacts.

Implicit Types (d : Dir.directory) (i j : N) (p : Z).

Lemma GetLocalDepth_SetLocalDepth d i j n :
  Dir.GetLocalDepth (Dir.SetLocalDepth d i n) j
  = if decide (i = j ∧ (N.to_nat i < length (Dir.local_depths_ d))%nat)
    then n else Dir.GetLocalDepth d j.
Proof.
  unfold Dir.GetLocalDepth, Dir.SetLocalDepth. cbn.
  case_decide as H.
  - destruct H as [-> H]. by rewrite list_lookup_insert_eq.
  - destruct (decide (i = j)) as [->|Hij].
    + rewrite list_insert_ge; [done|]. apply Nat.nlt_ge. tauto.
    + rewrite list_lookup_insert_ne; [done|]. lia.
Qed.

Lemma GetLocalDepth_SetBucketPageId d i j p :
  Dir.GetLocalDepth (Dir.SetBucketPageId d i p) j = Dir.GetLocalDepth d j.
Proof. reflexivity. Qed.

Lemma GetBucketPageId_SetBucketPageId d i j p :
  Dir.GetBucketPageId (Dir.SetBucketPageId d i p) j
  = if decide (i = j ∧ (N.to_nat i < length (Dir.bucket_page_ids_ d))%nat)
    then p else Dir.GetBucketPageId d j.
Proof.
  unfold Dir.GetBucketPageId, Dir.SetBucketPageId. cbn.
  case_decide as H.
  - destruct H as [-> H]. by rewrite list_lookup_insert_eq.
  - destruct (decide (i = j)) as [->|Hij].
    + rewrite list_insert_ge; [done|]. apply Nat.nlt_ge. tauto.
    + rewrite list_lookup_insert_ne; [done|]. lia.
Qed.

Lemma GetBucketPageId_SetLocalDepth d i j n :
  Dir.GetBucketPageId (Dir.SetLocalDepth d i n) j = Dir.GetBucketPageId d j.
Proof. reflexivity. Qed.

Lemma well_sized_SetLocalDepth d i n : well_sized d -> well_sized (Dir.SetLocalDepth d i n).
Proof. unfold well_sized, Dir.Size. cbn. by rewrite length_insert. Qed.

Lemma well_sized_SetBucketPageId d i p : well_sized d -> well_sized (Dir.SetBucketPageId d i p).
Proof. unfold well_sized, Dir.Size. cbn. by rewrite length_insert. Qed.

Lemma Size_pos d : 0 < Dir.Size d.
Proof. unfold Dir.Size. rewrite N.shiftl_1_l. apply N.neq_0_lt_0, N.pow_nonzero. lia. Qed.

Lemma Size_IncrGlobalDepth d : Dir.Size (Dir.IncrGlobalDepth d) = 2 * Dir.Size d.
Proof.
  unfold Dir.Size, Dir.IncrGlobalDepth. cbn.
  rewrite !N.shiftl_1_l, N.pow_add_r. lia.
Qed.

Lemma well_sized_IncrGlobalDepth d : well_sized d -> well_sized (Dir.IncrGlobalDepth d).
Proof.
  intros [H1 H2]. unfold well_sized. rewrite Size_IncrGlobalDepth.
  cbn. rewrite !length_app. lia.
Qed.

Lemma KeyIndex_lt (h : N) d : N.land h (Dir.GetGlobalDepthMask d) < Dir.Size d.
Proof.
  unfold Dir.GetGlobalDepthMask, Dir.Size. rewrite N.shiftl_1_l.
  rewrite <- N.pred_sub, <- N.ones_equiv, N.land_ones.
  apply N.mod_lt, N.pow_nonzero. lia.
Qed.

(** *** The alias loops of [SplitInsert] *)

Lemma GetGlobalDepth_set_slot d i p idx :
  Dir.GetGlobalDepth (set_slot d i p idx) = Dir.GetGlobalDepth d.
Proof. reflexivity. Qed.

Lemma Size_set_slot d i p idx : Dir.Size (set_slot d i p idx) = Dir.Size d.
Proof. reflexivity. Qed.

Lemma well_sized_set_slot d i p idx : well_sized d -> well_sized (set_slot d i p idx).
Proof.
  intros H. unfold set_slot. cbv zeta.
  by apply well_sized_SetLocalDepth, well_sized_SetBucketPageId.
Qed.

Lemma GetLocalDepth_set_slot_idx d i p idx :
  Dir.GetLocalDepth (set_slot d i p idx) idx = Dir.GetLocalDepth d idx.
Proof.
  unfold set_slot. cbv zeta. rewrite GetLocalDepth_SetLocalDepth.
  case_decide as H; [|done]. by destruct H as [-> _].
Qed.

(** What the loops keep: a property of directories that [set_slot] keeps
    is kept by the loops and by [rewire]. *)
Lemma loop_down_keeps (P : Dir.directory -> Prop) diff page idx :
  (∀ d i, P d -> P (set_slot d i page idx)) ->
  ∀ fuel i d, P d -> P (loop_down fuel diff i page idx d).
Proof.
  intros Hstep fuel. induction fuel as [|fuel IH]; intros i d Hd; cbn; [done|].
  destruct (diff <=? i); [|done]. by apply IH, Hstep.
Qed.

Lemma loop_up_keeps (P : Dir.directory -> Prop) diff page idx :
  (∀ d i, P d -> P (set_slot d i page idx)) ->
  ∀ fuel i d, P d -> P (loop_up fuel diff i page idx d).
Proof.
  intros Hstep fuel. induction fuel as [|fuel IH]; intros i d Hd; cbn; [done|].
  destruct (i <? Dir.Size d); [|done]. by apply IH, Hstep.
Qed.

Lemma rewire_keeps (P : Dir.directory -> Prop) i j sp ip :
  (∀ d x, P d -> P (set_slot d x sp i)) ->
  (∀ d x, P d -> P (set_slot d x ip i)) ->
  ∀ d, P d -> P (rewire i j sp ip d).
Proof.
  intros H1 H2 d Hd. unfold rewire. cbv zeta.
  apply loop_up_keeps; [done|]. apply loop_down_keeps; [done|].
  apply loop_up_keeps; [done|]. by apply loop_down_keeps.
Qed.


Lemma well_sized_rewire i j sp ip d : well_sized d -> well_sized (rewire i j sp ip d).
Proof. apply rewire_keeps; intros; by apply well_sized_set_slot. Qed.

Lemma GetLocalDepth_rewire_idx i j sp ip d :
  Dir.GetLocalDepth (rewire i j sp ip d) i = Dir.GetLocalDepth d i.
Proof.
  apply (rewire_keeps (fun d' => Dir.GetLocalDepth d' i = Dir.GetLocalDepth d i));
    [| |done]; intros d' x <-; apply GetLocalDepth_set_slot_idx.
Qed.

(** Every page id [rewire] writes is one of the two it is given. *)
Lemma GetBucketPageId_rewire i j sp ip d x :
  Dir.GetBucketPageId (rewire i j sp ip d) x = Dir.GetBucketPageId d x
  ∨ Dir.GetBucketPageId (rewire i j sp ip d) x = sp
  ∨ Dir.GetBucketPageId (rewire i j sp ip d) x = ip.
Proof.
  apply (rewire_keeps (fun d' => Dir.GetBucketPageId d' x = Dir.GetBucketPageId d x
                                 ∨ Dir.GetBucketPageId d' x = sp
                                 ∨ Dir.GetBucketPageId d' x = ip)); [| |tauto].
  - intros d' y H. unfold set_slot. cbv zeta.
    rewrite GetBucketPageId_SetLocalDepth, GetBucketPageId_SetBucketPageId.
    case_decide; tauto.
  - intros d' y H. unfold set_slot. cbv zeta.
    rewrite GetBucketPageId_SetLocalDepth, GetBucketPageId_SetBucketPageId.
    case_decide; tauto.
Qed.


Lemma GetBucketPageId_IncrGlobalDepth d i :
  (N.to_nat i < length (Dir.bucket_page_ids_ d))%nat ->
  Dir.GetBucketPageId (Dir.IncrGlobalDepth d) i = Dir.GetBucketPageId d i.
Proof. intros H. unfold Dir.GetBucketPageId. cbn. by rewrite lookup_app_l. Qed.

End DirFacts.

Arguments Dir.GetLocalDepth : simpl never.
Arguments Dir.GetLocalDepthMask : simpl never.
Arguments Dir.GetGlobalDepth : simpl never.
Arguments Dir.GetGlobalDepthMask : simpl never.
Arguments Dir.Size : simpl never.
Arguments Dir.GetBucketPageId : simpl never.
Arguments Dir.GetSplitImageIndex : simpl never.
Arguments Dir.SetBucketPageId : simpl never.
Arguments Dir.SetLocalDepth : simpl never.
Arguments Dir.DecrLocalDepth : simpl never.
Arguments Dir.IncrLocalDepth : simpl never.
Arguments Dir.IncrGlobalDepth : simpl never.
Arguments Dir.DecrGlobalDepth : simpl never.
Arguments Dir.CanShrink : simpl never.
Arguments Dir.VerifyIntegrity : simpl never.
Arguments Dir.GetPageId : simpl never.
Arguments Bucket.IsEmpty : simpl never.
Arguments Bucket.IsFull : simpl never.
Arguments Bucket.Insert : simpl never.
Arguments Bucket.Remove : simpl never.
Arguments Bucket.GetValue : simpl never.
Arguments Bucket.GetArrayCopy : simpl never.
Arguments Bucket.NumReadable : simpl never.
Arguments Bucket.Reset : simpl never.
Arguments pin : simpl never.
Arguments unpin : simpl never.
Arguments bucket_at : simpl never.
Arguments KeyToPageId : simpl never.
Arguments KeyToDirectoryIndex : simpl never.
Arguments SplitInsert_ : simpl never.
Arguments Merge : simpl never.
Arguments FetchDirectoryPage : simpl never.



Section Facts.

Context {K V : Type} `{!EqDecision K, !EqDecision V, !TableParams K}.

Implicit Types (s : table K V) (p q : Z) (d : Dir.directory) (key : K) (value : V).

(** ** Pin counts *)

Lemma pin_same p (f : Z -> nat) : pin p f p = S (f p).
Proof. unfold pin. by rewrite Z.eqb_refl. Qed.

Lemma pin_pos p q (f : Z -> nat) : f q ≠ O -> pin p f q ≠ O.
Proof. unfold pin. destruct (q =? p)%Z; lia. Qed.

Lemma unpin_pin p q (f : Z -> nat) : unpin p (pin p f) q = f q.
Proof. unfold pin, unpin. destruct (q =? p)%Z; lia. Qed.

Ltac pins :=
  cbn; cbv [pin unpin]; rewrite ?Z.eqb_refl;
  repeat match goal with
         | |- context [(?a =? ?b)%Z] => destruct (Z.eqb_spec a b)
         end;
  try lia; try congruence.

(** ** The page id of the directory never changes *)

Lemma GetPageId_SetBucketPageId d i p :
  Dir.GetPageId (Dir.SetBucketPageId d i p) = Dir.GetPageId d.
Proof. reflexivity. Qed.

Lemma GetPageId_SetLocalDepth d i n :
  Dir.GetPageId (Dir.SetLocalDepth d i n) = Dir.GetPageId d.
Proof. reflexivity. Qed.

Lemma GetPageId_IncrLocalDepth d i :
  Dir.GetPageId (Dir.IncrLocalDepth d i) = Dir.GetPageId d.
Proof. reflexivity. Qed.

Lemma GetPageId_DecrLocalDepth d i :
  Dir.GetPageId (Dir.DecrLocalDepth d i) = Dir.GetPageId d.
Proof. reflexivity. Qed.

Lemma GetPageId_IncrGlobalDepth d :
  Dir.GetPageId (Dir.IncrGlobalDepth d) = Dir.GetPageId d.
Proof. reflexivity. Qed.

Lemma GetPageId_DecrGlobalDepth d :
  Dir.GetPageId (Dir.DecrGlobalDepth d) = Dir.GetPageId d.
Proof. reflexivity. Qed.

Lemma GetPageId_set_slot d i p idx :
  Dir.GetPageId (set_slot d i p idx) = Dir.GetPageId d.
Proof. reflexivity. Qed.

Lemma GetPageId_loop_down fuel diff i p idx d :
  Dir.GetPageId (loop_down fuel diff i p idx d) = Dir.GetPageId d.
Proof.
  revert i d. induction fuel as [|fuel IH]; intros i d; cbn; [done..|].
  destruct (diff <=? i); [|done]. by rewrite IH.
Qed.

Lemma GetPageId_loop_up fuel diff i p idx d :
  Dir.GetPageId (loop_up fuel diff i p idx d) = Dir.GetPageId d.
Proof.
  revert i d. induction fuel as [|fuel IH]; intros i d; cbn; [done..|].
  destruct (i <? Dir.Size d); [|done]. by rewrite IH.
Qed.

Lemma GetPageId_rewire i j sp ip d :
  Dir.GetPageId (rewire i j sp ip d) = Dir.GetPageId d.
Proof.
  unfold rewire. cbv zeta.
  by rewrite GetPageId_loop_up, GetPageId_loop_down, GetPageId_loop_up,
    GetPageId_loop_down.
Qed.

Lemma GetPageId_merge_loop fuel i tp ip t d :
  Dir.GetPageId (merge_loop fuel i tp ip t d) = Dir.GetPageId d.
Proof.
  revert i d. induction fuel as [|fuel IH]; intros i d; cbn; [done..|].
  destruct (i <? Dir.Size d); [|done]. rewrite IH. by destruct (_ || _).
Qed.

Lemma GetPageId_shrink_loop fuel d :
  Dir.GetPageId (shrink_loop fuel d) = Dir.GetPageId d.
Proof.
  revert d. induction fuel as [|fuel IH]; intros d; cbn; [done..|].
  destruct (Dir.CanShrink d); [|done]. by rewrite IH.
Qed.

Create Rewrite HintDb dirpg.
Hint Rewrite GetPageId_SetBucketPageId GetPageId_SetLocalDepth
  GetPageId_IncrLocalDepth GetPageId_DecrLocalDepth GetPageId_IncrGlobalDepth
  GetPageId_DecrGlobalDepth GetPageId_set_slot GetPageId_loop_down
  GetPageId_loop_up GetPageId_rewire GetPageId_merge_loop
  GetPageId_shrink_loop : dirpg.

Arguments rewire : simpl never.
Arguments merge_loop : simpl never.
Arguments shrink_loop : simpl never.
Arguments loop_down : simpl never.
Arguments loop_up : simpl never.

(** ** Running a computation on a symbolic state *)

Ltac prims :=
  cbv [bind ret assert_ RLock RUnlock WLock WUnlock RLatch RUnlatch WLatch WUnlatch
       NewPage FetchPage FetchBucketPage UnpinPage DeletePage
       get_dir modify_dir get_bucket set_bucket].

Ltac exec_step :=
  match goal with
  | |- context [match pin ?p ?f ?q with O => _ | S _ => _ end] =>
      let E := fresh "E" in
      destruct (pin p f q) eqn:E; [exfalso; revert E; solve [pins]|clear E]
  | |- context [match unpin ?p ?f ?q with O => _ | S _ => _ end] =>
      let E := fresh "E" in
      destruct (unpin p f q) eqn:E; [exfalso; revert E; solve [pins]|clear E]
  | H : table_latch_ ?s = _ |- context [table_latch_ ?s] => rewrite H
  | H : ?c = _ |- context [if ?c then _ else _] => rewrite H
  | H : ?c = _ |- context [if negb ?c then _ else _] => rewrite H
  | |- context [(?a =? ?a)%Z] => rewrite Z.eqb_refl
  end.

Ltac exec := prims; cbn; repeat (exec_step; cbn).

(** ** The directory page, created on first use *)

Lemma boot_id_valid s :
  startable s -> boot_id (directory_page_id_ s) (next_page_id s) ≠ INVALID_PAGE_ID.
Proof.
  unfold boot_id. intros [[Ha _]|[Hi Hn]].
  - apply Z.eqb_neq in Ha as Ha'. by rewrite Ha'.
  - by rewrite Hi.
Qed.

Lemma boot_page_id s :
  startable s ->
  Dir.GetPageId (boot_dir (directory_page_id_ s) (next_page_id s) (dir_page s))
  = boot_id (directory_page_id_ s) (next_page_id s).
Proof.
  unfold boot_id, boot_dir. intros [[Ha Hp]|[Hi Hn]].
  - apply Z.eqb_neq in Ha as Ha'. by rewrite Ha'.
  - by rewrite Hi.
Qed.

Lemma boot_pins_eq id np (f : Z -> nat) p : boot_pins id np f p = f p.
Proof. unfold boot_pins. destruct (id =? INVALID_PAGE_ID)%Z; [|done]. pins. Qed.

Lemma booted_attached s : attached s -> booted s = s.
Proof.
  intros [Ha%Z.eqb_neq _]. unfold booted, boot_id, boot_dir, boot_buckets,
    boot_pins, boot_next, boot_events. rewrite Ha. by destruct s.
Qed.

Lemma startable_booted s : startable s -> attached (booted s).
Proof.
  intros Hs. split; cbn.
  - by apply boot_id_valid.
  - by apply boot_page_id.
Qed.

Lemma FetchDirectoryPage_Done s :
  startable s ->
  FetchDirectoryPage s
  = Done tt (log (EvFetchPage (directory_page_id_ (booted s)))
               (with_pins (pin (directory_page_id_ (booted s)) (pin_count (booted s)))
                          (booted s))).
Proof.
  intros Hs. pose proof (boot_id_valid s Hs) as Hv. revert Hv.
  unfold FetchDirectoryPage, booted, boot_id, boot_dir, boot_buckets,
    boot_pins, boot_next, boot_events.
  destruct (directory_page_id_ s =? INVALID_PAGE_ID)%Z eqn:Hi; intros Hv%Z.eqb_neq.
  - exec. reflexivity.
  - exec. reflexivity.
Qed.

Arguments boot_id : simpl never.
Arguments boot_dir : simpl never.
Arguments boot_buckets : simpl never.
Arguments boot_pins : simpl never.
Arguments boot_next : simpl never.
Arguments boot_events : simpl never.

(** ** What a call leaves behind *)

Ltac start Hs :=
  let Hv := fresh "Hv" in
  let Hp := fresh "Hp" in
  pose proof (boot_id_valid _ Hs) as Hv;
  pose proof (boot_page_id _ Hs) as Hp.

Ltac exec_more :=
  prims; cbn;
  repeat (first
    [ progress autorewrite with dirpg
    | match goal with
      | H : Dir.GetPageId ?d = _ |- context [Dir.GetPageId ?d] => rewrite H
      end
    | exec_step ]; cbn).

Ltac not_in :=
  let Hin := fresh "Hin" in
  intros Hin;
  repeat (apply elem_of_cons in Hin as [Hin|Hin]; [discriminate Hin|]);
  by apply elem_of_nil in Hin.

Ltac elems := repeat (rewrite elem_of_cons || rewrite elem_of_app).

Ltac post_tac :=
  unfold post; cbn; repeat split;
  try reflexivity;
  try (by symmetry);
  try (cbn; rewrite <- ?app_assoc; reflexivity);
  try (intros; rewrite ?boot_pins_eq; pins; rewrite ?boot_pins_eq; pins).

Lemma GetValue_Done s key :
  table_latch_ s = latch_free -> startable s ->
  let d := dir_page (booted s) in
  let p := KeyToPageId key d in
  let res := Bucket.GetValue key (bucket_at (buckets (booted s)) p) in
  ∃ s', GetValue key s = Done (negb (Nat.eqb (length res) 0), res) s'
        ∧ post s s' d (buckets (booted s))
            ([EvRUnlock; EvUnpinPage (directory_page_id_ (booted s)) false;
              EvUnpinPage p false; EvRUnlatch p; EvRLatch p; EvFetchPage p;
              EvFetchPage (directory_page_id_ (booted s))]
             ++ boot_events (directory_page_id_ s) (next_page_id s) ++ [EvRLock]).
Proof.
  intros Hl Hs d p res. start Hs.
  unfold GetValue. exec.
  rewrite FetchDirectoryPage_Done by done. exec_more.
  eexists; split; [reflexivity|]. post_tac.
Qed.

Lemma post_attached s s' m evs :
  startable s -> post s s' (dir_page (booted s)) m evs -> attached s'.
Proof.
  intros Hs (Hid & Hd & _). destruct (startable_booted s Hs) as [H1 H2].
  split; congruence.
Qed.

Lemma Insert_fast s fuel key value :
  table_latch_ s = latch_free -> startable s ->
  let d := dir_page (booted s) in
  let p := KeyToPageId key d in
  let b := bucket_at (buckets (booted s)) p in
  Bucket.IsFull b = false ->
  ∃ s', Insert (S fuel) key value s = Done (fst (Bucket.Insert key value b)) s'
        ∧ post s s' d (<[p := snd (Bucket.Insert key value b)]> (buckets (booted s)))
            ([EvRUnlock; EvUnpinPage (directory_page_id_ (booted s)) false;
              EvUnpinPage p true; EvWUnlatch p; EvWLatch p; EvFetchPage p;
              EvFetchPage (directory_page_id_ (booted s))]
             ++ boot_events (directory_page_id_ s) (next_page_id s) ++ [EvRLock]).
Proof.
  intros Hl Hs d p b Hf. start Hs. subst d p b. cbn in Hf.
  cbn [Insert]. exec.
  rewrite FetchDirectoryPage_Done by done. exec_more.
  eexists; split; [reflexivity|]. post_tac.
Qed.

Lemma Insert_full s fuel key value :
  table_latch_ s = latch_free -> startable s ->
  let d := dir_page (booted s) in
  let p := KeyToPageId key d in
  let b := bucket_at (buckets (booted s)) p in
  Bucket.IsFull b = true ->
  ∃ s', Insert (S fuel) key value s = SplitInsert_ (Insert fuel) key value s'
        ∧ post s s' d (buckets (booted s))
            ([EvRUnlock; EvUnpinPage (directory_page_id_ (booted s)) false;
              EvUnpinPage p false; EvWUnlatch p; EvWLatch p; EvFetchPage p;
              EvFetchPage (directory_page_id_ (booted s))]
             ++ boot_events (directory_page_id_ s) (next_page_id s) ++ [EvRLock]).
Proof.
  intros Hl Hs d p b Hf. start Hs. subst d p b. cbn in Hf.
  cbn [Insert]. exec.
  rewrite FetchDirectoryPage_Done by done. exec_more.
  eexists; split; [reflexivity|]. post_tac.
Qed.

Lemma SplitInsert_full s (I : K -> V -> M K V bool) key value :
  table_latch_ s = latch_free -> startable s ->
  let d := dir_page (booted s) in
  (MAX_BUCKET_DEPTH <=? Dir.GetLocalDepth d (KeyToDirectoryIndex key d)) = true ->
  ∃ s', SplitInsert_ I key value s = Done false s'
        ∧ post s s' d (buckets (booted s))
            ([EvWUnlock; EvUnpinPage (directory_page_id_ (booted s)) false;
              EvFetchPage (directory_page_id_ (booted s))]
             ++ boot_events (directory_page_id_ s) (next_page_id s) ++ [EvWLock]).
Proof.
  intros Hl Hs d Hf. start Hs. subst d. cbn in Hf.
  unfold SplitInsert_. exec.
  rewrite FetchDirectoryPage_Done by done. exec_more.
  eexists; split; [reflexivity|]. post_tac.
Qed.

Lemma rebucketed_trans s s1 s2 m1 m2 :
  rebucketed s s1 m1 -> rebucketed s1 s2 m2 -> rebucketed s s2 m2.
Proof. unfold rebucketed. intuition congruence. Qed.

Lemma reinsert_run origin_array i spid ipid s :
  let r := reinsert_map origin_array i spid ipid (dir_page s) (buckets s) in
  ∃ s', rebucketed s s' (snd r)
        ∧ reinsert origin_array i spid ipid s
          = if fst r then Done tt s' else AssertFail s'.
Proof.
  revert s. induction origin_array as [|tmp rest IH]; intros s; cbn.
  { exists s. by repeat split. }
  prims. cbn.
  destruct (Dir.GetBucketPageId (dir_page s)
              (N.land (Hash tmp.1) (Dir.GetLocalDepthMask (dir_page s) i)) =? spid)%Z
    eqn:E1; cbn.
  - destruct (Bucket.Insert tmp.1 tmp.2 (bucket_at (buckets s) spid)) as [ok b'] eqn:Eb.
    cbn. destruct ok; cbn.
    + edestruct IH as (s' & Hr & ->).
      eexists; split; [|reflexivity].
      eapply rebucketed_trans; [|exact Hr]. by repeat split.
    + eexists; split; [|reflexivity]. by repeat split.
  - destruct (Dir.GetBucketPageId (dir_page s)
              (N.land (Hash tmp.1) (Dir.GetLocalDepthMask (dir_page s) i)) =? ipid)%Z
      eqn:E2; cbn.
    + destruct (Bucket.Insert tmp.1 tmp.2 (bucket_at (buckets s) ipid)) as [ok b'] eqn:Eb.
      cbn. destruct ok; cbn.
      * edestruct IH as (s' & Hr & ->).
        eexists; split; [|reflexivity].
        eapply rebucketed_trans; [|exact Hr]. by repeat split.
      * eexists; split; [|reflexivity]. by repeat split.
    + exists s. by repeat split.
Qed.

Lemma SplitInsert_split s (I : K -> V -> M K V bool) key value :
  table_latch_ s = latch_free -> startable s ->
  let d := dir_page (booted s) in
  let ipid := next_page_id (booted s) in
  let spid := split_page key d in
  let b := bucket_at (buckets (booted s)) spid in
  let r := reinsert_map (take (Bucket.NumReadable b) (Bucket.GetArrayCopy b))
             (KeyToDirectoryIndex key d) spid ipid (split_dir key ipid d)
             (delete ipid (<[spid := Bucket.Reset b]> (buckets (booted s)))) in
  (MAX_BUCKET_DEPTH <=? Dir.GetLocalDepth d (KeyToDirectoryIndex key d)) = false ->
  ∃ s', (if fst r
         then SplitInsert_ I key value s = I key value s'
              ∧ post_split s s' (split_dir key ipid d) (snd r)
                  (split_events (directory_page_id_ (booted s)) spid ipid
                   ++ boot_events (directory_page_id_ s) (next_page_id s) ++ [EvWLock])
         else SplitInsert_ I key value s = AssertFail s')
        ∧ dir_page s' = split_dir key ipid d
        ∧ buckets s' = snd r.
Proof.
  intros Hl Hs d ipid spid b r Hf. start Hs.
  subst r b spid ipid d. unfold split_dir, split_page. cbn in Hf |- *.
  unfold SplitInsert_. exec.
  rewrite FetchDirectoryPage_Done by done. exec_more.
  match goal with
  | |- context [if ?a =? ?b then _ else _] => destruct (a =? b)
  end; cbn.
  all: match goal with
       | |- context [reinsert ?l ?i ?sp ?ip ?st] =>
           destruct (reinsert_run l i sp ip st) as (s' & Hr & Heq);
           rewrite Heq; clear Heq
       end.
  all: destruct s'; unfold rebucketed in Hr; cbn in Hr;
       destruct Hr as (-> & -> & -> & -> & -> & -> & ->); cbn.
  all: match goal with
       | |- context [if fst ?r then _ else _] => destruct (fst r)
       end.
  all: exec_more.
  all: eexists.
  all: split; [first [split; [reflexivity|]|reflexivity]|by split].
  all: unfold post_split, split_events; post_tac.
Qed.

Lemma bucket_at_insert (m : gmap Z (Bucket.bucket K V)) p b :
  bucket_at (<[p := b]> m) p = b.
Proof. unfold bucket_at. by rewrite lookup_insert_eq. Qed.

Lemma bucket_at_insert_ne (m : gmap Z (Bucket.bucket K V)) p q b :
  p ≠ q -> bucket_at (<[p := b]> m) q = bucket_at m q.
Proof. intros. unfold bucket_at. by rewrite lookup_insert_ne. Qed.

Lemma bucket_at_delete_ne (m : gmap Z (Bucket.bucket K V)) p q :
  p ≠ q -> bucket_at (delete p m) q = bucket_at m q.
Proof. intros. unfold bucket_at. by rewrite lookup_delete_ne. Qed.

Lemma bucket_at_delete (m : gmap Z (Bucket.bucket K V)) p :
  bucket_at (delete p m) p = zeroed_bucket.
Proof. unfold bucket_at. by rewrite lookup_delete_eq. Qed.

Lemma Remove_run s key value :
  table_latch_ s = latch_free -> startable s ->
  let d := dir_page (booted s) in
  let p := KeyToPageId key d in
  let r := Bucket.Remove key value (bucket_at (buckets (booted s)) p) in
  ∃ s1, post s s1 d (<[p := snd r]> (buckets (booted s)))
          (remove_events (directory_page_id_ (booted s)) p
           ++ boot_events (directory_page_id_ s) (next_page_id s) ++ [EvRLock])
        ∧ Remove key value s
          = if Bucket.IsEmpty (snd r)
            then bind (Merge (KeyToDirectoryIndex key d)) (fun _ => ret (fst r)) s1
            else Done (fst r) s1.
Proof.
  intros Hl Hs d p r. start Hs. subst r p d. cbn.
  unfold Remove. exec.
  rewrite FetchDirectoryPage_Done by done. exec_more.
  rewrite bucket_at_insert.
  destruct (Bucket.IsEmpty _); exec_more.
  all: eexists; split; [|reflexivity].
  all: unfold remove_events; post_tac.
Qed.

(** ** Merge *)

Lemma Merge_skip s (t : N) :
  table_latch_ s = latch_free -> startable s ->
  let d := dir_page (booted s) in
  merge_skips d (buckets (booted s)) t = true ->
  ∃ s', Merge t s = Done tt s'
        ∧ post s s' d (buckets (booted s))
            (merge_skip_events d t
             ++ boot_events (directory_page_id_ s) (next_page_id s) ++ [EvWLock]).
Proof.
  intros Hl Hs d Hskip. start Hs. subst d.
  unfold merge_skips, merge_skip_events in *. cbn in Hskip |- *.
  unfold Merge. exec.
  rewrite FetchDirectoryPage_Done by done. exec_more.
  destruct (Dir.GetLocalDepth _ t =? 0) eqn:E0; cbn in Hskip |- *.
  { exec_more. eexists; split; [reflexivity|]. post_tac. }
  destruct (Dir.GetLocalDepth _ t =? Dir.GetLocalDepth _ _) eqn:E1; cbn in Hskip |- *.
  2:{ exec_more. eexists; split; [reflexivity|]. post_tac. }
  exec_more.
  eexists; split; [reflexivity|]. post_tac.
Qed.

Lemma Merge_merge s (t : N) :
  table_latch_ s = latch_free -> startable s ->
  let d := dir_page (booted s) in
  let tp := Dir.GetBucketPageId d t in
  merge_skips d (buckets (booted s)) t = false ->
  if Nat.eqb (pin_count s tp) 0 && negb (tp =? directory_page_id_ (booted s))%Z
     && merge_assert t d
  then ∃ s', Merge t s = Done tt s'
             ∧ post s s' (merge_dir t d) (delete tp (buckets (booted s)))
                 (merge_events (directory_page_id_ (booted s)) tp
                  ++ boot_events (directory_page_id_ s) (next_page_id s) ++ [EvWLock])
  else ∃ s', Merge t s = AssertFail s'.
Proof.
  intros Hl Hs d tp Hskip. start Hs. subst tp d.
  unfold merge_skips, merge_dir, merge_assert in *. cbn in Hskip |- *.
  apply orb_false_elim in Hskip as [Hskip E2].
  apply orb_false_elim in Hskip as [E0 E1].
  apply negb_false_iff in E1, E2.
  unfold Merge. exec.
  rewrite FetchDirectoryPage_Done by done. exec_more.
  rewrite unpin_pin.
  match goal with
  | |- context [match pin ?p ?f ?q with O => _ | S _ => _ end] =>
      change (pin p f q) with ((if (q =? p)%Z then 1 else 0) + f q)%nat
  end.
  rewrite boot_pins_eq.
  destruct (Z.eqb _ (boot_id _ _)) eqn:Ed; cbn.
  { rewrite andb_false_r. cbn. eexists; reflexivity. }
  rewrite andb_true_r.
  destruct (pin_count s _) eqn:En; cbn; [|eexists; reflexivity].
  match goal with |- context [if ?c then ex _ else _] => destruct c eqn:Ea end;
    exec_more; [|eexists; reflexivity].
  eexists; split; [reflexivity|]. unfold merge_events. post_tac.
Qed.

(** ** GetGlobalDepth and VerifyIntegrity *)

Lemma GetGlobalDepth_Done s :
  table_latch_ s = latch_free -> startable s ->
  let d := dir_page (booted s) in
  ∃ s', GetGlobalDepth s = Done (Dir.GetGlobalDepth d) s'
        ∧ post s s' d (buckets (booted s))
            ([EvRUnlock; EvUnpinPage (directory_page_id_ (booted s)) false;
              EvFetchPage (directory_page_id_ (booted s))]
             ++ boot_events (directory_page_id_ s) (next_page_id s) ++ [EvRLock]).
Proof.
  intros Hl Hs d. start Hs. subst d.
  unfold GetGlobalDepth. exec.
  rewrite FetchDirectoryPage_Done by done. exec_more.
  eexists; split; [reflexivity|]. post_tac.
Qed.

Lemma VerifyIntegrity_run s :
  table_latch_ s = latch_free -> startable s ->
  let d := dir_page (booted s) in
  if Dir.VerifyIntegrity d
  then ∃ s', VerifyIntegrity s = Done tt s'
        ∧ post s s' d (buckets (booted s))
            ([EvRUnlock; EvUnpinPage (directory_page_id_ (booted s)) false;
              EvFetchPage (directory_page_id_ (booted s))]
             ++ boot_events (directory_page_id_ s) (next_page_id s) ++ [EvRLock])
  else ∃ s', VerifyIntegrity s = AssertFail s'.
Proof.
  intros Hl Hs d. start Hs. subst d.
  unfold VerifyIntegrity. exec.
  rewrite FetchDirectoryPage_Done by done. exec_more.
  destruct (Dir.VerifyIntegrity _); exec_more.
  - eexists; split; [reflexivity|]. post_tac.
  - eexists; reflexivity.
Qed.

(** ** Calls that return or block *)

Lemma Insert_blocked s fuel key value :
  writer_entered_ (table_latch_ s) = true ->
  Insert (S fuel) key value s = Blocked s.
Proof. intros Hw. cbn [Insert]. prims. by rewrite Hw. Qed.

Lemma post_latch_free s s' d m evs :
  table_latch_ s = latch_free -> post s s' d m evs -> table_latch_ s' = latch_free.
Proof. intros Hl (_ & _ & _ & _ & _ & Hlatch & _). congruence. Qed.

Lemma post_booted s s' m evs :
  startable s -> post s s' (dir_page (booted s)) m evs ->
  booted s' = s'.
Proof. intros Hs Hpost. apply booted_attached. by eapply post_attached. Qed.

(** ** Pages acquired and released in a trace *)

Lemma balanced_app evs1 evs2 : balanced evs1 -> balanced evs2 -> balanced (evs1 ++ evs2).
Proof. intros H1 H2 p. rewrite !sum_list_with_app. by rewrite H1, H2. Qed.

Lemma balanced_boot id np : balanced (boot_events id np).
Proof.
  intros p. unfold boot_events. destruct (id =? INVALID_PAGE_ID)%Z; cbn; [|done].
  repeat match goal with |- context [(?a =? ?b)%Z] => destruct (Z.eqb_spec a b) end; lia.
Qed.

Ltac balance :=
  repeat first [ apply balanced_app | apply balanced_boot ];
  let p := fresh "p" in
  intros p; cbn;
  repeat match goal with |- context [(?a =? ?b)%Z] => destruct (Z.eqb_spec a b) end;
  try lia; try congruence.

Lemma post_pins_balanced {A} s s' d m evs (a : A) :
  post s s' d m evs -> balanced evs -> pins_balanced s (Done a s').
Proof.
  intros (_ & _ & _ & Hpin & _ & _ & Htr) Hb _. cbn. split; [done|]. eauto.
Qed.

Lemma pins_balanced_after {A} s s1 d m evs (o : outcome K V A) :
  post s s1 d m evs -> balanced evs -> pins_balanced s1 o -> pins_balanced s o.
Proof.
  intros (_ & _ & _ & Hpin & _ & _ & Htr) Hb Ho Hset.
  destruct (Ho Hset) as (Hpin' & evs' & Htr' & Hb'). split.
  - intros p. by rewrite Hpin', Hpin.
  - exists (evs' ++ evs). rewrite Htr', Htr, app_assoc. split; [done|].
    by apply balanced_app.
Qed.

Lemma GetValue_pins s key :
  table_latch_ s = latch_free -> startable s -> pins_balanced s (GetValue key s).
Proof.
  intros Hl Hs. destruct (GetValue_Done s key Hl Hs) as (s' & -> & Hpost).
  eapply post_pins_balanced; [exact Hpost|]. balance.
Qed.

Lemma SplitInsert_pins s fuel key value :
  table_latch_ s = latch_free -> startable s ->
  pins_balanced s (SplitInsert fuel key value s).
Proof.
  intros Hl Hs. unfold SplitInsert.
  destruct (MAX_BUCKET_DEPTH <=? Dir.GetLocalDepth (dir_page (booted s))
              (KeyToDirectoryIndex key (dir_page (booted s)))) eqn:Hmax.
  - destruct (SplitInsert_full s (Insert fuel) key value Hl Hs Hmax) as (s' & -> & Hpost).
    eapply post_pins_balanced; [exact Hpost|]. balance.
  - destruct (SplitInsert_split s (Insert fuel) key value Hl Hs Hmax) as (s' & Hrun & _).
    destruct (fst (reinsert_map _ _ _ _ _ _)).
    + destruct Hrun as [-> Hpost].
      destruct Hpost as (_ & _ & _ & Hpin & _ & Hlatch & Htr).
      destruct fuel as [|fuel]; [by intros []|].
      rewrite Insert_blocked by (by rewrite Hlatch).
      intros _. cbn. split; [done|]. eexists; split; [exact Htr|].
      unfold split_events. balance.
    + rewrite Hrun. by intros [].
Qed.

Lemma Insert_pins s fuel key value :
  table_latch_ s = latch_free -> startable s ->
  pins_balanced s (Insert fuel key value s).
Proof.
  intros Hl Hs. destruct fuel as [|fuel]; [by intros []|].
  destruct (Bucket.IsFull (bucket_at (buckets (booted s))
              (KeyToPageId key (dir_page (booted s))))) eqn:Hf.
  - destruct (Insert_full s fuel key value Hl Hs Hf) as (s1 & -> & Hpost).
    eapply pins_balanced_after; [exact Hpost|balance|].
    apply SplitInsert_pins.
    + by eapply post_latch_free.
    + left. by eapply post_attached.
  - destruct (Insert_fast s fuel key value Hl Hs Hf) as (s' & -> & Hpost).
    eapply post_pins_balanced; [exact Hpost|]. balance.
Qed.

Lemma Merge_pins s (t : N) :
  table_latch_ s = latch_free -> startable s -> pins_balanced s (Merge t s).
Proof.
  intros Hl Hs.
  destruct (merge_skips (dir_page (booted s)) (buckets (booted s)) t) eqn:Hskip.
  - destruct (Merge_skip s t Hl Hs Hskip) as (s' & -> & Hpost).
    eapply post_pins_balanced; [exact Hpost|].
    unfold merge_skip_events. destruct (_ || _); balance.
  - pose proof (Merge_merge s t Hl Hs Hskip) as Hrun. cbv zeta in Hrun.
    destruct (_ && _).
    + destruct Hrun as (s' & -> & Hpost).
      eapply post_pins_balanced; [exact Hpost|]. unfold merge_events. balance.
    + destruct Hrun as (s' & ->). by intros [].
Qed.

Lemma bind_ret_pins {A B} s (m : M K V A) (b : B) :
  pins_balanced s (m s) -> pins_balanced s (bind m (fun _ => ret b) s).
Proof. unfold bind, ret. by destruct (m s). Qed.

Lemma Remove_pins s key value :
  table_latch_ s = latch_free -> startable s -> pins_balanced s (Remove key value s).
Proof.
  intros Hl Hs. destruct (Remove_run s key value Hl Hs) as (s1 & Hpost & ->).
  destruct (Bucket.IsEmpty _).
  - eapply pins_balanced_after; [exact Hpost|unfold remove_events; balance|].
    apply bind_ret_pins, Merge_pins.
    + by eapply post_latch_free.
    + left. by eapply post_attached.
  - eapply post_pins_balanced; [exact Hpost|]. unfold remove_events. balance.
Qed.

(** ** Pages changed by a call *)

Lemma changes_dirty_trans s s1 s2 evs1 evs2 :
  directory_page_id_ s2 = directory_page_id_ s1 ->
  changes_dirty s s1 evs1 -> changes_dirty s1 s2 evs2 ->
  changes_dirty s s2 (evs2 ++ evs1).
Proof.
  intros Hid [Hd1 Hb1] [Hd2 Hb2]. split.
  - intros Hne. rewrite elem_of_app.
    destruct (decide (dir_page s2 = dir_page s1)) as [He|He].
    + right. rewrite Hid. apply Hd1. congruence.
    + left. by apply Hd2.
  - intros p Hne. rewrite !elem_of_app.
    destruct (decide (bucket_at (buckets s2) p = bucket_at (buckets s1) p)) as [He|He].
    + destruct (Hb1 p) as [?|?]; [congruence|tauto..].
    + destruct (Hb2 p He) as [?|?]; tauto.
Qed.

Lemma boot_changes s :
  (boot_dir (directory_page_id_ s) (next_page_id s) (dir_page s) ≠ dir_page s ->
   EvUnpinPage (boot_id (directory_page_id_ s) (next_page_id s)) true
   ∈ boot_events (directory_page_id_ s) (next_page_id s))
  ∧ (∀ p, bucket_at (boot_buckets (directory_page_id_ s) (next_page_id s) (buckets s)) p
          ≠ bucket_at (buckets s) p ->
          EvUnpinPage p true ∈ boot_events (directory_page_id_ s) (next_page_id s)).
Proof.
  unfold boot_dir, boot_id, boot_buckets, boot_events.
  destruct (directory_page_id_ s =? INVALID_PAGE_ID)%Z; [|by split].
  split.
  - intros _. rewrite !elem_of_cons. tauto.
  - intros p Hne. rewrite !elem_of_cons.
    destruct (decide (p = next_page_id s + 1)%Z) as [->|H1]; [tauto|].
    destruct (decide (p = next_page_id s)) as [->|H2]; [tauto|].
    rewrite !bucket_at_delete_ne in Hne by done. done.
Qed.

(** A call described by [post] whose own events [evs0] unpin dirty what it
    changed. *)
Lemma post_changes s s' d m evs0 (lock : event) :
  post s s' d m (evs0 ++ boot_events (directory_page_id_ s) (next_page_id s) ++ [lock]) ->
  (d ≠ dir_page (booted s) -> EvUnpinPage (directory_page_id_ (booted s)) true ∈ evs0) ->
  (∀ p, bucket_at m p ≠ bucket_at (buckets (booted s)) p ->
        EvUnpinPage p true ∈ evs0 ∨ EvDeletePage p ∈ evs0) ->
  changes_dirty s s' (evs0 ++ boot_events (directory_page_id_ s) (next_page_id s) ++ [lock]).
Proof.
  intros (Hid & Hd & Hm & _) Hdir Hbuck.
  destruct (boot_changes s) as [Hbd Hbb]. cbn in Hid, Hdir, Hbuck.
  unfold changes_dirty. rewrite Hid, Hd, Hm. split.
  - intros Hne. rewrite !elem_of_app.
    destruct (decide (d = boot_dir (directory_page_id_ s) (next_page_id s) (dir_page s)))
      as [->|Hne']; [right; left; by apply Hbd|left; by apply Hdir].
  - intros p Hne. rewrite !elem_of_app.
    destruct (decide (bucket_at m p
        = bucket_at (boot_buckets (directory_page_id_ s) (next_page_id s) (buckets s)) p))
      as [He|He].
    + left. right. left. apply Hbb. congruence.
    + destruct (Hbuck p He); tauto.
Qed.

Lemma post_dirty_ok {A} s s' d m evs0 lock (a : A) :
  post s s' d m (evs0 ++ boot_events (directory_page_id_ s) (next_page_id s) ++ [lock]) ->
  (d ≠ dir_page (booted s) -> EvUnpinPage (directory_page_id_ (booted s)) true ∈ evs0) ->
  (∀ p, bucket_at m p ≠ bucket_at (buckets (booted s)) p ->
        EvUnpinPage p true ∈ evs0 ∨ EvDeletePage p ∈ evs0) ->
  dirty_ok s (Done a s').
Proof.
  intros Hpost Hd Hb _. eexists. split; [apply Hpost|]. split.
  - by eapply post_changes.
  - apply Hpost.
Qed.

Lemma dirty_ok_after {A} s s1 d m evs0 lock (o : outcome K V A) :
  startable s ->
  post s s1 d m (evs0 ++ boot_events (directory_page_id_ s) (next_page_id s) ++ [lock]) ->
  d = dir_page (booted s) ->
  (∀ p, bucket_at m p ≠ bucket_at (buckets (booted s)) p ->
        EvUnpinPage p true ∈ evs0 ∨ EvDeletePage p ∈ evs0) ->
  dirty_ok s1 o -> dirty_ok s o.
Proof.
  intros Hs Hpost -> Hb Ho Hset.
  destruct (Ho Hset) as (evs' & Htr & Hch & Hid).
  rewrite (post_booted s s1 m _ Hs Hpost) in Hid.
  eexists. split; [|split].
  - rewrite Htr. destruct Hpost as (_ & _ & _ & _ & _ & _ & ->). apply app_assoc.
  - eapply changes_dirty_trans; [exact Hid| |exact Hch].
    eapply post_changes; [exact Hpost|done|done].
  - rewrite Hid. apply Hpost.
Qed.

Lemma reinsert_map_frame origin_array i spid ipid d (m : gmap Z (Bucket.bucket K V)) p :
  p ≠ spid -> p ≠ ipid ->
  bucket_at (snd (reinsert_map origin_array i spid ipid d m)) p = bucket_at m p.
Proof.
  intros H1 H2. revert m. induction origin_array as [|tmp rest IH]; intros m; cbn; [done|].
  destruct (_ =? spid)%Z.
  - destruct (fst _); cbn; [rewrite IH|]; by rewrite bucket_at_insert_ne.
  - destruct (_ =? ipid)%Z; [|done].
    destruct (fst _); cbn; [rewrite IH|]; by rewrite bucket_at_insert_ne.
Qed.

Lemma insert_changes (m : gmap Z (Bucket.bucket K V)) p b q :
  bucket_at (<[p := b]> m) q ≠ bucket_at m q -> q = p.
Proof.
  intros Hne. destruct (decide (p = q)) as [->|Hpq]; [done|].
  by rewrite bucket_at_insert_ne in Hne.
Qed.

Lemma delete_changes (m : gmap Z (Bucket.bucket K V)) p q :
  bucket_at (delete p m) q ≠ bucket_at m q -> q = p.
Proof.
  intros Hne. destruct (decide (p = q)) as [->|Hpq]; [done|].
  by rewrite bucket_at_delete_ne in Hne.
Qed.

Lemma GetValue_dirty s key :
  table_latch_ s = latch_free -> startable s -> dirty_ok s (GetValue key s).
Proof.
  intros Hl Hs. destruct (GetValue_Done s key Hl Hs) as (s' & -> & Hpost).
  eapply post_dirty_ok; [exact Hpost|done..].
Qed.

Lemma SplitInsert_dirty s fuel key value :
  table_latch_ s = latch_free -> startable s ->
  dirty_ok s (SplitInsert fuel key value s).
Proof.
  intros Hl Hs. unfold SplitInsert.
  destruct (MAX_BUCKET_DEPTH <=? Dir.GetLocalDepth (dir_page (booted s))
              (KeyToDirectoryIndex key (dir_page (booted s)))) eqn:Hmax.
  - destruct (SplitInsert_full s (Insert fuel) key value Hl Hs Hmax) as (s' & -> & Hpost).
    eapply post_dirty_ok; [exact Hpost|done..].
  - destruct (SplitInsert_split s (Insert fuel) key value Hl Hs Hmax) as (s' & Hrun & Hd & Hm).
    destruct (fst (reinsert_map _ _ _ _ _ _)).
    + destruct Hrun as [-> Hpost].
      destruct fuel as [|fuel]; [by intros []|].
      rewrite Insert_blocked by (by destruct Hpost as (_ & _ & _ & _ & _ & -> & _)).
      intros _. cbn. eexists. split; [apply Hpost|]. split; [|apply Hpost].
      destruct Hpost as (Hid & _ & _ & _ & _ & _ & _).
      unfold changes_dirty. rewrite Hid, Hd, Hm.
      destruct (boot_changes s) as [Hbd Hbb]. cbn. split.
      * intros _. unfold split_events. elems. tauto.
      * intros p Hne. unfold split_events.
        destruct (decide (p = next_page_id (booted s))) as [->|Hip];
          [cbn; elems; tauto|].
        destruct (decide (p = split_page key (dir_page (booted s)))) as [->|Hsp];
          [cbn; elems; tauto|].
        elems.
        rewrite reinsert_map_frame in Hne by done.
        rewrite bucket_at_delete_ne, bucket_at_insert_ne in Hne by done.
        pose proof (Hbb p Hne). tauto.
    + rewrite Hrun. by intros [].
Qed.

Lemma Insert_dirty s fuel key value :
  table_latch_ s = latch_free -> startable s ->
  dirty_ok s (Insert fuel key value s).
Proof.
  intros Hl Hs. destruct fuel as [|fuel]; [by intros []|].
  destruct (Bucket.IsFull (bucket_at (buckets (booted s))
              (KeyToPageId key (dir_page (booted s))))) eqn:Hf.
  - destruct (Insert_full s fuel key value Hl Hs Hf) as (s1 & -> & Hpost).
    eapply dirty_ok_after; [done|exact Hpost|done|done|].
    apply SplitInsert_dirty.
    + by eapply post_latch_free.
    + left. by eapply post_attached.
  - destruct (Insert_fast s fuel key value Hl Hs Hf) as (s' & -> & Hpost).
    eapply post_dirty_ok; [exact Hpost|done|].
    intros p ->%insert_changes. left. rewrite !elem_of_cons. tauto.
Qed.

Lemma Merge_dirty s (t : N) :
  table_latch_ s = latch_free -> startable s -> dirty_ok s (Merge t s).
Proof.
  intros Hl Hs.
  destruct (merge_skips (dir_page (booted s)) (buckets (booted s)) t) eqn:Hskip.
  - destruct (Merge_skip s t Hl Hs Hskip) as (s' & -> & Hpost).
    eapply post_dirty_ok; [exact Hpost|done..].
  - pose proof (Merge_merge s t Hl Hs Hskip) as Hrun. cbv zeta in Hrun.
    destruct (_ && _).
    + destruct Hrun as (s' & -> & Hpost).
      eapply post_dirty_ok; [exact Hpost| |].
      * intros _. unfold merge_events. rewrite !elem_of_cons. tauto.
      * intros p ->%delete_changes. right. unfold merge_events.
        rewrite !elem_of_cons. tauto.
    + destruct Hrun as (s' & ->). by intros [].
Qed.

Lemma bind_ret_dirty {A B} s (m : M K V A) (b : B) :
  dirty_ok s (m s) -> dirty_ok s (bind m (fun _ => ret b) s).
Proof. unfold bind, ret. by destruct (m s). Qed.

Lemma Remove_dirty s key value :
  table_latch_ s = latch_free -> startable s -> dirty_ok s (Remove key value s).
Proof.
  intros Hl Hs. destruct (Remove_run s key value Hl Hs) as (s1 & Hpost & ->).
  assert (Hb : ∀ p, bucket_at (<[KeyToPageId key (dir_page (booted s)) :=
                snd (Bucket.Remove key value (bucket_at (buckets (booted s))
                       (KeyToPageId key (dir_page (booted s)))))]> (buckets (booted s))) p
             ≠ bucket_at (buckets (booted s)) p ->
             EvUnpinPage p true ∈ remove_events (directory_page_id_ (booted s))
                                    (KeyToPageId key (dir_page (booted s)))
             ∨ EvDeletePage p ∈ remove_events (directory_page_id_ (booted s))
                                    (KeyToPageId key (dir_page (booted s)))).
  { intros p ->%insert_changes. left. unfold remove_events. rewrite !elem_of_cons. tauto. }
  destruct (Bucket.IsEmpty _).
  - eapply dirty_ok_after; [done|exact Hpost|done|exact Hb|].
    apply bind_ret_dirty, Merge_dirty.
    + by eapply post_latch_free.
    + left. by eapply post_attached.
  - eapply post_dirty_ok; [exact Hpost|done|exact Hb].
Qed.

(** ** The split *)

Lemma KeyToDirectoryIndex_lt key d : KeyToDirectoryIndex key d < Dir.Size d.
Proof. apply KeyIndex_lt. Qed.


(** A full bucket below the maximal depth: [Insert] splits and then waits
    for ever on the table latch that [SplitInsert] still holds, or stops on
    an assertion of the split. *)
Lemma Insert_split_outcome s fuel key value :
  table_latch_ s = latch_free -> startable s ->
  let d := dir_page (booted s) in
  Bucket.IsFull (bucket_at (buckets (booted s)) (KeyToPageId key d)) = true ->
  (MAX_BUCKET_DEPTH <=? Dir.GetLocalDepth d (KeyToDirectoryIndex key d)) = false ->
  ∃ s', dir_page s' = split_dir key (next_page_id (booted s)) d
        ∧ (Insert (S fuel) key value s = AssertFail s'
           ∨ (table_latch_ s' = mkLatch 0 true
              ∧ (∀ p, pin_count s' p = pin_count s p)
              ∧ Insert (S fuel) key value s
                = match fuel with O => OutOfFuel s' | S _ => Blocked s' end)).
Proof.
  intros Hl Hs d Hf Hmax.
  destruct (Insert_full s fuel key value Hl Hs Hf) as (s1 & -> & Hpost).
  assert (Hl1 : table_latch_ s1 = latch_free) by (by eapply post_latch_free).
  assert (Ha1 : attached s1) by (by eapply post_attached).
  pose proof (booted_attached s1 Ha1) as Hb1.
  destruct Hpost as (_ & Hd1 & _ & Hpin1 & Hn1 & _ & _).
  destruct (SplitInsert_split s1 (Insert fuel) key value Hl1 (or_introl Ha1))
    as (s' & Hrun & Hd' & _).
  { rewrite Hb1, Hd1. exact Hmax. }
  rewrite Hb1, Hd1, Hn1 in Hd'. exists s'. split; [exact Hd'|].
  destruct (fst (reinsert_map _ _ _ _ _ _)).
  - right. destruct Hrun as [-> (_ & _ & _ & Hpin & _ & Hlatch & _)].
    split; [done|]. split; [intros p; by rewrite Hpin, Hpin1|].
    destruct fuel as [|fuel]; [done|].
    apply Insert_blocked. by rewrite Hlatch.
  - by left.
Qed.

Lemma Insert_split_never_returns s fuel key value :
  table_latch_ s = latch_free -> startable s ->
  let d := dir_page (booted s) in
  Bucket.IsFull (bucket_at (buckets (booted s)) (KeyToPageId key d)) = true ->
  (MAX_BUCKET_DEPTH <=? Dir.GetLocalDepth d (KeyToDirectoryIndex key d)) = false ->
  ∀ r s', Insert fuel key value s ≠ Done r s'.
Proof.
  intros Hl Hs d Hf Hmax r s'. destruct fuel as [|fuel]; [done|].
  destruct (Insert_split_outcome s fuel key value Hl Hs Hf Hmax)
    as (s'' & _ & [->|(_ & _ & ->)]); [done|by destruct fuel].
Qed.

(** ** The claims about single calls *)

(** C4. [Merge] is atomic on skip: when the local depth of the target slot is
    0, or differs from the local depth of its split image, or the target
    bucket is not empty, [Merge] returns and leaves the directory, every
    bucket, the pin counts and the table latch as they were; it deletes no
    page and every unpin it makes is clean. *)
Theorem C4_Merge_skip_changes_nothing s (t : N) :
  table_latch_ s = latch_free -> attached s ->
  (Dir.GetLocalDepth (dir_page s) t = 0
   ∨ Dir.GetLocalDepth (dir_page s) t
     ≠ Dir.GetLocalDepth (dir_page s) (Dir.GetSplitImageIndex (dir_page s) t)
   ∨ Bucket.IsEmpty (bucket_at (buckets s) (Dir.GetBucketPageId (dir_page s) t)) = false) ->
  ∃ s' evs,
    Merge t s = Done tt s'
    ∧ dir_page s' = dir_page s
    ∧ buckets s' = buckets s
    ∧ (∀ p, pin_count s' p = pin_count s p)
    ∧ table_latch_ s' = table_latch_ s
    ∧ trace s' = evs ++ trace s
    ∧ (∀ p, EvUnpinPage p true ∉ evs)
    ∧ (∀ p, EvDeletePage p ∉ evs).
Proof.
  intros Hl Ha Hskip.
  assert (Hb : merge_skips (dir_page (booted s)) (buckets (booted s)) t = true).
  { rewrite booted_attached by done. unfold merge_skips.
    destruct Hskip as [H0|[Hne|He]].
    - by rewrite H0.
    - apply N.eqb_neq in Hne. rewrite Hne. cbn. by rewrite orb_true_r.
    - rewrite He. cbn. by rewrite orb_true_r. }
  destruct (Merge_skip s t Hl (or_introl Ha) Hb) as (s' & Hrun & Hpost).
  rewrite booted_attached in Hpost by done.
  destruct Hpost as (_ & Hd & Hm & Hpin & _ & Hlatch & Htr).
  exists s'. eexists. repeat split; try done.
  - intros p. unfold merge_skip_events, boot_events.
    destruct Ha as [Ha%Z.eqb_neq _]. rewrite Ha.
    destruct (_ || _); cbn; not_in.
  - intros p. unfold merge_skip_events, boot_events.
    destruct Ha as [Ha%Z.eqb_neq _]. rewrite Ha.
    destruct (_ || _); cbn; not_in.
Qed.


(** C9. No pin leak: every call of the table that returns, or that blocks
    on the table latch, leaves the pin count of every page as it found it,
    and in the calls it made on the buffer pool every page fetched or
    allocated is unpinned exactly as often. *)
Theorem C9_no_pin_leak s :
  table_latch_ s = latch_free -> startable s ->
  (∀ key, pins_balanced s (GetValue key s))
  ∧ (∀ fuel key value, pins_balanced s (Insert fuel key value s))
  ∧ (∀ fuel key value, pins_balanced s (SplitInsert fuel key value s))
  ∧ (∀ key value, pins_balanced s (Remove key value s))
  ∧ (∀ t, pins_balanced s (Merge t s))
  ∧ pins_balanced s (GetGlobalDepth s)
  ∧ pins_balanced s (VerifyIntegrity s).
Proof.
  intros Hl Hs. split; [|split; [|split; [|split; [|split; [|split]]]]].
  - intros. by apply GetValue_pins.
  - intros. by apply Insert_pins.
  - intros. by apply SplitInsert_pins.
  - intros. by apply Remove_pins.
  - intros. by apply Merge_pins.
  - destruct (GetGlobalDepth_Done s Hl Hs) as (s' & -> & Hpost).
    eapply post_pins_balanced; [exact Hpost|]. balance.
  - pose proof (VerifyIntegrity_run s Hl Hs) as Hrun. cbv zeta in Hrun.
    destruct (Dir.VerifyIntegrity _).
    + destruct Hrun as (s' & -> & Hpost).
      eapply post_pins_balanced; [exact Hpost|]. balance.
    + destruct Hrun as (s' & ->). by intros [].
Qed.

(** C5 (as amended).  Dirty-flag discipline, one direction only: in
    [GetValue], [Insert], [SplitInsert], [Remove] and [Merge], whenever the
    call returns or blocks on the table latch, the directory page, if its
    content changed, was unpinned with the dirty flag set, and every bucket
    page whose content changed was unpinned with the dirty flag set (or is
    the page [Merge] deleted).  The converse does not hold: the fast path of
    [Insert] and [Remove] unpin the bucket page with the dirty flag set
    whether or not a pair was inserted or removed. *)
Theorem C5_changed_pages_are_unpinned_dirty s :
  table_latch_ s = latch_free -> startable s ->
  (∀ key, dirty_ok s (GetValue key s))
  ∧ (∀ fuel key value, dirty_ok s (Insert fuel key value s))
  ∧ (∀ fuel key value, dirty_ok s (SplitInsert fuel key value s))
  ∧ (∀ key value, dirty_ok s (Remove key value s))
  ∧ (∀ t, dirty_ok s (Merge t s))
  ∧ (∀ fuel key value,
       let p := KeyToPageId key (dir_page (booted s)) in
       let b := bucket_at (buckets (booted s)) p in
       Bucket.IsFull b = false ->
       ∃ s' evs, Insert (S fuel) key value s = Done (fst (Bucket.Insert key value b)) s'
                 ∧ trace s' = evs ++ trace s
                 ∧ EvUnpinPage p true ∈ evs)
  ∧ (∀ key value,
       let p := KeyToPageId key (dir_page (booted s)) in
       settled (Remove key value s) ->
       ∃ evs, trace (state_of (Remove key value s)) = evs ++ trace s
              ∧ EvUnpinPage p true ∈ evs).
Proof.
  intros Hl Hs. split; [|split; [|split; [|split; [|split; [|split]]]]].
  - intros. by apply GetValue_dirty.
  - intros. by apply Insert_dirty.
  - intros. by apply SplitInsert_dirty.
  - intros. by apply Remove_dirty.
  - intros. by apply Merge_dirty.
  - intros fuel key value p b Hf.
    destruct (Insert_fast s fuel key value Hl Hs Hf) as (s' & Hrun & Hpost).
    exists s'. eexists. split; [exact Hrun|]. split; [apply Hpost|].
    elems. tauto.
  - intros key value p.
    destruct (Remove_run s key value Hl Hs) as (s1 & Hpost & ->).
    assert (Hl1 : table_latch_ s1 = latch_free) by (by eapply post_latch_free).
    assert (Hs1 : startable s1) by (left; by eapply post_attached).
    destruct Hpost as (_ & _ & _ & _ & _ & _ & Htr).
    destruct (Bucket.IsEmpty _).
    + intros Hset.
      destruct (bind_ret_pins s1 _ (fst (Bucket.Remove key value
                  (bucket_at (buckets (booted s)) p)))
                  (Merge_pins s1 _ Hl1 Hs1) Hset) as (_ & evs & Htr' & _).
      eexists. split; [etrans; [exact Htr'|]; rewrite Htr; apply app_assoc|].
      unfold remove_events. elems. tauto.
    + intros _. eexists. split; [exact Htr|]. unfold remove_events. elems. tauto.
Qed.


End Facts.

(** * The layout of the directory *)

(** ** Slots that agree on their low bits *)

Section Bits.

Implicit Types (x y z t n m k : N).

Lemma mask_ones n : N.shiftl 1 n - 1 = N.ones n.
Proof. by rewrite N.ones_equiv, N.shiftl_1_l, N.sub_1_r. Qed.

Lemma agree_testbit n x y :
  N.land x (N.ones n) = N.land y (N.ones n)
  <-> ∀ k, k < n -> N.testbit x k = N.testbit y k.
Proof.
  split.
  - intros H k Hk.
    assert (Hb : N.testbit (N.land x (N.ones n)) k = N.testbit (N.land y (N.ones n)) k)
      by (by rewrite H).
    rewrite !N.land_spec, N.ones_spec_low in Hb by done.
    by rewrite !andb_true_r in Hb.
  - intros H. apply N.bits_inj. intros k. rewrite !N.land_spec.
    destruct (N.lt_ge_cases k n) as [Hk|Hk].
    + by rewrite (H k Hk).
    + rewrite N.ones_spec_high by done. by rewrite !andb_false_r.
Qed.

Lemma agree_le n m x y :
  m <= n -> N.land x (N.ones n) = N.land y (N.ones n) ->
  N.land x (N.ones m) = N.land y (N.ones m).
Proof. rewrite !agree_testbit. intros Hm H k Hk. apply H. lia. Qed.

Lemma lt_pow2_testbit n x : x < 2 ^ n <-> ∀ k, n <= k -> N.testbit x k = false.
Proof.
  split.
  - intros Hx k Hk. destruct (N.eq_dec x 0) as [->|Hx0]; [apply N.bits_0|].
    apply N.bits_above_log2. apply N.log2_lt_pow2 in Hx; lia.
  - intros H. destruct (N.eq_dec x 0) as [->|Hx0].
    + apply N.neq_0_lt_0, N.pow_nonzero. lia.
    + apply N.log2_lt_pow2; [lia|].
      destruct (N.lt_ge_cases (N.log2 x) n) as [Hl|Hl]; [done|].
      pose proof (N.bit_log2 x Hx0) as Hb. rewrite (H _ Hl) in Hb. discriminate Hb.
Qed.

Lemma land_ones_lt x n : N.land x (N.ones n) < 2 ^ n.
Proof. rewrite N.land_ones. apply N.mod_lt, N.pow_nonzero. lia. Qed.

Lemma agree_land_ones x n :
  N.land (N.land x (N.ones n)) (N.ones n) = N.land x (N.ones n).
Proof. by rewrite <- N.land_assoc, N.land_diag. Qed.

Lemma agree_eq n x y :
  x < 2 ^ n -> y < 2 ^ n ->
  N.land x (N.ones n) = N.land y (N.ones n) -> x = y.
Proof.
  intros Hx Hy. rewrite !N.land_ones, !N.mod_small by done. done.
Qed.

(** The split image differs from the slot on bit [n - 1] only. *)
Lemma testbit_image t n k :
  1 <= n ->
  N.testbit (N.lxor t (N.shiftl 1 (n - 1))) k
  = if N.eqb k (n - 1) then negb (N.testbit t k) else N.testbit t k.
Proof.
  intros Hn. rewrite N.lxor_spec, N.shiftl_1_l, N.pow2_bits_eqb.
  rewrite (N.eqb_sym (n - 1) k).
  destruct (N.eqb k (n - 1)); [by rewrite xorb_true_r|by rewrite xorb_false_r].
Qed.

Lemma image_lt t n g :
  1 <= n -> n <= g -> t < 2 ^ g -> N.lxor t (N.shiftl 1 (n - 1)) < 2 ^ g.
Proof.
  intros Hn Hg Ht. apply lt_pow2_testbit. intros k Hk.
  rewrite testbit_image by done.
  destruct (N.eqb_spec k (n - 1)); [lia|].
  by apply (proj1 (lt_pow2_testbit g t)).
Qed.

Lemma image_not_agree t n :
  1 <= n ->
  N.land (N.lxor t (N.shiftl 1 (n - 1))) (N.ones n) ≠ N.land t (N.ones n).
Proof.
  intros Hn H. rewrite agree_testbit in H.
  specialize (H (n - 1)). rewrite testbit_image, N.eqb_refl in H by done.
  assert (Hlt : n - 1 < n) by lia. specialize (H Hlt).
  by destruct (N.testbit t (n - 1)).
Qed.

(** Agreeing on [n - 1] bits is agreeing on [n] bits with the slot or with
    its split image. *)
Lemma agree_split t n x :
  1 <= n ->
  N.land x (N.ones (n - 1)) = N.land t (N.ones (n - 1))
  <-> N.land x (N.ones n) = N.land t (N.ones n)
      ∨ N.land x (N.ones n) = N.land (N.lxor t (N.shiftl 1 (n - 1))) (N.ones n).
Proof.
  intros Hn. rewrite !agree_testbit. split.
  - intros H. destruct (Bool.bool_dec (N.testbit x (n - 1)) (N.testbit t (n - 1))) as [Hb|Hb].
    + left. intros k Hk. destruct (N.eq_dec k (n - 1)) as [->|Hne]; [done|].
      apply H. lia.
    + right. intros k Hk. rewrite testbit_image by done.
      destruct (N.eqb_spec k (n - 1)) as [->|Hne].
      * destruct (N.testbit x (n - 1)), (N.testbit t (n - 1)); done.
      * apply H. lia.
  - intros [H|H] k Hk.
    + apply H. lia.
    + rewrite H by lia. rewrite testbit_image by done.
      destruct (N.eqb_spec k (n - 1)); [lia|done].
Qed.

End Bits.

(** ** Aligned directories *)

Section Aligned.

Implicit Types (d : Dir.directory) (i j x t h : N) (p : Z).

Lemma elem_of_slots d i : i ∈ Dir.slots d <-> i < Dir.Size d.
Proof.
  unfold Dir.slots. rewrite list_elem_of_fmap. split.
  - intros (n & -> & Hn). apply elem_of_seq in Hn. lia.
  - intros Hi. exists (N.to_nat i). split; [by rewrite N2Nat.id|].
    apply elem_of_seq. lia.
Qed.

Lemma forallb_slots (f : N -> bool) d :
  forallb f (Dir.slots d) = true <-> ∀ i, i < Dir.Size d -> f i = true.
Proof.
  rewrite forallb_forall. split.
  - intros H i Hi. apply H, list_elem_of_In, elem_of_slots, Hi.
  - intros H i Hi. apply H, elem_of_slots, list_elem_of_In, Hi.
Qed.

Lemma aligned_at_spec d i j :
  aligned_at d i j = true
  <-> (Dir.GetBucketPageId d j = Dir.GetBucketPageId d i
       <-> N.land j (N.ones (Dir.GetLocalDepth d i))
           = N.land i (N.ones (Dir.GetLocalDepth d i)))
      ∧ (N.land j (N.ones (Dir.GetLocalDepth d i))
         = N.land i (N.ones (Dir.GetLocalDepth d i))
         -> Dir.GetLocalDepth d j = Dir.GetLocalDepth d i).
Proof.
  unfold aligned_at, Dir.GetLocalDepthMask. cbv zeta. rewrite mask_ones.
  rewrite andb_true_iff, Bool.eqb_true_iff.
  destruct (N.eqb_spec (N.land j (N.ones (Dir.GetLocalDepth d i)))
                       (N.land i (N.ones (Dir.GetLocalDepth d i)))) as [E|E];
    cbn; rewrite ?Z.eqb_eq, ?Z.eqb_neq, ?N.eqb_eq; intuition congruence.
Qed.

Lemma aligned_spec d : aligned d = true <-> dir_wf d.
Proof.
  unfold aligned, dir_wf, well_sized.
  rewrite !andb_true_iff, !Nat.eqb_eq, forallb_slots.
  apply and_iff_compat_l. split.
  - intros H i Hi. specialize (H i Hi). apply andb_true_iff in H as [H1 H2].
    split; [by apply N.leb_le|].
    intros j Hj. apply aligned_at_spec. by apply (proj1 (forallb_slots _ _) H2).
  - intros H i Hi. destruct (H i Hi) as [H1 H2]. apply andb_true_iff. split.
    + by apply N.leb_le.
    + apply forallb_slots. intros j Hj. apply aligned_at_spec. by apply H2.
Qed.

Lemma Size_pow d : Dir.Size d = 2 ^ Dir.GetGlobalDepth d.
Proof. unfold Dir.Size, Dir.GetGlobalDepth. by rewrite N.shiftl_1_l. Qed.

Lemma GlobalDepthMask_ones d : Dir.GetGlobalDepthMask d = N.ones (Dir.GetGlobalDepth d).
Proof. unfold Dir.GetGlobalDepthMask, Dir.GetGlobalDepth. apply mask_ones. Qed.

(** *** What [set_slot] writes *)

Lemma GetBucketPageId_set_slot d i p idx x :
  well_sized d -> i < Dir.Size d ->
  Dir.GetBucketPageId (set_slot d i p idx) x
  = if decide (i = x) then p else Dir.GetBucketPageId d x.
Proof.
  intros [_ Hw] Hi. unfold set_slot. cbv zeta.
  rewrite GetBucketPageId_SetLocalDepth, GetBucketPageId_SetBucketPageId.
  repeat case_decide; try done; exfalso; intuition lia.
Qed.

Lemma GetLocalDepth_set_slot d i p idx x :
  well_sized d -> i < Dir.Size d ->
  Dir.GetLocalDepth (set_slot d i p idx) x
  = if decide (i = x) then Dir.GetLocalDepth d idx else Dir.GetLocalDepth d x.
Proof.
  intros [Hw _] Hi. unfold set_slot. cbv zeta.
  rewrite GetLocalDepth_SetLocalDepth, !GetLocalDepth_SetBucketPageId.
  change (Dir.local_depths_ (Dir.SetBucketPageId d i p)) with (Dir.local_depths_ d).
  repeat case_decide; try done; exfalso; intuition lia.
Qed.

(** *** The loop of [Merge] *)

Lemma merge_loop_spec tp ip t fuel : ∀ i d,
  well_sized d -> (N.to_nat (Dir.Size d) <= fuel + N.to_nat i)%nat ->
  let d' := merge_loop fuel i tp ip t d in
  let hit x := (Dir.GetBucketPageId d x =? tp)%Z || (Dir.GetBucketPageId d x =? ip)%Z in
  well_sized d' ∧ Dir.GetGlobalDepth d' = Dir.GetGlobalDepth d
  ∧ ∀ x, x < Dir.Size d ->
      Dir.GetBucketPageId d' x
      = (if (i <=? x) && hit x then ip else Dir.GetBucketPageId d x)
      ∧ Dir.GetLocalDepth d' x
        = (if (i <=? x) && hit x then Dir.GetLocalDepth d t else Dir.GetLocalDepth d x).
Proof.
  induction fuel as [|fuel IH]; intros i d Hw Hf; cbv zeta.
  - cbn. split; [done|]. split; [done|]. intros x Hx.
    destruct (N.leb_spec i x); [lia|done].
  - unfold merge_loop; fold merge_loop.
    destruct (N.ltb_spec i (Dir.Size d)) as [Hi|Hi].
    2:{ split; [done|]. split; [done|]. intros x Hx.
        destruct (N.leb_spec i x); [lia|done]. }
    set (hit := fun x => (Dir.GetBucketPageId d x =? tp)%Z
                         || (Dir.GetBucketPageId d x =? ip)%Z).
    change ((Dir.GetBucketPageId d i =? tp)%Z || (Dir.GetBucketPageId d i =? ip)%Z)
      with (hit i).
    set (d1 := if hit i then set_slot d i ip t else d).
    assert (Hw1 : well_sized d1).
    { subst d1. destruct (hit i); [by apply well_sized_set_slot|done]. }
    assert (Hs1 : Dir.Size d1 = Dir.Size d).
    { subst d1. by destruct (hit i). }
    assert (Hg1 : Dir.GetGlobalDepth d1 = Dir.GetGlobalDepth d).
    { subst d1. by destruct (hit i). }
    assert (Hp1 : ∀ x, Dir.GetBucketPageId d1 x
                       = if decide (i = x) then (if hit i then ip else Dir.GetBucketPageId d x)
                         else Dir.GetBucketPageId d x).
    { intros x. subst d1. destruct (hit i).
      - by rewrite GetBucketPageId_set_slot.
      - by case_decide. }
    assert (Hl1 : ∀ x, Dir.GetLocalDepth d1 x
                       = if decide (i = x) then (if hit i then Dir.GetLocalDepth d t
                                                 else Dir.GetLocalDepth d x)
                         else Dir.GetLocalDepth d x).
    { intros x. subst d1. destruct (hit i).
      - by rewrite GetLocalDepth_set_slot.
      - by case_decide. }
    assert (Ht1 : Dir.GetLocalDepth d1 t = Dir.GetLocalDepth d t).
    { rewrite Hl1. case_decide; [|done]. by destruct (hit i). }
    destruct (IH (i + 1) d1 Hw1) as (Hw' & Hg' & Hx'); [rewrite Hs1; lia|].
    split; [done|]. split; [congruence|].
    intros x Hx. rewrite <- Hs1 in Hx. destruct (Hx' x Hx) as [Ep El].
    rewrite Ep, El, Ht1, !Hp1, Hl1. fold (hit x).
    destruct (decide (i = x)) as [->|Hne].
    + destruct (N.leb_spec (x + 1) x); [lia|]. rewrite N.leb_refl. cbn.
      by destruct (hit x).
    + fold (hit x). destruct (N.leb_spec (i + 1) x), (N.leb_spec i x); try lia; done.
Qed.

Lemma land_ones_ones h n m :
  m <= n -> N.land (N.land h (N.ones n)) (N.ones m) = N.land h (N.ones m).
Proof.
  intros Hm. apply agree_testbit. intros k Hk.
  rewrite N.land_spec, N.ones_spec_low by lia. apply andb_true_r.
Qed.

(** *** Shrinking *)

Lemma CanShrink_depths d i :
  well_sized d -> Dir.CanShrink d = true -> i < Dir.Size d ->
  Dir.GetLocalDepth d i < Dir.GetGlobalDepth d.
Proof.
  intros [Hw _] Hc Hi. unfold Dir.CanShrink in Hc. rewrite forallb_forall in Hc.
  unfold Dir.GetLocalDepth.
  destruct (Dir.local_depths_ d !! N.to_nat i) as [n|] eqn:E.
  - cbn. apply N.ltb_lt, Hc, list_elem_of_In, list_elem_of_lookup. eauto.
  - apply lookup_ge_None in E. lia.
Qed.

Lemma GetBucketPageId_DecrGlobalDepth d i :
  i < Dir.Size (Dir.DecrGlobalDepth d) ->
  Dir.GetBucketPageId (Dir.DecrGlobalDepth d) i = Dir.GetBucketPageId d i.
Proof.
  unfold Dir.Size, Dir.GetBucketPageId, Dir.DecrGlobalDepth. cbn. intros Hi.
  rewrite lookup_take_lt; [done|lia].
Qed.

Lemma GetLocalDepth_DecrGlobalDepth d i :
  i < Dir.Size (Dir.DecrGlobalDepth d) ->
  Dir.GetLocalDepth (Dir.DecrGlobalDepth d) i = Dir.GetLocalDepth d i.
Proof.
  unfold Dir.Size, Dir.GetLocalDepth, Dir.DecrGlobalDepth. cbn. intros Hi.
  rewrite lookup_take_lt; [done|lia].
Qed.

Lemma dir_wf_DecrGlobalDepth d :
  dir_wf d -> Dir.CanShrink d = true ->
  dir_wf (Dir.DecrGlobalDepth d) ∧ ∀ h, route h (Dir.DecrGlobalDepth d) = route h d.
Proof.
  intros [Hw Hd] Hc.
  pose proof (CanShrink_depths d 0 Hw Hc (Size_pos d)) as Hg.
  assert (Hgd : Dir.GetGlobalDepth (Dir.DecrGlobalDepth d) = Dir.GetGlobalDepth d - 1)
    by reflexivity.
  assert (Hsz : Dir.Size (Dir.DecrGlobalDepth d) < Dir.Size d).
  { rewrite !Size_pow, Hgd. apply N.pow_lt_mono_r; lia. }
  split; [split|].
  - destruct Hw as [H1 H2]. unfold well_sized.
    rewrite (Size_pow (Dir.DecrGlobalDepth d)), Hgd in *.
    rewrite Size_pow in H1, H2, Hsz.
    unfold Dir.DecrGlobalDepth, Dir.GetGlobalDepth in *. cbn.
    rewrite !length_take, N.shiftl_1_l. lia.
  - intros i Hi.
    pose proof (CanShrink_depths d i Hw Hc ltac:(lia)) as Hli.
    destruct (Hd i ltac:(lia)) as [_ Hj].
    rewrite GetLocalDepth_DecrGlobalDepth by done. split; [lia|].
    intros j Hj'. rewrite !GetBucketPageId_DecrGlobalDepth by done.
    rewrite GetLocalDepth_DecrGlobalDepth by done. apply Hj. lia.
  - intros h. unfold route. rewrite !GlobalDepthMask_ones, Hgd.
    set (x := N.land h (N.ones (Dir.GetGlobalDepth d))).
    set (x' := N.land h (N.ones (Dir.GetGlobalDepth d - 1))).
    assert (Hx : x < Dir.Size d) by (rewrite Size_pow; apply land_ones_lt).
    assert (Hx' : x' < Dir.Size (Dir.DecrGlobalDepth d)).
    { rewrite Size_pow, Hgd. apply land_ones_lt. }
    rewrite GetBucketPageId_DecrGlobalDepth by done.
    pose proof (CanShrink_depths d x Hw Hc Hx) as Hlx.
    destruct (Hd x Hx) as [_ Hj]. apply (Hj x' ltac:(lia)).
    apply (agree_le (Dir.GetGlobalDepth d - 1)); [lia|].
    subst x x'. rewrite agree_land_ones. by rewrite land_ones_ones by lia.
Qed.

Lemma shrink_loop_spec fuel : ∀ d,
  dir_wf d ->
  dir_wf (shrink_loop fuel d) ∧ ∀ h, route h (shrink_loop fuel d) = route h d.
Proof.
  induction fuel as [|fuel IH]; intros d Hd; unfold shrink_loop; fold shrink_loop;
    [done|].
  destruct (Dir.CanShrink d) eqn:Hc; [|done].
  destruct (dir_wf_DecrGlobalDepth d Hd Hc) as [Hd' Hr].
  destruct (IH _ Hd') as [Hd'' Hr']. split; [done|].
  intros h. by rewrite Hr', Hr.
Qed.

(** *** Merging a slot into its split image *)

Lemma GetLocalDepth_DecrLocalDepth d i x :
  well_sized d -> i < Dir.Size d ->
  Dir.GetLocalDepth (Dir.DecrLocalDepth d i) x
  = if decide (i = x) then Dir.GetLocalDepth d i - 1 else Dir.GetLocalDepth d x.
Proof.
  intros [Hw _] Hi. unfold Dir.DecrLocalDepth. rewrite GetLocalDepth_SetLocalDepth.
  repeat case_decide; try done; exfalso; intuition lia.
Qed.

Lemma GetSplitImageIndex_lt d t :
  dir_wf d -> t < Dir.Size d -> Dir.GetLocalDepth d t ≠ 0 ->
  Dir.GetSplitImageIndex d t < Dir.Size d.
Proof.
  intros [_ Hd] Ht H0. destruct (Hd t Ht) as [Hl _].
  rewrite Size_pow in *. unfold Dir.GetSplitImageIndex.
  apply (image_lt _ (Dir.GetLocalDepth d t)); [lia|done|done].
Qed.

(** The directory after the loop of [Merge], slot by slot: the slots that
    agree with [t] on one bit less than its depth are on the page of the
    split image, one level up; the others are as before. *)
Lemma merge_loop_slots d t :
  dir_wf d -> t < Dir.Size d -> Dir.GetLocalDepth d t ≠ 0 ->
  Dir.GetLocalDepth d (Dir.GetSplitImageIndex d t) = Dir.GetLocalDepth d t ->
  let tp := Dir.GetBucketPageId d t in
  let image := Dir.GetSplitImageIndex d t in
  let ip := Dir.GetBucketPageId d image in
  let d3 := Dir.DecrLocalDepth
              (Dir.DecrLocalDepth (Dir.SetBucketPageId d t ip) t) image in
  let d4 := merge_loop (N.to_nat (Dir.Size d3)) 0 tp ip t d3 in
  let n := Dir.GetLocalDepth d t - 1 in
  well_sized d4 ∧ Dir.GetGlobalDepth d4 = Dir.GetGlobalDepth d
  ∧ ∀ x, x < Dir.Size d ->
      (N.land x (N.ones n) = N.land t (N.ones n) ->
       Dir.GetBucketPageId d4 x = ip ∧ Dir.GetLocalDepth d4 x = n
       ∧ (Dir.GetBucketPageId d x = tp ∨ Dir.GetBucketPageId d x = ip))
      ∧ (N.land x (N.ones n) ≠ N.land t (N.ones n) ->
         Dir.GetBucketPageId d4 x = Dir.GetBucketPageId d x
         ∧ Dir.GetLocalDepth d4 x = Dir.GetLocalDepth d x
         ∧ Dir.GetBucketPageId d x ≠ tp ∧ Dir.GetBucketPageId d x ≠ ip).
Proof.
  intros Hwf Ht H0 Heq tp image ip d3 d4 n.
  pose proof (GetSplitImageIndex_lt d t Hwf Ht H0) as Him. fold image in Him, Heq.
  destruct Hwf as [Hw Hd].
  assert (Hne : t ≠ image).
  { intros E. apply (image_not_agree t (Dir.GetLocalDepth d t)); [lia|].
    unfold image, Dir.GetSplitImageIndex in E. by rewrite <- E. }
  (* the class of [t] one level up *)
  assert (Hclass : ∀ x, x < Dir.Size d ->
            (Dir.GetBucketPageId d x = tp ∨ Dir.GetBucketPageId d x = ip)
            <-> N.land x (N.ones n) = N.land t (N.ones n)).
  { intros x Hx. subst n. rewrite agree_split by lia.
    destruct (Hd t Ht) as [_ Hjt]. destruct (Hd image Him) as [_ Hji].
    rewrite Heq in Hji. fold tp in Hjt. fold ip in Hji.
    rewrite (proj1 (Hjt x Hx)), (proj1 (Hji x Hx)). reflexivity. }
  (* the directory the loop starts from *)
  set (d2 := Dir.SetBucketPageId d t ip) in *.
  assert (Hw2 : well_sized d2) by (by apply well_sized_SetBucketPageId).
  assert (Hw2' : well_sized (Dir.DecrLocalDepth d2 t))
    by (by apply well_sized_SetLocalDepth).
  assert (Hw3 : well_sized d3) by (by apply well_sized_SetLocalDepth).
  assert (Hs3 : Dir.Size d3 = Dir.Size d) by reflexivity.
  assert (Hp3 : ∀ x, Dir.GetBucketPageId d3 x
                     = if decide (t = x) then ip else Dir.GetBucketPageId d x).
  { intros x. subst d3 d2. unfold Dir.DecrLocalDepth.
    rewrite !GetBucketPageId_SetLocalDepth, GetBucketPageId_SetBucketPageId.
    destruct Hw as [_ Hw]. repeat case_decide; try done; exfalso; intuition lia. }
  assert (Hl3 : ∀ x, Dir.GetLocalDepth d3 x
                     = if decide (x = t ∨ x = image) then n
                       else Dir.GetLocalDepth d x).
  { intros x. subst d3. rewrite !GetLocalDepth_DecrLocalDepth by done.
    subst d2. rewrite !GetLocalDepth_SetBucketPageId. subst n.
    repeat case_decide; try done; try (exfalso; intuition congruence).
    all: subst; congruence. }
  destruct (merge_loop_spec tp ip t (N.to_nat (Dir.Size d3)) 0 d3 Hw3 ltac:(lia))
    as (Hw4 & Hg4 & Hx4).
  fold d4 in Hw4, Hg4, Hx4.
  split; [done|]. split; [done|].
  intros x Hx. rewrite <- Hs3 in Hx. destruct (Hx4 x Hx) as [Ep El]. rewrite Hs3 in Hx.
  rewrite Ep, El, (proj2 (N.leb_le 0 x) (N.le_0_l x)), !Hp3, !Hl3. cbn [andb].
  rewrite (decide_True _ _ (or_introl eq_refl)).
  pose proof (Hclass x Hx) as Hc.
  split.
  - intros Hcx. pose proof (proj2 Hc Hcx) as Hpx.
    destruct (decide (t = x)) as [->|Hxt].
    + rewrite Z.eqb_refl, orb_true_r. tauto.
    + destruct Hpx as [E|E]; rewrite E, ?Z.eqb_refl, ?orb_true_r; cbn; tauto.
  - intros Hcx.
    assert (Hpx : Dir.GetBucketPageId d x ≠ tp ∧ Dir.GetBucketPageId d x ≠ ip) by tauto.
    destruct Hpx as [H1 H2].
    assert (Hxt : t ≠ x) by (intros ->; by apply H1).
    assert (Hxi : x ≠ image) by (intros ->; by apply H2).
    rewrite decide_False by done.
    rewrite (proj2 (Z.eqb_neq _ _) H1), (proj2 (Z.eqb_neq _ _) H2). cbn.
    rewrite decide_False by (intros [?|?]; congruence). done.
Qed.

(** Merging keeps the directory aligned, and every hash value that was
    not routed to the deleted page is routed where it was. *)
Lemma merge_dir_spec d t :
  dir_wf d -> t < Dir.Size d -> Dir.GetLocalDepth d t ≠ 0 ->
  Dir.GetLocalDepth d (Dir.GetSplitImageIndex d t) = Dir.GetLocalDepth d t ->
  dir_wf (merge_dir t d)
  ∧ ∀ h, route h d ≠ Dir.GetBucketPageId d t -> route h (merge_dir t d) = route h d.
Proof.
  intros Hwf Ht H0 Heq.
  destruct (merge_loop_slots d t Hwf Ht H0 Heq) as (Hw4 & Hg4 & Hx4).
  unfold merge_dir. cbv zeta.
  set (tp := Dir.GetBucketPageId d t) in *.
  set (image := Dir.GetSplitImageIndex d t) in *.
  set (ip := Dir.GetBucketPageId d image) in *.
  set (d3 := Dir.DecrLocalDepth _ image) in *.
  set (d4 := merge_loop _ 0 tp ip t d3) in *.
  set (n := Dir.GetLocalDepth d t - 1) in *.
  assert (Hs4 : Dir.Size d4 = Dir.Size d) by (by rewrite !Size_pow, Hg4).
  assert (Hwf4 : dir_wf d4).
  { split; [done|]. rewrite Hs4, Hg4. destruct Hwf as [Hw Hd]. intros i Hi.
    destruct (Hd i Hi) as [Hli Hji]. destruct (Hd t Ht) as [Hlt _].
    destruct (Hx4 i Hi) as [Hin Hout].
    destruct (N.eq_dec (N.land i (N.ones n)) (N.land t (N.ones n))) as [Ci|Ci].
    - destruct (Hin Ci) as (Epi & Eli & _). rewrite Epi, Eli.
      split; [lia|]. intros j Hj. destruct (Hx4 j Hj) as [Hjn Hjo].
      destruct (N.eq_dec (N.land j (N.ones n)) (N.land t (N.ones n))) as [Cj|Cj].
      + destruct (Hjn Cj) as (Epj & Elj & _). rewrite Epj, Elj.
        split; [|done]. split; [congruence|done].
      + destruct (Hjo Cj) as (Epj & Elj & _ & Hnip). rewrite Epj, Elj.
        split; [split|]; intros E; exfalso; congruence.
    - destruct (Hout Ci) as (Epi & Eli & Hntp & Hnip). rewrite Epi, Eli.
      split; [done|]. intros j Hj. destruct (Hx4 j Hj) as [Hjn Hjo].
      destruct (Hji j Hj) as [Hpage Hdepth].
      destruct (N.eq_dec (N.land j (N.ones n)) (N.land t (N.ones n))) as [Cj|Cj].
      + destruct (Hjn Cj) as (Epj & Elj & Hor). rewrite Epj, Elj.
        split; [split|]; intros E; exfalso.
        * congruence.
        * apply Hpage in E. destruct Hor; congruence.
        * apply Hpage in E. destruct Hor; congruence.
      + destruct (Hjo Cj) as (Epj & Elj & _). by rewrite Epj, Elj. }
  destruct (shrink_loop_spec (S (N.to_nat (Dir.GetGlobalDepth d4))) d4 Hwf4)
    as [Hwf5 Hr5].
  split; [done|]. intros h Hh. rewrite Hr5. unfold route in *.
  rewrite !GlobalDepthMask_ones, Hg4 in *.
  set (x := N.land h (N.ones (Dir.GetGlobalDepth d))) in *.
  assert (Hx : x < Dir.Size d) by (rewrite Size_pow; apply land_ones_lt).
  destruct (Hx4 x Hx) as [Hin Hout].
  destruct (N.eq_dec (N.land x (N.ones n)) (N.land t (N.ones n))) as [Cx|Cx].
  - destruct (Hin Cx) as (Ep & _ & [E|E]); congruence.
  - by destruct (Hout Cx) as (Ep & _).
Qed.

(** *** Growing, and the directory a split leaves *)

Lemma lookup_IncrGlobalDepth {A} (l : list A) (n x : N) :
  length l = N.to_nat (2 ^ n) -> x < 2 * 2 ^ n ->
  (l ++ l) !! N.to_nat x = l !! N.to_nat (N.land x (N.ones n)).
Proof.
  intros Hl Hx. rewrite N.land_ones.
  destruct (N.lt_ge_cases x (2 ^ n)) as [Hlt|Hge].
  - rewrite N.mod_small by done. apply lookup_app_l. lia.
  - rewrite lookup_app_r by lia.
    rewrite <- (N.mod_unique x (2 ^ n) 1 (x - 2 ^ n)) by lia.
    f_equal. lia.
Qed.

Lemma GetBucketPageId_grown d x :
  well_sized d -> x < 2 * Dir.Size d ->
  Dir.GetBucketPageId (Dir.IncrGlobalDepth d) x
  = Dir.GetBucketPageId d (N.land x (N.ones (Dir.GetGlobalDepth d))).
Proof.
  intros [_ Hw] Hx. rewrite Size_pow in *.
  unfold Dir.GetBucketPageId, Dir.IncrGlobalDepth. cbn.
  by rewrite (lookup_IncrGlobalDepth _ (Dir.GetGlobalDepth d)).
Qed.

Lemma GetLocalDepth_grown d x :
  well_sized d -> x < 2 * Dir.Size d ->
  Dir.GetLocalDepth (Dir.IncrGlobalDepth d) x
  = Dir.GetLocalDepth d (N.land x (N.ones (Dir.GetGlobalDepth d))).
Proof.
  intros [Hw _] Hx. rewrite Size_pow in *.
  unfold Dir.GetLocalDepth, Dir.IncrGlobalDepth. cbn.
  by rewrite (lookup_IncrGlobalDepth _ (Dir.GetGlobalDepth d)).
Qed.

Lemma dir_wf_IncrGlobalDepth d : dir_wf d -> dir_wf (Dir.IncrGlobalDepth d).
Proof.
  intros [Hw Hd]. split; [by apply well_sized_IncrGlobalDepth|].
  rewrite Size_IncrGlobalDepth.
  assert (Hg : Dir.GetGlobalDepth (Dir.IncrGlobalDepth d) = Dir.GetGlobalDepth d + 1)
    by reflexivity.
  set (g := Dir.GetGlobalDepth d) in *.
  assert (Hlow : ∀ x, N.land x (N.ones g) < Dir.Size d).
  { intros x. rewrite Size_pow. apply land_ones_lt. }
  intros i Hi. rewrite GetLocalDepth_grown by done. fold g.
  destruct (Hd _ (Hlow i)) as [Hli Hji].
  split; [lia|]. intros j Hj.
  rewrite !GetBucketPageId_grown, GetLocalDepth_grown by done. fold g.
  destruct (Hji _ (Hlow j)) as [Hpage Hdepth].
  rewrite !land_ones_ones in Hpage, Hdepth by done. done.
Qed.

Lemma route_IncrGlobalDepth h d :
  well_sized d -> route h (Dir.IncrGlobalDepth d) = route h d.
Proof.
  intros Hw. unfold route. rewrite !GlobalDepthMask_ones.
  change (Dir.GetGlobalDepth (Dir.IncrGlobalDepth d)) with (Dir.GetGlobalDepth d + 1).
  rewrite GetBucketPageId_grown; [|done|].
  - by rewrite land_ones_ones by lia.
  - rewrite Size_pow, <- N.pow_succ_r', <- N.add_1_r. apply land_ones_lt.
Qed.

(** The directory the split works on before it rewires: grown if the
    bucket was at the global depth. *)
Lemma grown_wf d i :
  dir_wf d -> i < Dir.Size d ->
  let d1 := if Dir.GetLocalDepth d i =? Dir.GetGlobalDepth d
            then Dir.IncrGlobalDepth d else d in
  dir_wf d1 ∧ i < Dir.Size d1
  ∧ Dir.GetLocalDepth d1 i = Dir.GetLocalDepth d i
  ∧ Dir.GetBucketPageId d1 i = Dir.GetBucketPageId d i
  ∧ Dir.GetLocalDepth d i + 1 <= Dir.GetGlobalDepth d1
  ∧ ∀ h, route h d1 = route h d.
Proof.
  intros Hwf Hi. cbv zeta. destruct (Hwf) as [Hw Hd]. destruct (Hd i Hi) as [Hl _].
  destruct (N.eqb_spec (Dir.GetLocalDepth d i) (Dir.GetGlobalDepth d)) as [E|E].
  - split; [by apply dir_wf_IncrGlobalDepth|].
    rewrite Size_IncrGlobalDepth. split; [lia|].
    rewrite GetLocalDepth_grown, GetBucketPageId_grown by (done || lia).
    assert (Elow : N.land i (N.ones (Dir.GetGlobalDepth d)) = i).
    { rewrite N.land_ones. apply N.mod_small. by rewrite <- Size_pow. }
    rewrite Elow. split; [done|]. split; [done|].
    split; [change (Dir.GetGlobalDepth (Dir.IncrGlobalDepth d))
              with (Dir.GetGlobalDepth d + 1); lia|].
    intros h. by apply route_IncrGlobalDepth.
  - split; [done|]. split; [done|]. split; [done|]. split; [done|].
    split; [lia|done].
Qed.

(** In the directory a split leaves, a hash value that was routed to the
    split page is sent by the new local depth mask to the split page or to
    its image. *)
Lemma split_target d (i : N) (h' : N) (spid ipid : Z) :
  dir_wf d -> i < Dir.Size d ->
  route h' d = Dir.GetBucketPageId d i ->
  let d1 := if Dir.GetLocalDepth d i =? Dir.GetGlobalDepth d
            then Dir.IncrGlobalDepth d else d in
  let d2 := Dir.IncrLocalDepth d1 i in
  let j := Dir.GetSplitImageIndex d2 i in
  let d' := rewire i j spid ipid
              (Dir.SetBucketPageId (Dir.SetLocalDepth d2 j (Dir.GetLocalDepth d2 i))
                                   j ipid) in
  spid = Dir.GetBucketPageId d i ->
  let page := Dir.GetBucketPageId d' (N.land h' (Dir.GetLocalDepthMask d' i)) in
  page = spid ∨ page = ipid.
Proof.
  intros Hwf Hi Hroute d1 d2 j d' Hsp page.
  destruct (grown_wf d i Hwf Hi) as (Hwf1 & Hi1 & Hl1 & Hp1 & Hg1 & _). fold d1 in Hwf1, Hi1, Hl1, Hp1, Hg1.
  set (L := Dir.GetLocalDepth d i) in *.
  destruct Hwf as [Hw Hd]. destruct Hwf1 as [Hw1 Hd1].
  assert (Hl2 : Dir.GetLocalDepth d2 i = L + 1).
  { subst d2. unfold Dir.IncrLocalDepth. rewrite GetLocalDepth_SetLocalDepth, Hl1.
    destruct Hw1 as [Hw1 _]. rewrite decide_True; [done|]. split; [done|lia]. }
  assert (Hl' : Dir.GetLocalDepth d' i = L + 1).
  { subst d'. rewrite GetLocalDepth_rewire_idx, GetLocalDepth_SetBucketPageId,
      GetLocalDepth_SetLocalDepth. by case_decide. }
  subst page. unfold Dir.GetLocalDepthMask. rewrite Hl', mask_ones.
  set (t' := N.land h' (N.ones (L + 1))).
  assert (Ht' : t' < Dir.Size d1).
  { rewrite Size_pow. eapply N.lt_le_trans; [apply land_ones_lt|].
    apply N.pow_le_mono_r; lia. }
  (* the slot had the split page before the rewiring *)
  assert (Hold : Dir.GetBucketPageId d1 t' = spid).
  { rewrite Hsp, <- Hp1. destruct (Hd1 i Hi1) as [_ Hj1]. apply (Hj1 t' Ht').
    rewrite Hl1. subst t'. rewrite land_ones_ones by lia.
    destruct (Hd i Hi) as [HL Hj]. fold L in HL, Hj.
    unfold route in Hroute. rewrite GlobalDepthMask_ones in Hroute.
    assert (Hlt : N.land h' (N.ones (Dir.GetGlobalDepth d)) < Dir.Size d).
    { rewrite Size_pow. apply land_ones_lt. }
    apply (Hj _ Hlt) in Hroute. by rewrite land_ones_ones in Hroute by done. }
  destruct (GetBucketPageId_rewire i j spid ipid
              (Dir.SetBucketPageId (Dir.SetLocalDepth d2 j (Dir.GetLocalDepth d2 i))
                                   j ipid) t') as [E|[E|E]]; fold d' in E.
  - rewrite E, GetBucketPageId_SetBucketPageId. case_decide; [by right|].
    left. by rewrite GetBucketPageId_SetLocalDepth.
  - by left.
  - by right.
Qed.

End Aligned.

(** * Sequences of calls *)

(** ** Calls that return *)

Section Calls.

Context {K V : Type} `{!EqDecision K, !EqDecision V, !TableParams K}.

Implicit Types (s : table K V) (p q : Z) (d : Dir.directory) (key : K) (value : V).

Lemma bind_Done {A B} (m : M K V A) (f : A -> M K V B) s b s2 :
  bind m f s = Done b s2 -> ∃ a s1, m s = Done a s1 ∧ f a s1 = Done b s2.
Proof. unfold bind. destruct (m s); try done. eauto. Qed.

Lemma GetPageId_merge_dir t d : Dir.GetPageId (merge_dir t d) = Dir.GetPageId d.
Proof.
  unfold merge_dir. cbv zeta.
  by rewrite GetPageId_shrink_loop, GetPageId_merge_loop, !GetPageId_DecrLocalDepth,
    GetPageId_SetBucketPageId.
Qed.

(** What a call that ran to its end leaves: the latch free, the directory
    in place. *)
Lemma post_rest s s' d (m : gmap Z (Bucket.bucket K V)) evs :
  table_latch_ s = latch_free -> startable s -> post s s' d m evs ->
  Dir.GetPageId d = Dir.GetPageId (dir_page (booted s)) ->
  table_latch_ s' = latch_free ∧ attached s' ∧ dir_page s' = d ∧ buckets s' = m.
Proof.
  intros Hl Hs (Hid & Hd & Hm & _ & _ & Hlatch & _) Hpg.
  destruct (startable_booted s Hs) as [H1 H2].
  split; [congruence|]. split; [|done].
  split; [congruence|]. rewrite Hd, Hid. unfold Dir.GetPageId in Hpg. congruence.
Qed.

Lemma GetValue_returns s key :
  table_latch_ s = latch_free -> attached s ->
  let res := Bucket.GetValue key (bucket_at (buckets s) (KeyToPageId key (dir_page s))) in
  ∃ s', GetValue key s = Done (negb (Nat.eqb (length res) 0), res) s'
        ∧ table_latch_ s' = latch_free ∧ attached s'
        ∧ dir_page s' = dir_page s ∧ buckets s' = buckets s.
Proof.
  intros Hl Ha res.
  destruct (GetValue_Done s key Hl (or_introl Ha)) as (s' & Hrun & Hpost).
  rewrite (booted_attached s Ha) in *.
  exists s'. split; [exact Hrun|].
  eapply post_rest; eauto; [by left|by rewrite booted_attached].
Qed.

Lemma Insert_returns s fuel key value r s' :
  table_latch_ s = latch_free -> startable s ->
  Insert fuel key value s = Done r s' ->
  let d := dir_page (booted s) in
  let p := KeyToPageId key d in
  let b := bucket_at (buckets (booted s)) p in
  table_latch_ s' = latch_free ∧ attached s' ∧ dir_page s' = d
  ∧ ((Bucket.IsFull b = false ∧ r = fst (Bucket.Insert key value b)
      ∧ buckets s' = <[p := snd (Bucket.Insert key value b)]> (buckets (booted s)))
     ∨ (Bucket.IsFull b = true ∧ r = false ∧ buckets s' = buckets (booted s))).
Proof.
  intros Hl Hs Hrun d p b. destruct fuel as [|fuel]; [done|].
  destruct (Bucket.IsFull b) eqn:Hf.
  - destruct (MAX_BUCKET_DEPTH <=? Dir.GetLocalDepth d (KeyToDirectoryIndex key d))
      eqn:Hmax.
    + destruct (Insert_full s fuel key value Hl Hs Hf) as (s1 & E1 & Hpost1).
      destruct (post_rest _ _ _ _ _ Hl Hs Hpost1 eq_refl) as (Hl1 & Ha1 & Hd1 & Hm1).
      destruct (SplitInsert_full s1 (Insert fuel) key value Hl1 (or_introl Ha1))
        as (s2 & E2 & Hpost2).
      { rewrite (booted_attached s1 Ha1), Hd1. exact Hmax. }
      rewrite E1, E2 in Hrun. injection Hrun as <- <-.
      destruct (post_rest _ _ _ _ _ Hl1 (or_introl Ha1) Hpost2 eq_refl)
        as (Hl2 & Ha2 & Hd2 & Hm2).
      rewrite (booted_attached s1 Ha1) in *. subst d p b.
      split; [done|]. split; [done|]. split; [congruence|].
      right. split; [done|]. split; [done|]. congruence.
    + exfalso.
      by apply (Insert_split_never_returns s (S fuel) key value Hl Hs Hf Hmax r s').
  - destruct (Insert_fast s fuel key value Hl Hs Hf) as (s1 & E1 & Hpost1).
    rewrite E1 in Hrun. injection Hrun as <- <-.
    destruct (post_rest _ _ _ _ _ Hl Hs Hpost1 eq_refl) as (Hl1 & Ha1 & Hd1 & Hm1).
    split; [done|]. split; [done|]. split; [done|].
    left. done.
Qed.

Lemma Merge_returns s (t : N) s' :
  table_latch_ s = latch_free -> attached s ->
  Merge t s = Done tt s' ->
  let d := dir_page s in
  table_latch_ s' = latch_free ∧ attached s'
  ∧ ((merge_skips d (buckets s) t = true
      ∧ dir_page s' = d ∧ buckets s' = buckets s)
     ∨ (merge_skips d (buckets s) t = false
        ∧ dir_page s' = merge_dir t d
        ∧ buckets s' = delete (Dir.GetBucketPageId d t) (buckets s))).
Proof.
  intros Hl Ha Hrun d. subst d.
  destruct (merge_skips (dir_page s) (buckets s) t) eqn:Hskip.
  - destruct (Merge_skip s t Hl (or_introl Ha)) as (s1 & E1 & Hpost1).
    { by rewrite (booted_attached s Ha). }
    rewrite E1 in Hrun. injection Hrun as <-.
    rewrite (booted_attached s Ha) in Hpost1.
    destruct (post_rest _ _ _ _ _ Hl (or_introl Ha) Hpost1) as (Hl1 & Ha1 & Hd1 & Hm1).
    { by rewrite booted_attached. }
    split; [done|]. split; [done|]. by left.
  - pose proof (Merge_merge s t Hl (or_introl Ha)) as Hm.
    rewrite (booted_attached s Ha) in Hm. cbv zeta in Hm. specialize (Hm Hskip).
    destruct (_ && _).
    + destruct Hm as (s1 & E1 & Hpost1).
      rewrite E1 in Hrun. injection Hrun as <-.
      destruct (post_rest _ _ _ _ _ Hl (or_introl Ha) Hpost1) as (Hl1 & Ha1 & Hd1 & Hm1).
      { by rewrite booted_attached, GetPageId_merge_dir. }
      split; [done|]. split; [done|]. by right.
    + destruct Hm as (s1 & E1). by rewrite E1 in Hrun.
Qed.

Lemma Remove_returns s key value r s' :
  table_latch_ s = latch_free -> attached s ->
  Remove key value s = Done r s' ->
  let d := dir_page s in
  let p := KeyToPageId key d in
  let t := KeyToDirectoryIndex key d in
  let rr := Bucket.Remove key value (bucket_at (buckets s) p) in
  let m1 := <[p := snd rr]> (buckets s) in
  table_latch_ s' = latch_free ∧ attached s' ∧ r = fst rr
  ∧ ((dir_page s' = d ∧ buckets s' = m1)
     ∨ (merge_skips d m1 t = false
        ∧ dir_page s' = merge_dir t d
        ∧ buckets s' = delete (Dir.GetBucketPageId d t) m1)).
Proof.
  intros Hl Ha Hrun d p t rr m1.
  destruct (Remove_run s key value Hl (or_introl Ha)) as (s1 & Hpost1 & E1).
  rewrite (booted_attached s Ha) in Hpost1, E1. fold d p rr in Hpost1, E1.
  destruct (post_rest _ _ _ _ _ Hl (or_introl Ha) Hpost1) as (Hl1 & Ha1 & Hd1 & Hm1).
  { by rewrite booted_attached. }
  rewrite E1 in Hrun. destruct (Bucket.IsEmpty (snd rr)).
  - apply bind_Done in Hrun as ([] & s2 & Hmerge & Hret).
    injection Hret as <- <-.
    destruct (Merge_returns s1 _ s2 Hl1 Ha1 Hmerge) as (Hl2 & Ha2 & Hcase).
    rewrite Hd1, Hm1 in Hcase.
    split; [done|]. split; [done|]. split; [done|].
    destruct Hcase as [(_ & ? & ?)|(? & ? & ?)]; [by left|by right].
  - injection Hrun as <- <-.
    split; [done|]. split; [done|]. split; [done|]. by left.
Qed.

(** *** A stored pair stays stored *)

Lemma stored_insert key value s s' k' v' :
  stored key value s -> dir_page s' = dir_page s ->
  buckets s' = <[KeyToPageId k' (dir_page s) :=
                   snd (Bucket.Insert k' v'
                          (bucket_at (buckets s) (KeyToPageId k' (dir_page s))))]>
                 (buckets s) ->
  stored key value s'.
Proof.
  unfold stored. intros Hin -> ->.
  destruct (decide (KeyToPageId k' (dir_page s) = KeyToPageId key (dir_page s)))
    as [E|E].
  - rewrite <- E, bucket_at_insert. apply Insert_keeps. by rewrite E.
  - by rewrite bucket_at_insert_ne.
Qed.

Lemma stored_remove key value s k' v' :
  (k', v') ≠ (key, value) ->
  (key, value) ∈ Bucket.GetArrayCopy
                   (bucket_at (buckets s) (KeyToPageId key (dir_page s))) ->
  (key, value) ∈ Bucket.GetArrayCopy
    (bucket_at (<[KeyToPageId k' (dir_page s) :=
                    snd (Bucket.Remove k' v'
                           (bucket_at (buckets s) (KeyToPageId k' (dir_page s))))]>
                  (buckets s))
               (KeyToPageId key (dir_page s))).
Proof.
  intros Hne Hin.
  destruct (decide (KeyToPageId k' (dir_page s) = KeyToPageId key (dir_page s)))
    as [E|E].
  - rewrite <- E, bucket_at_insert. apply Remove_keeps; [by rewrite E|congruence].
  - by rewrite bucket_at_insert_ne.
Qed.

(** A merge keeps the directory aligned and the pair reachable: the page
    it deletes is empty, so it is not the page of the pair. *)
Lemma stored_merge key value d (m : gmap Z (Bucket.bucket K V)) (t : N) :
  aligned d = true -> t < Dir.Size d -> merge_skips d m t = false ->
  (key, value) ∈ Bucket.GetArrayCopy (bucket_at m (KeyToPageId key d)) ->
  aligned (merge_dir t d) = true
  ∧ (key, value) ∈ Bucket.GetArrayCopy
                     (bucket_at (delete (Dir.GetBucketPageId d t) m)
                                (KeyToPageId key (merge_dir t d))).
Proof.
  intros Hal Ht Hskip Hin. unfold merge_skips in Hskip.
  apply orb_false_elim in Hskip as [Hskip E2].
  apply orb_false_elim in Hskip as [E0 E1].
  apply negb_false_iff in E1, E2. apply N.eqb_neq in E0. apply N.eqb_eq in E1.
  apply aligned_spec in Hal.
  destruct (merge_dir_spec d t Hal Ht E0 (eq_sym E1)) as [Hwf Hroute].
  split; [by apply aligned_spec|].
  assert (Hne : KeyToPageId key d ≠ Dir.GetBucketPageId d t).
  { intros E. rewrite E in Hin. apply IsEmpty_pairs in E2. rewrite E2 in Hin.
    by apply elem_of_nil in Hin. }
  change (KeyToPageId key (merge_dir t d)) with (route (Hash key) (merge_dir t d)).
  rewrite (Hroute (Hash key) Hne).
  change (route (Hash key) d) with (KeyToPageId key d).
  by rewrite bucket_at_delete_ne.
Qed.

Lemma call_keeps_pair fuel key value (c : call (K:=K) (V:=V)) s s' :
  at_rest s -> stored key value s -> c ≠ CallRemove key value ->
  run_call fuel c s = Done tt s' ->
  at_rest s' ∧ stored key value s'.
Proof.
  intros (Hl & Ha & Hal) Hin Hc Hrun. unfold at_rest.
  destruct c as [k'|k' v'|k' v'| |]; cbn [run_call] in Hrun.
  - apply bind_Done in Hrun as (a & s1 & Hrun & Hret). injection Hret as <-.
    destruct (GetValue_returns s k' Hl Ha) as (s2 & E & Hl2 & Ha2 & Hd2 & Hm2).
    rewrite E in Hrun. injection Hrun as _ <-.
    unfold stored. rewrite Hd2, Hm2. done.
  - apply bind_Done in Hrun as (a & s1 & Hrun & Hret). injection Hret as <-.
    destruct (Insert_returns s fuel k' v' a s1 Hl (or_introl Ha) Hrun)
      as (Hl1 & Ha1 & Hd1 & Hcase).
    rewrite (booted_attached s Ha) in Hd1, Hcase.
    split; [by rewrite Hd1|].
    destruct Hcase as [(_ & _ & Hm1)|(_ & _ & Hm1)].
    + by eapply stored_insert.
    + unfold stored. by rewrite Hd1, Hm1.
  - apply bind_Done in Hrun as (a & s1 & Hrun & Hret). injection Hret as <-.
    destruct (Remove_returns s k' v' a s1 Hl Ha Hrun) as (Hl1 & Ha1 & _ & Hcase).
    assert (Hne : (k', v') ≠ (key, value)) by congruence.
    pose proof (stored_remove key value s k' v' Hne Hin) as Hin1.
    destruct Hcase as [[Hd1 Hm1]|(Hskip & Hd1 & Hm1)].
    + split; [by rewrite Hd1|]. unfold stored. by rewrite Hd1, Hm1.
    + destruct (stored_merge key value _ _ _ Hal (KeyToDirectoryIndex_lt k' _)
                  Hskip Hin1) as [Hal1 Hin2].
      split; [by rewrite Hd1|]. unfold stored. by rewrite Hd1, Hm1.
  - apply bind_Done in Hrun as (a & s1 & Hrun & Hret). injection Hret as <-.
    destruct (GetGlobalDepth_Done s Hl (or_introl Ha)) as (s2 & E & Hpost).
    rewrite E in Hrun. injection Hrun as _ <-.
    rewrite (booted_attached s Ha) in Hpost.
    destruct (post_rest _ _ _ _ _ Hl (or_introl Ha) Hpost) as (Hl1 & Ha1 & Hd1 & Hm1).
    { by rewrite booted_attached. }
    unfold stored. by rewrite Hd1, Hm1.
  - pose proof (VerifyIntegrity_run s Hl (or_introl Ha)) as Hv. cbv zeta in Hv.
    destruct (Dir.VerifyIntegrity _).
    + destruct Hv as (s2 & E & Hpost). rewrite E in Hrun. injection Hrun as <-.
      rewrite (booted_attached s Ha) in Hpost.
      destruct (post_rest _ _ _ _ _ Hl (or_introl Ha) Hpost) as (Hl1 & Ha1 & Hd1 & Hm1).
      { by rewrite booted_attached. }
      unfold stored. by rewrite Hd1, Hm1.
    + destruct Hv as (s2 & E). by rewrite E in Hrun.
Qed.

Lemma calls_keep_pair fuel key value (cs : list (call (K:=K) (V:=V))) : ∀ s s',
  at_rest s -> stored key value s -> CallRemove key value ∉ cs ->
  run_calls fuel cs s = Done tt s' ->
  at_rest s' ∧ stored key value s'.
Proof.
  induction cs as [|c cs IH]; intros s s' Hrest Hin Hnot Hrun.
  - injection Hrun as <-. done.
  - cbn [run_calls] in Hrun. apply bind_Done in Hrun as ([] & s1 & Hc & Hcs).
    apply not_elem_of_cons in Hnot as [Hne Hnot].
    destruct (call_keeps_pair fuel key value c s s1 Hrest Hin ltac:(congruence) Hc)
      as [Hrest1 Hin1].
    by apply (IH s1 s').
Qed.

(** C1. Insert/Lookup round-trip.  Take a table at rest whose directory
    (once created) is aligned.  If [Insert key value] returns true, and
    then a client makes on the same thread any sequence of calls, none of
    which is [Remove key value], and all of them return, then [GetValue
    key] returns true and its result contains [value]. *)
Theorem C1_insert_lookup_round_trip s fuel key value s1
    (cs : list (call (K:=K) (V:=V))) s2 :
  table_latch_ s = latch_free -> startable s ->
  aligned (dir_page (booted s)) = true ->
  Insert fuel key value s = Done true s1 ->
  CallRemove key value ∉ cs ->
  run_calls fuel cs s1 = Done tt s2 ->
  ∃ result s3, GetValue key s2 = Done (true, result) s3 ∧ value ∈ result.
Proof.
  intros Hl Hs Hal Hins Hnot Hrun.
  destruct (Insert_returns s fuel key value true s1 Hl Hs Hins)
    as (Hl1 & Ha1 & Hd1 & Hcase).
  destruct Hcase as [(_ & Htrue & Hm1)|(_ & ? & _)]; [|done].
  assert (Hin1 : stored key value s1).
  { unfold stored. rewrite Hd1, Hm1, bucket_at_insert. by apply Insert_true. }
  assert (Hrest1 : at_rest s1) by (unfold at_rest; by rewrite Hd1).
  destruct (calls_keep_pair fuel key value cs s1 s2 Hrest1 Hin1 Hnot Hrun)
    as [(Hl2 & Ha2 & _) Hin2].
  destruct (GetValue_returns s2 key Hl2 Ha2) as (s3 & E & _).
  apply GetValue_pairs in Hin2.
  eexists _, s3. split; [|exact Hin2]. rewrite E.
  destruct (Bucket.GetValue key _); [by apply elem_of_nil in Hin2|done].
Qed.

(** * The redistribution of a split *)

Lemma split_page_eq key d : dir_wf d -> split_page key d = KeyToPageId key d.
Proof.
  intros Hwf. unfold split_page. cbv zeta.
  destruct (grown_wf d (KeyToDirectoryIndex key d) Hwf (KeyToDirectoryIndex_lt key d))
    as (_ & _ & _ & _ & _ & Hroute).
  exact (Hroute (Hash key)).
Qed.

Lemma bucket_ok_spec d (m : gmap Z (Bucket.bucket K V)) p :
  bucket_ok d m p = true ->
  (∀ x, x ∈ Bucket.GetArrayCopy (bucket_at m p) -> KeyToPageId (fst x) d = p)
  ∧ NoDup (Bucket.GetArrayCopy (bucket_at m p))
  ∧ (length (bucket_at m p) <= BUCKET_ARRAY_SIZE)%nat.
Proof.
  unfold bucket_ok. cbv zeta. rewrite !andb_true_iff, forallb_forall.
  intros [[H1 H2] H3]. split; [|split].
  - intros x Hx. apply Z.eqb_eq, H1, list_elem_of_In, Hx.
  - by apply bool_decide_eq_true in H2.
  - by apply Nat.leb_le.
Qed.

Lemma Insert_keeps_at (m : gmap Z (Bucket.bucket K V)) p q key value x :
  x ∈ Bucket.GetArrayCopy (bucket_at m q) ->
  x ∈ Bucket.GetArrayCopy
        (bucket_at (<[p := snd (Bucket.Insert key value (bucket_at m p))]> m) q).
Proof.
  intros Hx. destruct (decide (p = q)) as [<-|Hne].
  - rewrite bucket_at_insert. by apply Insert_keeps.
  - by rewrite bucket_at_insert_ne.
Qed.

Lemma reinsert_map_keeps (i : N) (spid ipid : Z) d (rest : list (K * V)) :
  ∀ (m : gmap Z (Bucket.bucket K V)) q x,
  x ∈ Bucket.GetArrayCopy (bucket_at m q) ->
  x ∈ Bucket.GetArrayCopy (bucket_at (snd (reinsert_map rest i spid ipid d m)) q).
Proof.
  induction rest as [|tmp rest IH]; intros m q x Hx; cbn [reinsert_map]; [done|].
  destruct (Z.eqb _ spid).
  - destruct (fst (Bucket.Insert _ _ _)); [apply IH|cbn [snd]]; by apply Insert_keeps_at.
  - destruct (Z.eqb _ ipid); [|done].
    destruct (fst (Bucket.Insert _ _ _)); [apply IH|cbn [snd]]; by apply Insert_keeps_at.
Qed.

(** Distinct pairs, each sent to one of the two pages, all go in when the
    two buckets have the room; afterwards they are in the two buckets. *)
Lemma reinsert_map_fits (i : N) (spid ipid : Z) d (rest : list (K * V)) :
  ∀ m : gmap Z (Bucket.bucket K V),
  NoDup rest ->
  Forall (fun tmp => target_page d i tmp = spid ∨ target_page d i tmp = ipid) rest ->
  (∀ q, q = spid ∨ q = ipid ->
     (∀ x, x ∈ Bucket.GetArrayCopy (bucket_at m q) -> x ∉ rest)
     ∧ (Bucket.NumReadable (bucket_at m q) + length rest
        <= length (bucket_at m q))%nat) ->
  fst (reinsert_map rest i spid ipid d m) = true
  ∧ ∀ x, x ∈ rest ->
      x ∈ Bucket.GetArrayCopy
            (bucket_at (snd (reinsert_map rest i spid ipid d m)) spid)
      ∨ x ∈ Bucket.GetArrayCopy
              (bucket_at (snd (reinsert_map rest i spid ipid d m)) ipid).
Proof.
  assert (Hstep : ∀ (m : gmap Z (Bucket.bucket K V)) tmp rest' q,
    q = spid ∨ q = ipid ->
    NoDup (tmp :: rest') ->
    (∀ q, q = spid ∨ q = ipid ->
       (∀ x, x ∈ Bucket.GetArrayCopy (bucket_at m q) -> x ∉ tmp :: rest')
       ∧ (Bucket.NumReadable (bucket_at m q) + length (tmp :: rest')
          <= length (bucket_at m q))%nat) ->
    let r := Bucket.Insert (fst tmp) (snd tmp) (bucket_at m q) in
    fst r = true
    ∧ tmp ∈ Bucket.GetArrayCopy (bucket_at (<[q := snd r]> m) q)
    ∧ ∀ q', q' = spid ∨ q' = ipid ->
        (∀ x, x ∈ Bucket.GetArrayCopy (bucket_at (<[q := snd r]> m) q') -> x ∉ rest')
        ∧ (Bucket.NumReadable (bucket_at (<[q := snd r]> m) q') + length rest'
           <= length (bucket_at (<[q := snd r]> m) q'))%nat).
  { intros m [k v] rest' q Hq Hnd Hroom r. cbn [fst snd] in r.
    apply NoDup_cons in Hnd as [Hnew Hnd].
    destruct (Hroom q Hq) as [Hout Hlen]. cbn [length] in Hlen.
    destruct (Insert_fits k v (bucket_at m q)) as (Hok & Hl & Hn & Hpairs).
    { intros Hin. apply (Hout _ Hin). by left. }
    { lia. }
    fold r in Hok, Hl, Hn, Hpairs.
    split; [done|]. split; [rewrite bucket_at_insert; apply Hpairs; by left|].
    intros q' Hq'. destruct (decide (q = q')) as [<-|Hne].
    - rewrite bucket_at_insert, Hl, Hn. split; [|lia].
      intros x Hx. apply Hpairs in Hx as [->|Hx]; [done|].
      intros Hin. apply (Hout _ Hx). by right.
    - rewrite bucket_at_insert_ne by done.
      destruct (Hroom q' Hq') as [Hout' Hlen']. cbn [length] in Hlen'.
      split; [|lia]. intros x Hx Hin. apply (Hout' _ Hx). by right. }
  induction rest as [|tmp rest IH]; intros m Hnd Hall Hroom.
  - cbn. split; [done|]. by intros x ?%elem_of_nil.
  - apply Forall_cons in Hall as [Htmp Hall].
    pose proof (proj2 (proj1 (NoDup_cons _ _) Hnd)) as Hnd'.
    cbn [reinsert_map]. unfold target_page in Htmp.
    set (t := Dir.GetBucketPageId d _) in *.
    assert (Hfin : ∀ q, q = spid ∨ q = ipid ->
      let r := Bucket.Insert (fst tmp) (snd tmp) (bucket_at m q) in
      fst r = true
      ∧ fst (reinsert_map rest i spid ipid d (<[q := snd r]> m)) = true
      ∧ ∀ x, x ∈ tmp :: rest ->
          x ∈ Bucket.GetArrayCopy
                (bucket_at (snd (reinsert_map rest i spid ipid d (<[q := snd r]> m)))
                           spid)
          ∨ x ∈ Bucket.GetArrayCopy
                  (bucket_at (snd (reinsert_map rest i spid ipid d (<[q := snd r]> m)))
                             ipid)).
    { intros q Hq r.
      destruct (Hstep m tmp rest q Hq Hnd Hroom) as (Hok & Hin & Hroom').
      fold r in Hok, Hin, Hroom'.
      destruct (IH (<[q := snd r]> m) Hnd' Hall Hroom') as [Hfst Hsnd].
      split; [done|]. split; [done|].
      intros x [->|Hx]%elem_of_cons; [|by apply Hsnd].
      destruct Hq as [->| ->]; [left|right]; by apply reinsert_map_keeps. }
    destruct (Z.eqb_spec t spid) as [E|E].
    + destruct (Hfin spid (or_introl eq_refl)) as (Hok & Hfst & Hsnd).
      rewrite Hok. done.
    + destruct Htmp as [?|E']; [done|].
      rewrite (proj2 (Z.eqb_eq _ _) E').
      destruct (Hfin ipid (or_intror eq_refl)) as (Hok & Hfst & Hsnd).
      rewrite Hok. done.
Qed.

(** C8. Redistribution assertion validity.  Take a table at rest with an
    aligned directory, a key whose bucket is in order (its pairs are
    distinct and routed to it) and below the maximal depth, and let
    [SplitInsert] split that bucket.  Then for every pair copied out of
    the bucket, the slot computed from the hash of its key and the new
    local depth mask names the old page or the new image page; no
    assertion of [SplitInsert] fails, so that it reaches its final
    [Insert]; and every copied pair is then in one of the two buckets. *)
Theorem C8_redistribution_assertions_hold s (Insert_ : K -> V -> M K V bool) key value :
  table_latch_ s = latch_free -> startable s ->
  let d := dir_page (booted s) in
  let m := buckets (booted s) in
  let i := KeyToDirectoryIndex key d in
  let P_old := KeyToPageId key d in
  let P_new := next_page_id (booted s) in
  let origin_array := Bucket.GetArrayCopy (bucket_at m P_old) in
  aligned d = true -> bucket_ok d m P_old = true ->
  (MAX_BUCKET_DEPTH <=? Dir.GetLocalDepth d i) = false ->
  Forall (fun tmp => target_page (split_dir key P_new d) i tmp = P_old
                     ∨ target_page (split_dir key P_new d) i tmp = P_new)
         origin_array
  ∧ ∃ s', SplitInsert_ Insert_ key value s = Insert_ key value s'
          ∧ dir_page s' = split_dir key P_new d
          ∧ ∀ x, x ∈ origin_array ->
              x ∈ Bucket.GetArrayCopy (bucket_at (buckets s') P_old)
              ∨ x ∈ Bucket.GetArrayCopy (bucket_at (buckets s') P_new).
Proof.
  intros Hl Hs d m i P_old P_new origin_array Hal Hok Hmax.
  apply aligned_spec in Hal.
  pose proof (split_page_eq key d Hal) as Hsp. fold P_old in Hsp.
  destruct (bucket_ok_spec d m P_old Hok) as (Hhome & Hnd & Hlen).
  fold origin_array in Hhome, Hnd.
  assert (Htarget : Forall (fun tmp => target_page (split_dir key P_new d) i tmp = P_old
                     ∨ target_page (split_dir key P_new d) i tmp = P_new)
                     origin_array).
  { apply Forall_forall. intros tmp Hin. unfold target_page, split_dir. cbv zeta.
    fold i. rewrite <- Hsp.
    change (KeyToPageId key (Dir.IncrLocalDepth
              (if Dir.GetLocalDepth d i =? Dir.GetGlobalDepth d
               then Dir.IncrGlobalDepth d else d) i)) with (split_page key d).
    apply split_target; [done|apply KeyToDirectoryIndex_lt| |by rewrite Hsp].
    exact (Hhome tmp Hin). }
  split; [exact Htarget|].
  destruct (SplitInsert_split s Insert_ key value Hl Hs Hmax) as (s' & Hrun & Hd' & Hm').
  fold d P_new in Hrun, Hd', Hm'. rewrite Hsp in Hrun, Hm'. fold m in Hrun, Hm'.
  rewrite take_ge in Hrun, Hm' by (by rewrite length_GetArrayCopy).
  fold origin_array in Hrun, Hm'.
  destruct (reinsert_map_fits i P_old P_new (split_dir key P_new d) origin_array
              (delete P_new (<[P_old := Bucket.Reset (bucket_at m P_old)]> m)) Hnd Htarget)
    as [Hfst Hsnd].
  { assert (Hzero : Bucket.GetArrayCopy (zeroed_bucket (K:=K) (V:=V)) = []
                    ∧ Bucket.NumReadable (zeroed_bucket (K:=K) (V:=V)) = O
                    ∧ length (zeroed_bucket (K:=K) (V:=V)) = BUCKET_ARRAY_SIZE).
    { unfold zeroed_bucket.
      by rewrite GetArrayCopy_unused, NumReadable_unused, length_replicate. }
    destruct Hzero as (Hz1 & Hz2 & Hz3).
    pose proof (NumReadable_le (bucket_at m P_old)) as Hle.
    assert (Hn : length origin_array = Bucket.NumReadable (bucket_at m P_old))
      by apply length_GetArrayCopy.
    intros q Hq. destruct (decide (q = P_new)) as [->|Hne].
    - rewrite bucket_at_delete, Hz1, Hz2, Hz3.
      split; [by intros x ?%elem_of_nil|lia].
    - destruct Hq as [->|?]; [|done].
      rewrite bucket_at_delete_ne, bucket_at_insert by done.
      unfold Bucket.Reset.
      rewrite GetArrayCopy_unused, NumReadable_unused, length_replicate.
      split; [by intros x ?%elem_of_nil|lia]. }
  fold i in Hrun, Hm'. rewrite Hfst in Hrun. destruct Hrun as [Hrun _].
  exists s'. split; [exact Hrun|]. split; [exact Hd'|].
  rewrite Hm'. exact Hsnd.
Qed.

End Calls.

(** * The claims on the example tables *)

Section Examples.

Import Sample.

Lemma new_table_ready :
  table_latch_ (new_table : table Z Z) = latch_free ∧ startable (new_table : table Z Z).
Proof. split; [reflexivity|]. right. split; [reflexivity|discriminate]. Defined.

Lemma one_pair_ready : table_latch_ one_pair = latch_free ∧ attached one_pair.
Proof.
  split; [vm_compute; reflexivity|].
  split; [vm_compute; discriminate|vm_compute; reflexivity].
Defined.

Lemma two_pairs_ready : table_latch_ two_pairs = latch_free ∧ attached two_pairs.
Proof.
  split; [vm_compute; reflexivity|].
  split; [vm_compute; discriminate|vm_compute; reflexivity].
Defined.


(** C3 (defect of the code).  In [two_pairs] the pair (4, 400) is not
    stored and the local depth of its bucket, 0, is below
    [MAX_BUCKET_DEPTH]; the claim has [Insert] return true.  The bucket is
    full, [Insert] goes through [SplitInsert] and never returns. *)
Theorem C3_insert_of_new_pair_does_not_return :
  let d := dir_page two_pairs in
  let b := bucket_at (buckets two_pairs) (KeyToPageId 4%Z d) in
  ((4%Z, 400%Z) ∉ Bucket.GetArrayCopy b)
  ∧ (Dir.GetLocalDepth d (KeyToDirectoryIndex 4%Z d) < MAX_BUCKET_DEPTH)
  ∧ (∀ fuel r s', Insert fuel 4%Z 400%Z two_pairs ≠ Done r s').
Proof.
  split; [|split].
  - vm_compute. intros H. repeat (apply elem_of_cons in H as [H|H]; [discriminate H|]).
    by apply elem_of_nil in H.
  - vm_compute. reflexivity.
  - intros fuel. destruct two_pairs_ready as [Hl Ha].
    apply Insert_split_never_returns.
    + exact Hl.
    + left. exact Ha.
    + rewrite (booted_attached _ Ha). vm_compute. reflexivity.
    + rewrite (booted_attached _ Ha). vm_compute. reflexivity.
Qed.

(** C6 (defect of the code).  Two inserts fill the only bucket of a new
    table.  The third insert splits it; [SplitInsert] then calls [Insert]
    again without having released the table latch it took exclusively, and
    that [Insert] waits for the latch for ever: whatever the bound on the
    recursion, the call blocks. *)
Theorem C6_insert_after_split_blocks (fuel : nat) :
  (∃ s1, Insert 1 0%Z 100%Z new_table = Done true s1
         ∧ Insert 1 2%Z 200%Z s1 = Done true two_pairs)
  ∧ ∃ s', Insert (S (S fuel)) 4%Z 400%Z two_pairs = Blocked s'
          ∧ table_latch_ s' = mkLatch 0 true
          ∧ Dir.GetLocalDepth (dir_page s') 0 = 1.
Proof.
  split.
  - eexists. split; vm_compute; reflexivity.
  - eexists. split; [vm_compute; reflexivity|]. split; vm_compute; reflexivity.
Qed.

(** C5, counterexample.  Inserting the pair (1, 10) a second time returns
    false and leaves every bucket and the directory as they were, yet the
    bucket page 1 is unpinned with the dirty flag set. *)
Lemma C5_unchanged_bucket_unpinned_dirty :
  ∃ s' evs, Insert 1 1%Z 10%Z one_pair = Done false s'
            ∧ buckets s' = buckets one_pair
            ∧ dir_page s' = dir_page one_pair
            ∧ trace s' = evs ++ trace one_pair
            ∧ EvUnpinPage 1%Z true ∈ evs.
Proof.
  eexists. exists [EvRUnlock; EvUnpinPage 0%Z false; EvUnpinPage 1%Z true;
                   EvWUnlatch 1%Z; EvWLatch 1%Z; EvFetchPage 1%Z; EvFetchPage 0%Z;
                   EvRLock].
  split; [vm_compute; reflexivity|].
  split; [vm_compute; reflexivity|].
  split; [vm_compute; reflexivity|].
  split; [vm_compute; reflexivity|].
  rewrite !elem_of_cons. tauto.
Qed.



(** ** The general theorems on the example tables *)

Lemma C4_Merge_skip_witness :
  table_latch_ one_pair = latch_free
  ∧ attached one_pair
  ∧ Dir.GetLocalDepth (dir_page one_pair) 0 = 0
  ∧ ∃ s' evs,
      Merge 0 one_pair = Done tt s'
      ∧ dir_page s' = dir_page one_pair
      ∧ buckets s' = buckets one_pair
      ∧ (∀ p, pin_count s' p = pin_count one_pair p)
      ∧ table_latch_ s' = table_latch_ one_pair
      ∧ trace s' = evs ++ trace one_pair
      ∧ (∀ p, EvUnpinPage p true ∉ evs)
      ∧ (∀ p, EvDeletePage p ∉ evs).
Proof.
  assert (H0 : Dir.GetLocalDepth (dir_page one_pair) 0 = 0)
    by (vm_compute; reflexivity).
  split; [apply one_pair_ready|]. split; [apply one_pair_ready|].
  split; [exact H0|].
  apply (C4_Merge_skip_changes_nothing one_pair 0);
    [apply one_pair_ready|apply one_pair_ready|left; exact H0].
Defined.

Lemma C5_changed_pages_witness :
  table_latch_ (new_table : table Z Z) = latch_free
  ∧ startable (new_table : table Z Z)
  ∧ ∀ key value, dirty_ok (new_table : table Z Z) (Remove key value new_table).
Proof.
  split; [apply new_table_ready|]. split; [apply new_table_ready|].
  apply (C5_changed_pages_are_unpinned_dirty new_table); apply new_table_ready.
Defined.


Lemma C9_no_pin_leak_witness :
  table_latch_ (new_table : table Z Z) = latch_free
  ∧ startable (new_table : table Z Z)
  ∧ ∀ fuel key value, pins_balanced (new_table : table Z Z) (Insert fuel key value new_table).
Proof.
  split; [apply new_table_ready|]. split; [apply new_table_ready|].
  apply (C9_no_pin_leak new_table); apply new_table_ready.
Defined.


Lemma comb_table_ready :
  table_latch_ comb_table = latch_free ∧ attached comb_table.
Proof.
  split; [reflexivity|]. split; [vm_compute; discriminate|reflexivity].
Defined.

Lemma C1_round_trip_witness :
  table_latch_ comb_table = latch_free
  ∧ startable comb_table
  ∧ aligned (dir_page (booted comb_table)) = true
  ∧ Insert 1 8%Z 80%Z comb_table = Done true with_8
  ∧ (CallRemove 8%Z 80%Z ∉ client_calls)
  ∧ (run_calls 1 client_calls with_8 = Done tt with_8_later)
  ∧ Dir.GetGlobalDepth (dir_page with_8_later) = 2
  ∧ ∃ result s3, GetValue 8%Z with_8_later = Done (true, result) s3 ∧ 80%Z ∈ result.
Proof.
  assert (Hal : aligned (dir_page (booted comb_table)) = true)
    by (vm_compute; reflexivity).
  assert (Hins : Insert 1 8%Z 80%Z comb_table = Done true with_8)
    by (vm_compute; reflexivity).
  assert (Hnot : CallRemove 8%Z 80%Z ∉ client_calls).
  { intros Hin.
    repeat (apply elem_of_cons in Hin as [Hin|Hin]; [discriminate Hin|]).
    by apply elem_of_nil in Hin. }
  assert (Hrun : run_calls 1 client_calls with_8 = Done tt with_8_later)
    by (vm_compute; reflexivity).
  split; [apply comb_table_ready|]. split; [left; apply comb_table_ready|].
  split; [exact Hal|]. split; [exact Hins|]. split; [exact Hnot|].
  split; [exact Hrun|]. split; [vm_compute; reflexivity|].
  exact (C1_insert_lookup_round_trip comb_table 1 8%Z 80%Z with_8 client_calls
           with_8_later (proj1 comb_table_ready) (or_introl (proj2 comb_table_ready))
           Hal Hins Hnot Hrun).
Defined.

Lemma C8_redistribution_witness :
  let d := dir_page (booted comb_table) in
  let m := buckets (booted comb_table) in
  let i := KeyToDirectoryIndex 5%Z d in
  let P_old := KeyToPageId 5%Z d in
  let P_new := next_page_id (booted comb_table) in
  let origin_array := Bucket.GetArrayCopy (bucket_at m P_old) in
  table_latch_ comb_table = latch_free
  ∧ startable comb_table
  ∧ aligned d = true
  ∧ bucket_ok d m P_old = true
  ∧ (MAX_BUCKET_DEPTH <=? Dir.GetLocalDepth d i) = false
  ∧ Forall (fun tmp => target_page (split_dir 5%Z P_new d) i tmp = P_old
                       ∨ target_page (split_dir 5%Z P_new d) i tmp = P_new)
           origin_array
  ∧ ∃ s', SplitInsert_ (Insert 1) 5%Z 50%Z comb_table = Insert 1 5%Z 50%Z s'
          ∧ dir_page s' = split_dir 5%Z P_new d
          ∧ ∀ x, x ∈ origin_array ->
              x ∈ Bucket.GetArrayCopy (bucket_at (buckets s') P_old)
              ∨ x ∈ Bucket.GetArrayCopy (bucket_at (buckets s') P_new).
Proof.
  intros d m i P_old P_new origin_array.
  assert (Hal : aligned d = true) by (vm_compute; reflexivity).
  assert (Hok : bucket_ok d m P_old = true) by (vm_compute; reflexivity).
  assert (Hmax : (MAX_BUCKET_DEPTH <=? Dir.GetLocalDepth d i) = false)
    by (vm_compute; reflexivity).
  split; [apply comb_table_ready|]. split; [left; apply comb_table_ready|].
  split; [exact Hal|]. split; [exact Hok|]. split; [exact Hmax|].
  exact (C8_redistribution_assertions_hold comb_table (Insert 1) 5%Z 50%Z
           (proj1 comb_table_ready) (or_introl (proj2 comb_table_ready))
           Hal Hok Hmax).
Defined.

End Examples.

(** * Further properties of the controller *)

(** ** More on the directory *)

Section DirMore.

Implicit Types (d : Dir.directory) (i j x t h : N) (p : Z).

(** An aligned directory passes the check of [VerifyIntegrity]. *)
Lemma dir_wf_VerifyIntegrity d : dir_wf d -> Dir.VerifyIntegrity d = true.
Proof.
  intros [_ Hd]. unfold Dir.VerifyIntegrity. apply forallb_slots. intros i Hi.
  destruct (Hd i Hi) as [Hl Hj]. apply andb_true_iff. split; [by apply N.leb_le|].
  apply forallb_slots. intros j Hj'. destruct (Hj j Hj') as [Hpage Hdepth].
  unfold Dir.slot_ok, Dir.GetLocalDepthMask. rewrite mask_ones.
  destruct (N.eqb_spec (N.land j (N.ones (Dir.GetLocalDepth d i)))
                       (N.land i (N.ones (Dir.GetLocalDepth d i)))) as [E|E]; [|done].
  cbn. apply andb_true_iff. split; [apply Z.eqb_eq; tauto|apply N.eqb_eq; tauto].
Qed.

Lemma GetGlobalDepth_shrink_loop fuel : ∀ d,
  Dir.GetGlobalDepth (shrink_loop fuel d) <= Dir.GetGlobalDepth d.
Proof.
  induction fuel as [|fuel IH]; intros d; unfold shrink_loop; fold shrink_loop; [done|].
  destruct (Dir.CanShrink d); [|done].
  etrans; [apply IH|]. change (Dir.GetGlobalDepth d - 1 <= Dir.GetGlobalDepth d). lia.
Qed.

(** The loop of [Merge] that shrinks the directory runs until the
    directory cannot shrink. *)
Lemma shrink_loop_stops fuel : ∀ d,
  dir_wf d -> (N.to_nat (Dir.GetGlobalDepth d) < fuel)%nat ->
  Dir.CanShrink (shrink_loop fuel d) = false.
Proof.
  induction fuel as [|fuel IH]; intros d Hwf Hf; [lia|].
  unfold shrink_loop; fold shrink_loop.
  destruct (Dir.CanShrink d) eqn:Hc; [|done].
  pose proof (CanShrink_depths d 0 (proj1 Hwf) Hc (Size_pos d)) as Hg.
  apply IH; [by apply dir_wf_DecrGlobalDepth|].
  change (N.to_nat (Dir.GetGlobalDepth d - 1) < fuel)%nat. lia.
Qed.

(** The directory as the loop of [Merge] leaves it, before it shrinks. *)
Lemma merged_wf d t :
  dir_wf d -> t < Dir.Size d -> Dir.GetLocalDepth d t ≠ 0 ->
  Dir.GetLocalDepth d (Dir.GetSplitImageIndex d t) = Dir.GetLocalDepth d t ->
  let tp := Dir.GetBucketPageId d t in
  let image := Dir.GetSplitImageIndex d t in
  let ip := Dir.GetBucketPageId d image in
  let d3 := Dir.DecrLocalDepth
              (Dir.DecrLocalDepth (Dir.SetBucketPageId d t ip) t) image in
  dir_wf (merge_loop (N.to_nat (Dir.Size d3)) 0 tp ip t d3).
Proof.
  intros Hwf Ht H0 Heq tp image ip d3.
  destruct (merge_loop_slots d t Hwf Ht H0 Heq) as (Hw4 & Hg4 & Hx4).
  fold tp image ip d3 in Hw4, Hg4, Hx4.
  set (d4 := merge_loop _ 0 tp ip t d3) in *.
  set (n := Dir.GetLocalDepth d t - 1) in *.
  assert (Hs4 : Dir.Size d4 = Dir.Size d) by (by rewrite !Size_pow, Hg4).
  split; [done|]. rewrite Hs4, Hg4. destruct Hwf as [Hw Hd]. intros i Hi.
  destruct (Hd i Hi) as [Hli Hji]. destruct (Hd t Ht) as [Hlt _].
  destruct (Hx4 i Hi) as [Hin Hout].
  destruct (N.eq_dec (N.land i (N.ones n)) (N.land t (N.ones n))) as [Ci|Ci].
  - destruct (Hin Ci) as (Epi & Eli & _). rewrite Epi, Eli.
    split; [lia|]. intros j Hj. destruct (Hx4 j Hj) as [Hjn Hjo].
    destruct (N.eq_dec (N.land j (N.ones n)) (N.land t (N.ones n))) as [Cj|Cj].
    + destruct (Hjn Cj) as (Epj & Elj & _). rewrite Epj, Elj.
      split; [|done]. split; [congruence|done].
    + destruct (Hjo Cj) as (Epj & Elj & _ & Hnip). rewrite Epj, Elj.
      split; [split|]; intros E; exfalso; congruence.
  - destruct (Hout Ci) as (Epi & Eli & Hntp & Hnip). rewrite Epi, Eli.
    split; [done|]. intros j Hj. destruct (Hx4 j Hj) as [Hjn Hjo].
    destruct (Hji j Hj) as [Hpage Hdepth].
    destruct (N.eq_dec (N.land j (N.ones n)) (N.land t (N.ones n))) as [Cj|Cj].
    + destruct (Hjn Cj) as (Epj & Elj & Hor). rewrite Epj, Elj.
      split; [split|]; intros E; exfalso.
      * congruence.
      * apply Hpage in E. destruct Hor; congruence.
      * apply Hpage in E. destruct Hor; congruence.
    + destruct (Hjo Cj) as (Epj & Elj & _). by rewrite Epj, Elj.
Qed.

(** Where a merge sends the hash values: those of the deleted page go to
    the page of the split image, the others where they went. *)
Lemma merge_dir_routes d t :
  dir_wf d -> t < Dir.Size d -> Dir.GetLocalDepth d t ≠ 0 ->
  Dir.GetLocalDepth d (Dir.GetSplitImageIndex d t) = Dir.GetLocalDepth d t ->
  let tp := Dir.GetBucketPageId d t in
  let ip := Dir.GetBucketPageId d (Dir.GetSplitImageIndex d t) in
  tp ≠ ip
  ∧ ∀ h, route h (merge_dir t d) = if (route h d =? tp)%Z then ip else route h d.
Proof.
  intros Hwf Ht H0 Heq tp ip.
  pose proof (GetSplitImageIndex_lt d t Hwf Ht H0) as Him.
  assert (Hne : tp ≠ ip).
  { intros E. destruct Hwf as [_ Hd]. destruct (Hd t Ht) as [_ Hj].
    destruct (Hj _ Him) as [Hpage _]. symmetry in E. apply Hpage in E.
    apply (image_not_agree t (Dir.GetLocalDepth d t)); [lia|exact E]. }
  split; [exact Hne|]. intros h.
  destruct (Z.eqb_spec (route h d) tp) as [E|E]; [|by apply merge_dir_spec].
  destruct (merge_loop_slots d t Hwf Ht H0 Heq) as (Hw4 & Hg4 & Hx4).
  pose proof (merged_wf d t Hwf Ht H0 Heq) as Hwf4.
  unfold merge_dir. cbv zeta in Hwf4 |- *. fold tp ip in Hx4, Hg4, Hw4, Hwf4 |- *.
  set (d3 := Dir.DecrLocalDepth _ (Dir.GetSplitImageIndex d t)) in *.
  set (d4 := merge_loop _ 0 tp ip t d3) in *.
  destruct (shrink_loop_spec (S (N.to_nat (Dir.GetGlobalDepth d4))) d4 Hwf4) as [_ Hr].
  rewrite Hr. unfold route in E |- *. rewrite GlobalDepthMask_ones in E.
  rewrite GlobalDepthMask_ones, Hg4.
  set (x := N.land h (N.ones (Dir.GetGlobalDepth d))) in *.
  assert (Hx : x < Dir.Size d) by (rewrite Size_pow; apply land_ones_lt).
  destruct (Hx4 x Hx) as [Hin Hout].
  destruct (N.eq_dec (N.land x (N.ones (Dir.GetLocalDepth d t - 1)))
                     (N.land t (N.ones (Dir.GetLocalDepth d t - 1)))) as [Cx|Cx].
  - by destruct (Hin Cx) as (Ep & _).
  - by destruct (Hout Cx) as (_ & _ & Hn & _).
Qed.

(** What [Merge] leaves of an aligned directory. *)
Lemma merge_dir_result d t :
  dir_wf d -> t < Dir.Size d -> Dir.GetLocalDepth d t ≠ 0 ->
  Dir.GetLocalDepth d (Dir.GetSplitImageIndex d t) = Dir.GetLocalDepth d t ->
  dir_wf (merge_dir t d)
  ∧ Dir.CanShrink (merge_dir t d) = false
  ∧ Dir.GetGlobalDepth (merge_dir t d) <= Dir.GetGlobalDepth d
  ∧ merge_assert t d = true.
Proof.
  intros Hwf Ht H0 Heq.
  pose proof (GetSplitImageIndex_lt d t Hwf Ht H0) as Him.
  destruct (merge_loop_slots d t Hwf Ht H0 Heq) as (Hw4 & Hg4 & _).
  pose proof (merged_wf d t Hwf Ht H0 Heq) as Hwf4.
  split; [by apply merge_dir_spec|].
  unfold merge_dir, merge_assert. cbv zeta in Hwf4 |- *.
  set (ip := Dir.GetBucketPageId d (Dir.GetSplitImageIndex d t)) in *.
  set (d3 := Dir.DecrLocalDepth _ (Dir.GetSplitImageIndex d t)) in *.
  set (d4 := merge_loop _ 0 _ ip t d3) in *.
  split; [apply shrink_loop_stops; [done|lia]|].
  split; [etrans; [apply GetGlobalDepth_shrink_loop|by rewrite Hg4]|].
  assert (Hne : t ≠ Dir.GetSplitImageIndex d t).
  { intros E. apply (image_not_agree t (Dir.GetLocalDepth d t)); [lia|].
    unfold Dir.GetSplitImageIndex in E. by rewrite <- E. }
  destruct Hwf as [Hw _].
  assert (Hw2 : well_sized (Dir.SetBucketPageId d t ip))
    by (by apply well_sized_SetBucketPageId).
  assert (Hw2' : well_sized (Dir.DecrLocalDepth (Dir.SetBucketPageId d t ip) t))
    by (by apply well_sized_SetLocalDepth).
  apply N.eqb_eq. subst d3. rewrite !GetLocalDepth_DecrLocalDepth by done.
  rewrite !GetLocalDepth_SetBucketPageId.
  repeat case_decide; try done; congruence.
Qed.

End DirMore.


(** ** More on the bucket page *)

Section BucketMore.

Context {K V : Type} `{!EqDecision K, !EqDecision V}.

Implicit Types (b : Bucket.bucket K V) (key : K) (value : V).

Lemma GetArrayCopy_cons (sl : Bucket.slot K V) b :
  Bucket.GetArrayCopy (sl :: b)
  = match sl with
    | Bucket.Live k v => (k, v) :: Bucket.GetArrayCopy b
    | _ => Bucket.GetArrayCopy b
    end.
Proof. by destruct sl. Qed.

Lemma put_pairs_sub key value b x :
  x ∈ Bucket.GetArrayCopy (Bucket.put key value b) ->
  x = (key, value) ∨ x ∈ Bucket.GetArrayCopy b.
Proof.
  induction b as [|sl b IH]; cbn [Bucket.put]; [by right|].
  destruct sl; rewrite !GetArrayCopy_cons, ?elem_of_cons; tauto.
Qed.

Lemma NoDup_put key value b :
  (key, value) ∉ Bucket.GetArrayCopy b -> NoDup (Bucket.GetArrayCopy b) ->
  NoDup (Bucket.GetArrayCopy (Bucket.put key value b)).
Proof.
  induction b as [|sl b IH]; cbn [Bucket.put]; [done|].
  destruct sl as [| |k v]; rewrite !GetArrayCopy_cons.
  - intros. by apply NoDup_cons.
  - intros. by apply NoDup_cons.
  - rewrite !NoDup_cons, not_elem_of_cons. intros [Hne Hnot] [Hk Hnd].
    split; [|by apply IH]. intros [E|Hin]%put_pairs_sub; [by subst|done].
Qed.

Lemma clear_pairs_sub key value b x :
  x ∈ Bucket.GetArrayCopy (Bucket.clear key value b) -> x ∈ Bucket.GetArrayCopy b.
Proof.
  induction b as [|sl b IH]; cbn [Bucket.clear]; [done|].
  destruct (Bucket.holds key value sl) eqn:E.
  - apply holds_Live in E as ->. rewrite !GetArrayCopy_cons. by right.
  - destruct sl; rewrite !GetArrayCopy_cons, ?elem_of_cons; tauto.
Qed.

Lemma NoDup_clear key value b :
  NoDup (Bucket.GetArrayCopy b) ->
  NoDup (Bucket.GetArrayCopy (Bucket.clear key value b)).
Proof.
  induction b as [|sl b IH]; cbn [Bucket.clear]; [done|].
  destruct (Bucket.holds key value sl) eqn:E.
  - apply holds_Live in E as ->. rewrite !GetArrayCopy_cons. by intros [_ ?]%NoDup_cons.
  - destruct sl as [| |k v]; rewrite !GetArrayCopy_cons; try exact IH.
    rewrite !NoDup_cons. intros [Hk Hnd]. split; [|by apply IH].
    intros Hin%clear_pairs_sub. done.
Qed.

(** Among distinct pairs, [clear] removes the pair for good. *)
Lemma clear_gone key value b :
  NoDup (Bucket.GetArrayCopy b) ->
  (key, value) ∉ Bucket.GetArrayCopy (Bucket.clear key value b).
Proof.
  induction b as [|sl b IH]; cbn [Bucket.clear]; [intros _ ?%elem_of_nil; done|].
  destruct (Bucket.holds key value sl) eqn:E.
  - apply holds_Live in E as ->. rewrite !GetArrayCopy_cons. by intros [? _]%NoDup_cons.
  - destruct sl as [| |k v]; rewrite !GetArrayCopy_cons; try exact IH.
    rewrite NoDup_cons, not_elem_of_cons. intros [Hk Hnd]. split; [|by apply IH].
    intros [= -> ->]. cbn in E. by rewrite !bool_decide_eq_true_2 in E.
Qed.

Lemma length_clear key value b : length (Bucket.clear key value b) = length b.
Proof.
  induction b as [|sl b IH]; cbn [Bucket.clear]; [done|].
  destruct (Bucket.holds key value sl); cbn; by rewrite ?IH.
Qed.

(** What [Insert] and [Remove] of the bucket keep. *)
Lemma Insert_keeps_order key value b :
  NoDup (Bucket.GetArrayCopy b) ->
  NoDup (Bucket.GetArrayCopy (snd (Bucket.Insert key value b)))
  ∧ length (snd (Bucket.Insert key value b)) = length b
  ∧ ∀ x, x ∈ Bucket.GetArrayCopy (snd (Bucket.Insert key value b)) ->
         x = (key, value) ∨ x ∈ Bucket.GetArrayCopy b.
Proof.
  intros Hnd. unfold Bucket.Insert.
  destruct (existsb _ b) eqn:E; cbn; [by auto|].
  destruct (Bucket.IsFull b); cbn; [by auto|].
  split; [|split; [apply length_put|intros x; apply put_pairs_sub]].
  apply NoDup_put; [|done]. intros Hin%existsb_holds. congruence.
Qed.

Lemma Remove_keeps_order key value b :
  NoDup (Bucket.GetArrayCopy b) ->
  NoDup (Bucket.GetArrayCopy (snd (Bucket.Remove key value b)))
  ∧ length (snd (Bucket.Remove key value b)) = length b
  ∧ ((key, value) ∉ Bucket.GetArrayCopy (snd (Bucket.Remove key value b)))
  ∧ ∀ x, x ∈ Bucket.GetArrayCopy (snd (Bucket.Remove key value b)) ->
         x ∈ Bucket.GetArrayCopy b.
Proof.
  intros Hnd. unfold Bucket.Remove.
  destruct (existsb _ b) eqn:E; cbn.
  - split; [by apply NoDup_clear|]. split; [apply length_clear|].
    split; [by apply clear_gone|intros x; apply clear_pairs_sub].
  - split; [done|]. split; [done|]. split; [|done].
    intros Hin%existsb_holds. congruence.
Qed.

End BucketMore.

Section Further.

Context {K V : Type} `{!EqDecision K, !EqDecision V, !TableParams K}.

Implicit Types (s : table K V) (p q : Z) (d : Dir.directory) (key : K) (value : V).

(** ** The directory page, created on first use *)

Lemma IsEmpty_zeroed : Bucket.IsEmpty (zeroed_bucket (K:=K) (V:=V)) = true.
Proof. apply IsEmpty_pairs. unfold zeroed_bucket. apply GetArrayCopy_unused. Qed.

(** A directory of depth 0 is aligned, whatever its only slot names. *)
Lemma aligned_depth_0 (id p : Z) : aligned (Dir.mkDirectory id 0 [0] [p]) = true.
Proof.
  apply aligned_spec. split; [by split|]. intros i Hi.
  assert (i = 0) as -> by (change (Dir.Size _) with 1 in Hi; lia).
  split; [done|]. intros j Hj.
  assert (j = 0) as -> by (change (Dir.Size _) with 1 in Hj; lia).
  done.
Qed.

Lemma boot_dir_aligned s :
  startable s -> aligned (dir_page s) = true -> aligned (dir_page (booted s)) = true.
Proof.
  intros Hs Hal. unfold booted. cbn. unfold boot_dir.
  destruct (Z.eqb _ _); [apply aligned_depth_0|done].
Qed.

(** X1.  [FetchDirectoryPage] on a table that has no directory yet: the
    buffer pool hands out two pages, the first becomes the directory page
    (global depth 0, its single slot at local depth 0), the second the
    bucket of that slot, empty; both are unpinned dirty and the directory
    page is then fetched, so that it alone stays pinned.  The directory is
    aligned.  A second call allocates nothing and finds the same
    directory. *)
Theorem X1_FetchDirectoryPage_creates_once s :
  directory_page_id_ s = INVALID_PAGE_ID -> next_page_id s ≠ INVALID_PAGE_ID ->
  let np := next_page_id s in
  ∃ s1, FetchDirectoryPage s = Done tt s1
    ∧ directory_page_id_ s1 = np
    ∧ dir_page s1 = Dir.mkDirectory np 0 [0] [(np + 1)%Z]
    ∧ aligned (dir_page s1) = true
    ∧ Bucket.IsEmpty (bucket_at (buckets s1) (np + 1)) = true
    ∧ next_page_id s1 = (np + 1 + 1)%Z
    ∧ (∀ p, pin_count s1 p = pin np (pin_count s) p)
    ∧ table_latch_ s1 = table_latch_ s
    ∧ trace s1 = [EvFetchPage np; EvUnpinPage (np + 1) true; EvUnpinPage np true;
                  EvNewPage (np + 1); EvNewPage np] ++ trace s
    ∧ ∃ s2, FetchDirectoryPage s1 = Done tt s2
        ∧ directory_page_id_ s2 = np
        ∧ dir_page s2 = dir_page s1
        ∧ buckets s2 = buckets s1
        ∧ next_page_id s2 = next_page_id s1
        ∧ trace s2 = EvFetchPage np :: trace s1.
Proof.
  intros Hid Hnp np.
  assert (Hs : startable s) by (right; done).
  rewrite (FetchDirectoryPage_Done s Hs).
  eexists. split; [reflexivity|].
  unfold booted, boot_id, boot_dir, boot_buckets, boot_pins, boot_next, boot_events.
  rewrite Hid. change (INVALID_PAGE_ID =? INVALID_PAGE_ID)%Z with true. cbn.
  fold np.
  split; [done|]. split; [done|]. split; [apply aligned_depth_0|].
  split; [rewrite bucket_at_delete; apply IsEmpty_zeroed|].
  split; [done|].
  split.
  { intros p. cbv [pin unpin].
    repeat match goal with
           | |- context [(?a =? ?b)%Z] => destruct (Z.eqb_spec a b)
           end; lia. }
  split; [done|]. split; [done|].
  match goal with |- ∃ s2, FetchDirectoryPage ?x = _ ∧ _ => set (s1 := x) end.
  assert (Ha1 : attached s1) by (split; [exact Hnp|reflexivity]).
  rewrite (FetchDirectoryPage_Done s1 (or_introl Ha1)), (booted_attached s1 Ha1).
  eexists. split; [reflexivity|]. done.
Qed.

(** ** Single calls on any table *)

Lemma Insert_pairs key value (b : Bucket.bucket K V) x :
  Bucket.IsFull b = false ->
  x ∈ Bucket.GetArrayCopy (snd (Bucket.Insert key value b))
  <-> x = (key, value) ∨ x ∈ Bucket.GetArrayCopy b.
Proof.
  intros Hf. destruct (fst (Bucket.Insert key value b)) eqn:E.
  - unfold Bucket.Insert in *. rewrite Hf, orb_false_r in *.
    destruct (existsb _ b); [done|]. cbn. by apply put_pairs.
  - rewrite (Insert_rejected _ _ _ E). apply (Insert_false _ _ _ Hf) in E.
    split; [by right|]. by intros [->|?].
Qed.

(** X2.  [GetValue] reads the bucket the key is routed to and nothing
    else: its result holds exactly the values stored with the key, it
    returns false exactly when there is none, and it leaves the directory,
    the buckets, the pin counts and the table latch as they were. *)
Theorem X2_GetValue_reads_the_routed_bucket s key :
  table_latch_ s = latch_free -> startable s ->
  let d := dir_page (booted s) in
  let b := bucket_at (buckets (booted s)) (KeyToPageId key d) in
  ∃ found result s',
    GetValue key s = Done (found, result) s'
    ∧ (∀ v, v ∈ result <-> (key, v) ∈ Bucket.GetArrayCopy b)
    ∧ (found = false <-> ∀ v, (key, v) ∉ Bucket.GetArrayCopy b)
    ∧ dir_page s' = d
    ∧ buckets s' = buckets (booted s)
    ∧ (∀ p, pin_count s' p = pin_count s p)
    ∧ table_latch_ s' = latch_free.
Proof.
  intros Hl Hs d b.
  destruct (GetValue_Done s key Hl Hs) as (s' & Hrun & Hpost).
  fold d b in Hrun, Hpost.
  destruct Hpost as (_ & Hd & Hm & Hpin & _ & Hlatch & _).
  eexists _, _, s'. split; [exact Hrun|].
  split; [intros v; apply GetValue_pairs|].
  split; [|split; [done|split; [done|split; [done|congruence]]]].
  destruct (Bucket.GetValue key b) as [|v0 res] eqn:E; cbn.
  - split; [|done]. intros _ v Hin. apply GetValue_pairs in Hin.
    rewrite E in Hin. by apply elem_of_nil in Hin.
  - split; [done|]. intros Hnone. exfalso. apply (Hnone v0).
    apply GetValue_pairs. rewrite E. by left.
Qed.

(** X3.  [Insert] into a bucket that has room: it returns false exactly
    when the pair is already stored, and then the bucket is as it was;
    otherwise the pair is added to the pairs of its bucket.  The other
    buckets, the directory, the pin counts and the table latch are as
    before. *)
Theorem X3_Insert_with_room s fuel key value :
  table_latch_ s = latch_free -> startable s ->
  let d := dir_page (booted s) in
  let p := KeyToPageId key d in
  let b := bucket_at (buckets (booted s)) p in
  Bucket.IsFull b = false ->
  ∃ r s',
    Insert (S fuel) key value s = Done r s'
    ∧ (r = false <-> (key, value) ∈ Bucket.GetArrayCopy b)
    ∧ (r = false -> bucket_at (buckets s') p = b)
    ∧ (∀ x, x ∈ Bucket.GetArrayCopy (bucket_at (buckets s') p)
            <-> x = (key, value) ∨ x ∈ Bucket.GetArrayCopy b)
    ∧ (∀ q, q ≠ p -> bucket_at (buckets s') q = bucket_at (buckets (booted s)) q)
    ∧ dir_page s' = d
    ∧ (∀ q, pin_count s' q = pin_count s q)
    ∧ table_latch_ s' = latch_free.
Proof.
  intros Hl Hs d p b Hf.
  destruct (Insert_fast s fuel key value Hl Hs Hf) as (s' & Hrun & Hpost).
  fold d p b in Hrun, Hpost.
  destruct Hpost as (_ & Hd & Hm & Hpin & _ & Hlatch & _).
  eexists _, s'. split; [exact Hrun|]. rewrite Hm.
  split; [by apply Insert_false|].
  split; [intros E; by rewrite bucket_at_insert, Insert_rejected|].
  split; [intros x; rewrite bucket_at_insert; by apply Insert_pairs|].
  split; [intros q Hq; by rewrite bucket_at_insert_ne|].
  split; [done|]. split; [done|]. congruence.
Qed.

(** X7.  [Insert] into a full bucket whose local depth has reached
    [MAX_BUCKET_DEPTH]: whatever the pair, stored or new, [SplitInsert]
    gives up and [Insert] returns false; the directory, the buckets and the
    pin counts are as before and the table latch is free again. *)
Theorem X7_Insert_full_at_max_depth s fuel key value :
  table_latch_ s = latch_free -> startable s ->
  let d := dir_page (booted s) in
  let b := bucket_at (buckets (booted s)) (KeyToPageId key d) in
  Bucket.IsFull b = true ->
  MAX_BUCKET_DEPTH <= Dir.GetLocalDepth d (KeyToDirectoryIndex key d) ->
  ∃ s', Insert (S fuel) key value s = Done false s'
        ∧ dir_page s' = d
        ∧ buckets s' = buckets (booted s)
        ∧ (∀ q, pin_count s' q = pin_count s q)
        ∧ table_latch_ s' = latch_free.
Proof.
  intros Hl Hs d b Hf Hge%N.leb_le.
  destruct (Insert_full s fuel key value Hl Hs Hf) as (s1 & -> & Hpost).
  assert (Hl1 : table_latch_ s1 = latch_free) by (by eapply post_latch_free).
  assert (Ha1 : attached s1) by (by eapply post_attached).
  pose proof (booted_attached s1 Ha1) as Hb1.
  destruct Hpost as (_ & Hd1 & Hm1 & Hpin1 & _).
  destruct (SplitInsert_full s1 (Insert fuel) key value Hl1 (or_introl Ha1))
    as (s' & -> & Hpost').
  { rewrite Hb1, Hd1. exact Hge. }
  rewrite Hb1 in Hpost'. destruct Hpost' as (_ & Hd' & Hm' & Hpin' & _ & Hlatch' & _).
  exists s'. split; [done|]. subst d.
  split; [congruence|]. split; [congruence|].
  split; [intros q; by rewrite Hpin', Hpin1|congruence].
Qed.

(** X9.  [Merge] of an empty bucket whose split image has its depth, while
    somebody still has the bucket page pinned: [DeletePage] refuses, and
    [Merge] stops on the assertion it makes on that call. *)
Theorem X9_Merge_stops_on_pinned_page s (t : N) :
  table_latch_ s = latch_free -> startable s ->
  let d := dir_page (booted s) in
  let tp := Dir.GetBucketPageId d t in
  Dir.GetLocalDepth d t ≠ 0 ->
  Dir.GetLocalDepth d t = Dir.GetLocalDepth d (Dir.GetSplitImageIndex d t) ->
  Bucket.IsEmpty (bucket_at (buckets (booted s)) tp) = true ->
  pin_count s tp ≠ O ->
  ∃ s', Merge t s = AssertFail s'.
Proof.
  intros Hl Hs d tp H0 Heq He Hpin.
  pose proof (Merge_merge s t Hl Hs) as Hm. cbv zeta in Hm. fold d tp in Hm.
  assert (Hskip : merge_skips d (buckets (booted s)) t = false).
  { unfold merge_skips. fold tp. rewrite He, <- Heq, N.eqb_refl.
    by rewrite (proj2 (N.eqb_neq _ _) H0). }
  specialize (Hm Hskip).
  destruct (pin_count s tp) eqn:E; [done|]. exact Hm.
Qed.

(** ** Latches taken and given back *)

Lemma latches_released_app evs1 evs2 :
  latches_released evs1 -> latches_released evs2 -> latches_released (evs1 ++ evs2).
Proof. intros H1 H2 l. rewrite !sum_list_with_app. by rewrite H1, H2. Qed.

Lemma latches_released_boot id np : latches_released (boot_events id np).
Proof. intros l. unfold boot_events. by destruct (id =? INVALID_PAGE_ID)%Z, l. Qed.

Ltac released :=
  let l := fresh "l" in
  intros l; rewrite !sum_list_with_app, ?(latches_released_boot _ _ l);
  destruct l; cbn;
  repeat match goal with |- context [(?a =? ?b)%Z] => destruct (Z.eqb_spec a b) end;
  try lia; try congruence.

Lemma post_released s s' d (m : gmap Z (Bucket.bucket K V)) evs :
  table_latch_ s = latch_free -> startable s -> post s s' d m evs ->
  Dir.GetPageId d = Dir.GetPageId (dir_page (booted s)) ->
  latches_released evs -> released_after s s'.
Proof.
  intros Hl Hs Hpost Hpg Hrel.
  destruct (post_rest _ _ _ _ _ Hl Hs Hpost Hpg) as (Hl' & Ha' & _).
  split; [done|]. split; [done|]. exists evs. split; [apply Hpost|done].
Qed.

Lemma released_after_trans s s1 s2 :
  released_after s s1 -> released_after s1 s2 -> released_after s s2.
Proof.
  intros (_ & _ & evs1 & Ht1 & Hr1) (Hl & Ha & evs2 & Ht2 & Hr2).
  split; [done|]. split; [done|]. exists (evs2 ++ evs1).
  split; [by rewrite Ht2, Ht1, app_assoc|by apply latches_released_app].
Qed.

Lemma Merge_released s (t : N) s' :
  table_latch_ s = latch_free -> startable s ->
  Merge t s = Done tt s' -> released_after s s'.
Proof.
  intros Hl Hs Hrun.
  destruct (merge_skips (dir_page (booted s)) (buckets (booted s)) t) eqn:Hskip.
  - destruct (Merge_skip s t Hl Hs Hskip) as (s1 & E1 & Hpost).
    rewrite E1 in Hrun. injection Hrun as <-.
    eapply post_released; [done..|].
    unfold merge_skip_events. destruct (_ || _); released.
  - pose proof (Merge_merge s t Hl Hs Hskip) as Hm. cbv zeta in Hm.
    destruct (_ && _).
    + destruct Hm as (s1 & E1 & Hpost). rewrite E1 in Hrun. injection Hrun as <-.
      eapply post_released; [done|done|exact Hpost|apply GetPageId_merge_dir|].
      unfold merge_events. released.
    + destruct Hm as (s1 & E1). by rewrite E1 in Hrun.
Qed.

Lemma Insert_released s fuel key value r s' :
  table_latch_ s = latch_free -> startable s ->
  Insert fuel key value s = Done r s' -> released_after s s'.
Proof.
  intros Hl Hs Hrun. destruct fuel as [|fuel]; [done|].
  destruct (Bucket.IsFull (bucket_at (buckets (booted s))
              (KeyToPageId key (dir_page (booted s))))) eqn:Hf.
  - destruct (MAX_BUCKET_DEPTH <=? Dir.GetLocalDepth (dir_page (booted s))
                (KeyToDirectoryIndex key (dir_page (booted s)))) eqn:Hmax.
    + destruct (Insert_full s fuel key value Hl Hs Hf) as (s1 & E1 & Hpost1).
      assert (Hr1 : released_after s s1) by (eapply post_released; [done..|released]).
      destruct Hr1 as (Hl1 & Ha1 & Hev1).
      destruct (post_rest _ _ _ _ _ Hl Hs Hpost1 eq_refl) as (_ & _ & Hd1 & _).
      destruct (SplitInsert_full s1 (Insert fuel) key value Hl1 (or_introl Ha1))
        as (s2 & E2 & Hpost2).
      { rewrite (booted_attached s1 Ha1), Hd1. exact Hmax. }
      rewrite E1, E2 in Hrun. injection Hrun as <- <-.
      apply (released_after_trans s s1 s2); [done|].
      eapply post_released; [done|by left|exact Hpost2|done|released].
    + exfalso.
      by apply (Insert_split_never_returns s (S fuel) key value Hl Hs Hf Hmax r s').
  - destruct (Insert_fast s fuel key value Hl Hs Hf) as (s1 & E1 & Hpost1).
    rewrite E1 in Hrun. injection Hrun as <- <-.
    eapply post_released; [done..|released].
Qed.

Lemma Remove_released s key value r s' :
  table_latch_ s = latch_free -> startable s ->
  Remove key value s = Done r s' -> released_after s s'.
Proof.
  intros Hl Hs Hrun.
  destruct (Remove_run s key value Hl Hs) as (s1 & Hpost1 & E1).
  assert (Hr1 : released_after s s1).
  { eapply post_released; [done..|]. unfold remove_events. released. }
  rewrite E1 in Hrun. destruct (Bucket.IsEmpty _).
  - apply bind_Done in Hrun as ([] & s2 & Hmerge & Hret). injection Hret as <- <-.
    apply (released_after_trans s s1 s2); [done|].
    destruct Hr1 as (Hl1 & Ha1 & _).
    exact (Merge_released s1 _ s2 Hl1 (or_introl Ha1) Hmerge).
  - by injection Hrun as <- <-.
Qed.

(** X8.  Whatever call of the interface returns, it has given back every
    latch it took: in the calls it made, each of the two modes of the
    table latch and the read and write latch of every page are released
    as often as they are acquired, and the table latch is free at the
    end. *)
Theorem X8_returning_call_releases_latches (fuel : nat) (c : call (K:=K) (V:=V)) s s' :
  table_latch_ s = latch_free -> startable s ->
  run_call fuel c s = Done tt s' ->
  table_latch_ s' = latch_free
  ∧ ∃ evs, trace s' = evs ++ trace s ∧ latches_released evs.
Proof.
  intros Hl Hs Hrun.
  cut (released_after s s'); [by intros (? & _ & ?)|].
  destruct c as [key|key value|key value| |]; cbn [run_call] in Hrun.
  - apply bind_Done in Hrun as (a & s1 & Hrun & Hret). injection Hret as <-.
    destruct (GetValue_Done s key Hl Hs) as (s2 & E & Hpost).
    rewrite E in Hrun. injection Hrun as _ <-.
    eapply post_released; [done..|released].
  - apply bind_Done in Hrun as (a & s1 & Hrun & Hret). injection Hret as <-.
    by eapply Insert_released.
  - apply bind_Done in Hrun as (a & s1 & Hrun & Hret). injection Hret as <-.
    by eapply Remove_released.
  - apply bind_Done in Hrun as (a & s1 & Hrun & Hret). injection Hret as <-.
    destruct (GetGlobalDepth_Done s Hl Hs) as (s2 & E & Hpost).
    rewrite E in Hrun. injection Hrun as _ <-.
    eapply post_released; [done..|released].
  - pose proof (VerifyIntegrity_run s Hl Hs) as Hv. cbv zeta in Hv.
    destruct (Dir.VerifyIntegrity _).
    + destruct Hv as (s2 & E & Hpost). rewrite E in Hrun. injection Hrun as <-.
      eapply post_released; [done..|released].
    + destruct Hv as (s2 & E). by rewrite E in Hrun.
Qed.

(** ** Tables in order *)

Lemma bucket_ok_intro d (m : gmap Z (Bucket.bucket K V)) p :
  (∀ x, x ∈ Bucket.GetArrayCopy (bucket_at m p) -> KeyToPageId (fst x) d = p) ->
  NoDup (Bucket.GetArrayCopy (bucket_at m p)) ->
  (length (bucket_at m p) <= BUCKET_ARRAY_SIZE)%nat ->
  bucket_ok d m p = true.
Proof.
  intros H1 H2 H3. unfold bucket_ok. cbv zeta.
  rewrite !andb_true_iff, forallb_forall. split; [split|].
  - intros x Hx%list_elem_of_In. by apply Z.eqb_eq, H1.
  - by apply bool_decide_eq_true.
  - by apply Nat.leb_le.
Qed.

Lemma bucket_ok_zeroed d (m : gmap Z (Bucket.bucket K V)) p :
  bucket_at m p = zeroed_bucket -> bucket_ok d m p = true.
Proof.
  intros E. apply bucket_ok_intro; rewrite E; unfold zeroed_bucket.
  - rewrite GetArrayCopy_unused. by intros x ?%elem_of_nil.
  - rewrite GetArrayCopy_unused. constructor.
  - by rewrite length_replicate.
Qed.

Lemma buckets_ok_spec d (m : gmap Z (Bucket.bucket K V)) :
  buckets_ok d m = true <-> ∀ p, bucket_ok d m p = true.
Proof.
  unfold buckets_ok. rewrite forallb_forall. split.
  - intros H p. destruct (m !! p) as [b|] eqn:E.
    + apply (H (p, b)), list_elem_of_In, elem_of_map_to_list, E.
    + apply bucket_ok_zeroed. unfold bucket_at. by rewrite E.
  - intros H [p b] _. apply H.
Qed.

(** The bucket of page [q] in [m'] is in order for [d'] when its pairs
    come from the bucket of [q] in [m], or are routed to [q], it has the
    length it had and its pairs are distinct. *)
Lemma bucket_ok_from d d' (m m' : gmap Z (Bucket.bucket K V)) q :
  bucket_ok d m q = true ->
  (∀ x, x ∈ Bucket.GetArrayCopy (bucket_at m' q) ->
        KeyToPageId (fst x) d' = q
        ∨ (x ∈ Bucket.GetArrayCopy (bucket_at m q)
           ∧ (KeyToPageId (fst x) d = q -> KeyToPageId (fst x) d' = q))) ->
  NoDup (Bucket.GetArrayCopy (bucket_at m' q)) ->
  length (bucket_at m' q) = length (bucket_at m q) ->
  bucket_ok d' m' q = true.
Proof.
  intros (Hhome & _ & Hlen)%bucket_ok_spec Hsub Hnd Hl.
  apply bucket_ok_intro; [|done|lia].
  intros x Hx. destruct (Hsub x Hx) as [?|[Hin Hr]]; [done|]. by apply Hr, Hhome.
Qed.

(** What a call that returns has done to the directory and the buckets. *)
Lemma Remove_effect s key value r s' :
  table_latch_ s = latch_free -> startable s ->
  Remove key value s = Done r s' ->
  let d := dir_page (booted s) in
  let p := KeyToPageId key d in
  let t := KeyToDirectoryIndex key d in
  let rr := Bucket.Remove key value (bucket_at (buckets (booted s)) p) in
  let m1 := <[p := snd rr]> (buckets (booted s)) in
  table_latch_ s' = latch_free ∧ attached s' ∧ r = fst rr
  ∧ ((dir_page s' = d ∧ buckets s' = m1)
     ∨ (merge_skips d m1 t = false
        ∧ dir_page s' = merge_dir t d
        ∧ buckets s' = delete (Dir.GetBucketPageId d t) m1)).
Proof.
  intros Hl Hs Hrun d p t rr m1.
  destruct (Remove_run s key value Hl Hs) as (s1 & Hpost1 & E1).
  fold d p rr in Hpost1, E1.
  destruct (post_rest _ _ _ _ _ Hl Hs Hpost1 eq_refl) as (Hl1 & Ha1 & Hd1 & Hm1).
  rewrite E1 in Hrun. destruct (Bucket.IsEmpty (snd rr)).
  - apply bind_Done in Hrun as ([] & s2 & Hmerge & Hret).
    injection Hret as <- <-.
    destruct (Merge_returns s1 _ s2 Hl1 Ha1 Hmerge) as (Hl2 & Ha2 & Hcase).
    rewrite Hd1, Hm1 in Hcase.
    split; [done|]. split; [done|]. split; [done|].
    destruct Hcase as [(_ & ? & ?)|(? & ? & ?)]; [by left|by right].
  - injection Hrun as <- <-.
    split; [done|]. split; [done|]. split; [done|]. by left.
Qed.

Lemma call_effect (fuel : nat) (c : call (K:=K) (V:=V)) s s' :
  table_latch_ s = latch_free -> startable s ->
  run_call fuel c s = Done tt s' ->
  let d := dir_page (booted s) in
  let m := buckets (booted s) in
  table_latch_ s' = latch_free ∧ attached s'
  ∧ match c with
    | CallInsert key value =>
        let p := KeyToPageId key d in
        dir_page s' = d
        ∧ (buckets s' = m
           ∨ buckets s' = <[p := snd (Bucket.Insert key value (bucket_at m p))]> m)
    | CallRemove key value =>
        let p := KeyToPageId key d in
        let t := KeyToDirectoryIndex key d in
        let m1 := <[p := snd (Bucket.Remove key value (bucket_at m p))]> m in
        (dir_page s' = d ∧ buckets s' = m1)
        ∨ (merge_skips d m1 t = false
           ∧ dir_page s' = merge_dir t d
           ∧ buckets s' = delete (Dir.GetBucketPageId d t) m1)
    | _ => dir_page s' = d ∧ buckets s' = m
    end.
Proof.
  intros Hl Hs Hrun d m.
  destruct c as [key|key value|key value| |]; cbn [run_call] in Hrun.
  - apply bind_Done in Hrun as (a & s1 & Hrun & Hret). injection Hret as <-.
    destruct (GetValue_Done s key Hl Hs) as (s2 & E & Hpost).
    rewrite E in Hrun. injection Hrun as _ <-.
    destruct (post_rest _ _ _ _ _ Hl Hs Hpost eq_refl) as (? & ? & ? & ?). done.
  - apply bind_Done in Hrun as (a & s1 & Hrun & Hret). injection Hret as <-.
    destruct (Insert_returns s fuel key value a s1 Hl Hs Hrun)
      as (Hl1 & Ha1 & Hd1 & Hcase).
    split; [done|]. split; [done|]. split; [done|].
    destruct Hcase as [(_ & _ & ?)|(_ & _ & ?)]; [by right|by left].
  - apply bind_Done in Hrun as (a & s1 & Hrun & Hret). injection Hret as <-.
    destruct (Remove_effect s key value a s1 Hl Hs Hrun) as (Hl1 & Ha1 & _ & Hcase).
    done.
  - apply bind_Done in Hrun as (a & s1 & Hrun & Hret). injection Hret as <-.
    destruct (GetGlobalDepth_Done s Hl Hs) as (s2 & E & Hpost).
    rewrite E in Hrun. injection Hrun as _ <-.
    destruct (post_rest _ _ _ _ _ Hl Hs Hpost eq_refl) as (? & ? & ? & ?). done.
  - pose proof (VerifyIntegrity_run s Hl Hs) as Hv. cbv zeta in Hv.
    destruct (Dir.VerifyIntegrity _).
    + destruct Hv as (s2 & E & Hpost). rewrite E in Hrun. injection Hrun as <-.
      destruct (post_rest _ _ _ _ _ Hl Hs Hpost eq_refl) as (? & ? & ? & ?). done.
    + destruct Hv as (s2 & E). by rewrite E in Hrun.
Qed.

(** The three effects keep an aligned directory with buckets in order. *)
Lemma Insert_keeps_order_at d (m : gmap Z (Bucket.bucket K V)) key value :
  (∀ q, bucket_ok d m q = true) ->
  let p := KeyToPageId key d in
  ∀ q, bucket_ok d (<[p := snd (Bucket.Insert key value (bucket_at m p))]> m) q = true.
Proof.
  intros Hok p q. destruct (decide (p = q)) as [<-|Hne].
  - destruct (bucket_ok_spec d m p (Hok p)) as (_ & Hnd & _).
    destruct (Insert_keeps_order key value _ Hnd) as (Hnd' & Hl' & Hsub).
    apply (bucket_ok_from d d m); rewrite ?bucket_at_insert; [done| |done|done].
    intros x [->|Hx]%Hsub; [by left|by right].
  - apply (bucket_ok_from d d m); rewrite ?bucket_at_insert_ne by done;
      [done| |by apply (bucket_ok_spec d m q)|done].
    intros x Hx. by right.
Qed.

Lemma Remove_keeps_order_at d (m : gmap Z (Bucket.bucket K V)) key value :
  (∀ q, bucket_ok d m q = true) ->
  let p := KeyToPageId key d in
  ∀ q, bucket_ok d (<[p := snd (Bucket.Remove key value (bucket_at m p))]> m) q = true.
Proof.
  intros Hok p q. destruct (decide (p = q)) as [<-|Hne].
  - destruct (bucket_ok_spec d m p (Hok p)) as (_ & Hnd & _).
    destruct (Remove_keeps_order key value _ Hnd) as (Hnd' & Hl' & _ & Hsub).
    apply (bucket_ok_from d d m); rewrite ?bucket_at_insert; [done| |done|done].
    intros x Hx%Hsub. by right.
  - apply (bucket_ok_from d d m); rewrite ?bucket_at_insert_ne by done;
      [done| |by apply (bucket_ok_spec d m q)|done].
    intros x Hx. by right.
Qed.

Lemma merge_skips_false d (m : gmap Z (Bucket.bucket K V)) (t : N) :
  merge_skips d m t = false ->
  Dir.GetLocalDepth d t ≠ 0
  ∧ Dir.GetLocalDepth d (Dir.GetSplitImageIndex d t) = Dir.GetLocalDepth d t
  ∧ Bucket.IsEmpty (bucket_at m (Dir.GetBucketPageId d t)) = true.
Proof.
  unfold merge_skips. intros Hskip.
  apply orb_false_elim in Hskip as [Hskip E2].
  apply orb_false_elim in Hskip as [E0 E1].
  apply negb_false_iff in E1, E2. apply N.eqb_neq in E0. apply N.eqb_eq in E1.
  done.
Qed.

Lemma Merge_keeps_order_at d (m : gmap Z (Bucket.bucket K V)) (t : N) :
  dir_wf d -> t < Dir.Size d -> merge_skips d m t = false ->
  (∀ q, bucket_ok d m q = true) ->
  ∀ q, bucket_ok (merge_dir t d) (delete (Dir.GetBucketPageId d t) m) q = true.
Proof.
  intros Hwf Ht (H0 & Heq & _)%merge_skips_false Hok q.
  destruct (merge_dir_spec d t Hwf Ht H0 Heq) as [_ Hroute].
  destruct (decide (q = Dir.GetBucketPageId d t)) as [->|Hne].
  - apply bucket_ok_zeroed, bucket_at_delete.
  - apply (bucket_ok_from d _ m); rewrite ?bucket_at_delete_ne by done;
      [done| |by apply (bucket_ok_spec d m q)|done].
    intros x Hx. right. split; [done|]. intros E.
    change (route (Hash (fst x)) (merge_dir t d) = q).
    rewrite Hroute; [done|]. change (KeyToPageId (fst x) d ≠ Dir.GetBucketPageId d t).
    congruence.
Qed.

Lemma call_keeps_order (fuel : nat) (c : call (K:=K) (V:=V)) s s' :
  table_ok s -> run_call fuel c s = Done tt s' -> table_ok s'.
Proof.
  intros (Hl & Hs & Hal & Hok) Hrun.
  destruct (call_effect fuel c s s' Hl Hs Hrun) as (Hl' & Ha' & Heff).
  unfold table_ok. rewrite (booted_attached s' Ha').
  split; [done|]. split; [by left|].
  rewrite buckets_ok_spec in Hok |- *.
  set (d := dir_page (booted s)) in *. set (m := buckets (booted s)) in *.
  destruct c as [key|key value|key value| |]; cbv zeta in Heff.
  - destruct Heff as [-> ->]. done.
  - destruct Heff as [-> [->| ->]]; [done|].
    split; [done|]. by apply Insert_keeps_order_at.
  - pose proof (Remove_keeps_order_at d m key value Hok) as Hok1.
    destruct Heff as [[-> ->]|(Hskip & -> & ->)]; [done|].
    apply aligned_spec in Hal.
    pose proof (KeyToDirectoryIndex_lt key d) as Ht.
    destruct (merge_skips_false _ _ _ Hskip) as (H0 & Heq & _).
    split; [by apply aligned_spec, merge_dir_spec|].
    by apply Merge_keeps_order_at.
  - destruct Heff as [-> ->]. done.
  - destruct Heff as [-> ->]. done.
Qed.

(** X5.  The index keeps itself in order.  If nobody holds the table
    latch, the directory (once created) is aligned and every bucket holds
    distinct pairs, each routed to it, in no more than [BUCKET_ARRAY_SIZE]
    slots, then the same holds after any sequence of calls of the
    interface that return. *)
Theorem X5_calls_keep_the_table_in_order (fuel : nat)
    (cs : list (call (K:=K) (V:=V))) : ∀ s s',
  table_ok s -> run_calls fuel cs s = Done tt s' -> table_ok s'.
Proof.
  induction cs as [|c cs IH]; intros s s' Hok Hrun.
  - by injection Hrun as <-.
  - cbn [run_calls] in Hrun. apply bind_Done in Hrun as ([] & s1 & Hc & Hcs).
    apply (IH s1 s'); [|done]. by apply (call_keeps_order fuel c s).
Qed.

(** ** Merge and Remove on a table in order *)

(** X6.  [Merge] of an empty bucket at a slot whose split image has its
    local depth, the bucket page being pinned by nobody: the page is
    deleted, the hash values that were routed to it go to the page of the
    split image and all others where they went; the directory is aligned
    again, passes the check of [VerifyIntegrity], has not grown, and has
    been shrunk as far as it can be. *)
Theorem X6_Merge_folds_bucket_into_image s (t : N) :
  table_latch_ s = latch_free -> attached s ->
  let d := dir_page s in
  let tp := Dir.GetBucketPageId d t in
  let ip := Dir.GetBucketPageId d (Dir.GetSplitImageIndex d t) in
  aligned d = true -> t < Dir.Size d ->
  Dir.GetLocalDepth d t ≠ 0 ->
  Dir.GetLocalDepth d t = Dir.GetLocalDepth d (Dir.GetSplitImageIndex d t) ->
  Bucket.IsEmpty (bucket_at (buckets s) tp) = true ->
  pin_count s tp = O -> tp ≠ directory_page_id_ s ->
  ∃ s', Merge t s = Done tt s'
    ∧ buckets s' = delete tp (buckets s)
    ∧ tp ≠ ip
    ∧ (∀ h, route h (dir_page s') = if (route h d =? tp)%Z then ip else route h d)
    ∧ aligned (dir_page s') = true
    ∧ Dir.VerifyIntegrity (dir_page s') = true
    ∧ Dir.CanShrink (dir_page s') = false
    ∧ Dir.GetGlobalDepth (dir_page s') <= Dir.GetGlobalDepth d
    ∧ (∀ q, pin_count s' q = pin_count s q)
    ∧ table_latch_ s' = latch_free
    ∧ EvDeletePage tp ∈ trace s'.
Proof.
  intros Hl Ha d tp ip Hal%aligned_spec Ht H0 Heq He Hpin Hne.
  destruct (merge_dir_result d t Hal Ht H0 (eq_sym Heq)) as (Hwf' & Hcs & Hgd & Hassert).
  destruct (merge_dir_routes d t Hal Ht H0 (eq_sym Heq)) as [Hpages Hroute].
  pose proof (Merge_merge s t Hl (or_introl Ha)) as Hm.
  rewrite (booted_attached s Ha) in Hm. cbv zeta in Hm. fold d tp in Hm.
  assert (Hskip : merge_skips d (buckets s) t = false).
  { unfold merge_skips. fold tp. rewrite He, <- Heq, N.eqb_refl.
    by rewrite (proj2 (N.eqb_neq _ _) H0). }
  specialize (Hm Hskip).
  rewrite Hpin, Hassert, (proj2 (Z.eqb_neq _ _) Hne) in Hm. cbn in Hm.
  destruct Hm as (s' & Hrun & Hpost).
  destruct Hpost as (_ & Hd' & Hm' & Hpin' & _ & Hlatch' & Htr').
  exists s'. rewrite Hd'.
  split; [done|]. split; [done|]. split; [done|]. split; [done|].
  split; [by apply aligned_spec|]. split; [by apply dir_wf_VerifyIntegrity|].
  split; [done|]. split; [done|]. split; [done|]. split; [congruence|].
  rewrite Htr'. unfold merge_events. rewrite !elem_of_app, !elem_of_cons. tauto.
Qed.

(** X4.  Remove/Lookup.  On a table in order, after [Remove key value]
    has returned, [GetValue key] no longer finds [value], whether or not
    the removal emptied the bucket and merged it away; [Remove] returned
    true exactly when the pair was stored; and the table is in order
    again. *)
Theorem X4_removed_pair_is_gone s key value r s' :
  table_ok s -> Remove key value s = Done r s' ->
  (r = true <-> stored key value (booted s))
  ∧ table_ok s'
  ∧ (¬ stored key value s')
  ∧ ∃ found result s'',
      GetValue key s' = Done (found, result) s'' ∧ value ∉ result.
Proof.
  intros Hok Hrun. pose proof Hok as (Hl & Hs & Hal & Hbs).
  destruct (Remove_effect s key value r s' Hl Hs Hrun) as (Hl' & Ha' & Hr & Heff).
  set (d := dir_page (booted s)) in *. set (m := buckets (booted s)) in *.
  set (p := KeyToPageId key d) in *.
  rewrite buckets_ok_spec in Hbs.
  destruct (bucket_ok_spec d m p (Hbs p)) as (_ & Hnd & _).
  destruct (Remove_keeps_order key value _ Hnd) as (_ & _ & Hgone & _).
  split; [|split].
  - rewrite Hr. unfold stored. fold d m p.
    pose proof (Remove_false key value (bucket_at m p)) as Hf.
    destruct (fst (Bucket.Remove key value (bucket_at m p))).
    + split; [intros _|done]. destruct (decide ((key, value) ∈
        Bucket.GetArrayCopy (bucket_at m p))) as [?|Hn]; [done|].
      by apply Hf in Hn.
    + split; [done|]. intros Hin. exfalso. exact (proj1 Hf eq_refl Hin).
  - apply (call_keeps_order 0 (CallRemove key value) s); [done|].
    cbn [run_call]. unfold bind. by rewrite Hrun.
  - cut (¬ stored key value s').
    { intros Hns. split; [exact Hns|].
      destruct (GetValue_returns s' key Hl' Ha') as (s'' & E & _).
      eexists _, _, s''. split; [exact E|]. by rewrite GetValue_pairs. }
    unfold stored.
    destruct Heff as [[-> ->]|(Hskip & -> & ->)].
    + fold p. by rewrite bucket_at_insert.
    + apply aligned_spec in Hal.
      pose proof (KeyToDirectoryIndex_lt key d) as Ht.
      destruct (merge_skips_false _ _ _ Hskip) as (H0 & Heq & _).
      destruct (merge_dir_routes d _ Hal Ht H0 Heq) as [Hne Hroute].
      change (KeyToPageId key (merge_dir (KeyToDirectoryIndex key d) d))
        with (route (Hash key) (merge_dir (KeyToDirectoryIndex key d) d)).
      rewrite Hroute.
      change (route (Hash key) d) with p.
      change (Dir.GetBucketPageId d (KeyToDirectoryIndex key d)) with p in Hne |- *.
      rewrite Z.eqb_refl.
      set (ip := Dir.GetBucketPageId d _) in *.
      rewrite bucket_at_delete_ne, bucket_at_insert_ne by done.
      intros Hin. destruct (bucket_ok_spec d m ip (Hbs ip)) as (Hhome & _).
      apply Hhome in Hin. change (p = ip) in Hin. congruence.
Qed.

(** X10.  No pair is stored twice.  After [Insert key value] has returned
    true, and whatever calls other than [Remove key value] have returned
    since, a further [Insert key value] that returns, returns false and
    leaves the directory and the content of every bucket as they were. *)
Theorem X10_second_insert_is_rejected s fuel key value s1
    (cs : list (call (K:=K) (V:=V))) s2 r s3 :
  table_latch_ s = latch_free -> startable s ->
  aligned (dir_page (booted s)) = true ->
  Insert fuel key value s = Done true s1 ->
  CallRemove key value ∉ cs ->
  run_calls fuel cs s1 = Done tt s2 ->
  Insert fuel key value s2 = Done r s3 ->
  r = false
  ∧ dir_page s3 = dir_page s2
  ∧ ∀ q, bucket_at (buckets s3) q = bucket_at (buckets s2) q.
Proof.
  intros Hl Hs Hal Hins Hnot Hrun Hagain.
  destruct (Insert_returns s fuel key value true s1 Hl Hs Hins)
    as (Hl1 & Ha1 & Hd1 & Hcase).
  destruct Hcase as [(_ & Htrue & Hm1)|(_ & ? & _)]; [|done].
  assert (Hin1 : stored key value s1).
  { unfold stored. rewrite Hd1, Hm1, bucket_at_insert. by apply Insert_true. }
  assert (Hrest1 : at_rest s1) by (unfold at_rest; by rewrite Hd1).
  destruct (calls_keep_pair fuel key value cs s1 s2 Hrest1 Hin1 Hnot Hrun)
    as [(Hl2 & Ha2 & _) Hin2].
  destruct (Insert_returns s2 fuel key value r s3 Hl2 (or_introl Ha2) Hagain)
    as (_ & _ & Hd3 & Hcase).
  rewrite (booted_attached s2 Ha2) in Hd3, Hcase. unfold stored in Hin2.
  split; [|split; [done|]].
  - destruct Hcase as [(Hf & -> & _)|(_ & -> & _)]; [|done].
    by apply Insert_false.
  - intros q. destruct Hcase as [(Hf & Hr & ->)|(_ & _ & ->)]; [|done].
    destruct (decide (KeyToPageId key (dir_page s2) = q)) as [<-|Hne].
    + rewrite bucket_at_insert. apply Insert_rejected. by apply Insert_false.
    + by rewrite bucket_at_insert_ne.
Qed.

(** X11.  On a table in order the call [VerifyIntegrity] returns: the
    check of the directory passes, so the assertion does not fire; the
    directory and the buckets are left as they were. *)
Theorem X11_VerifyIntegrity_passes s :
  table_ok s ->
  ∃ s', VerifyIntegrity s = Done tt s'
        ∧ dir_page s' = dir_page (booted s)
        ∧ buckets s' = buckets (booted s)
        ∧ table_latch_ s' = latch_free.
Proof.
  intros (Hl & Hs & Hal%aligned_spec & _).
  pose proof (VerifyIntegrity_run s Hl Hs) as Hv. cbv zeta in Hv.
  rewrite (dir_wf_VerifyIntegrity _ Hal) in Hv.
  destruct Hv as (s' & Hrun & Hpost). exists s'. split; [exact Hrun|].
  destruct (post_rest _ _ _ _ _ Hl Hs Hpost eq_refl) as (? & _ & ? & ?). done.
Qed.

(** X12.  [Remove] always returns on a table in order on which no page is
    pinned and whose directory page is not the page of a bucket: none of
    its assertions, nor those of the [Merge] it may call, fires, and the
    table latch is free when they need it.  No page is pinned
    afterwards. *)
Theorem X12_Remove_returns s key value :
  table_ok s -> quiescent s ->
  ∃ r s', Remove key value s = Done r s' ∧ ∀ p, pin_count s' p = O.
Proof.
  intros (Hl & Hs & Hal%aligned_spec & _) [Hpins Hdir].
  destruct (Remove_run s key value Hl Hs) as (s1 & Hpost1 & E1).
  set (d := dir_page (booted s)) in *.
  set (t := KeyToDirectoryIndex key d) in *.
  destruct (post_rest _ _ _ _ _ Hl Hs Hpost1 eq_refl) as (Hl1 & Ha1 & Hd1 & Hm1).
  assert (Hpin1 : ∀ p, pin_count s1 p = O).
  { intros p. destruct Hpost1 as (_ & _ & _ & Hp & _). by rewrite Hp. }
  rewrite E1. destruct (Bucket.IsEmpty _); [|by eauto].
  assert (Hmerge : ∃ s', Merge t s1 = Done tt s' ∧ ∀ p, pin_count s' p = O).
  { destruct (merge_skips (dir_page (booted s1)) (buckets (booted s1)) t) eqn:Hskip.
    - destruct (Merge_skip s1 t Hl1 (or_introl Ha1) Hskip) as (s' & Hrun & Hpost).
      exists s'. split; [done|]. intros p.
      destruct Hpost as (_ & _ & _ & Hp & _). by rewrite Hp.
    - pose proof (Merge_merge s1 t Hl1 (or_introl Ha1) Hskip) as Hm. cbv zeta in Hm.
      rewrite (booted_attached s1 Ha1), Hd1 in Hm, Hskip.
      destruct (merge_skips_false _ _ _ Hskip) as (H0 & Heq & _).
      pose proof (KeyToDirectoryIndex_lt key d) as Ht. fold t in Ht.
      destruct (merge_dir_result d t Hal Ht H0 Heq) as (_ & _ & _ & Hassert).
      rewrite Hpin1, Hassert in Hm.
      assert (Hne : (Dir.GetBucketPageId d t =? directory_page_id_ s1)%Z = false).
      { rewrite forallb_slots in Hdir. specialize (Hdir t Ht).
        apply negb_true_iff in Hdir. destruct Hpost1 as (Hid & _). by rewrite Hid. }
      rewrite Hne in Hm. cbn [Nat.eqb negb andb] in Hm.
      destruct Hm as (s' & Hrun & Hpost).
      exists s'. split; [done|]. intros p.
      destruct Hpost as (_ & _ & _ & Hp & _). by rewrite Hp. }
  destruct Hmerge as (s' & Hrun & Hp). unfold bind. rewrite Hrun. cbn. eauto.
Qed.

End Further.

(** ** The further properties on the example tables *)

Section FurtherExamples.

Import Sample.

Lemma new_table_ok : table_ok (new_table : table Z Z).
Proof.
  split; [reflexivity|]. split; [apply new_table_ready|].
  split; vm_compute; reflexivity.
Defined.

Lemma comb_table_ok : table_ok comb_table.
Proof.
  split; [reflexivity|]. split; [left; apply comb_table_ready|].
  split; vm_compute; reflexivity.
Defined.

Lemma with_4_ready : table_latch_ with_4 = latch_free ∧ attached with_4.
Proof.
  split; [vm_compute; reflexivity|].
  split; [vm_compute; discriminate|vm_compute; reflexivity].
Defined.

Lemma with_4_ok : table_ok with_4.
Proof.
  split; [apply with_4_ready|]. split; [left; apply with_4_ready|].
  split; vm_compute; reflexivity.
Defined.

Lemma X1_witness :
  directory_page_id_ (new_table : table Z Z) = INVALID_PAGE_ID
  ∧ next_page_id (new_table : table Z Z) ≠ INVALID_PAGE_ID
  ∧ ∃ s1, FetchDirectoryPage (new_table : table Z Z) = Done tt s1
      ∧ directory_page_id_ s1 = 0%Z
      ∧ dir_page s1 = Dir.mkDirectory 0 0 [0] [1%Z]
      ∧ ∃ s2, FetchDirectoryPage s1 = Done tt s2
          ∧ trace s2 = EvFetchPage 0 :: trace s1.
Proof.
  split; [reflexivity|]. split; [discriminate|].
  destruct (X1_FetchDirectoryPage_creates_once (new_table : table Z Z)
              eq_refl ltac:(discriminate))
    as (s1 & Hrun & Hid & Hd & _ & _ & _ & _ & _ & _ & s2 & Hrun2 & _ & _ & _ & _ & Htr).
  exists s1. split; [exact Hrun|]. split; [exact Hid|]. split; [exact Hd|].
  exists s2. split; [exact Hrun2|exact Htr].
Defined.

Lemma X2_witness :
  table_latch_ comb_table = latch_free
  ∧ startable comb_table
  ∧ ∃ found result s',
      GetValue 7%Z comb_table = Done (found, result) s'
      ∧ (∀ v, v ∈ result
              <-> (7%Z, v) ∈ Bucket.GetArrayCopy
                    (bucket_at (buckets (booted comb_table))
                       (KeyToPageId 7%Z (dir_page (booted comb_table))))).
Proof.
  split; [apply comb_table_ready|]. split; [left; apply comb_table_ready|].
  destruct (X2_GetValue_reads_the_routed_bucket comb_table 7%Z
              (proj1 comb_table_ready) (or_introl (proj2 comb_table_ready)))
    as (found & result & s' & Hrun & Hres & _).
  exists found, result, s'. split; [exact Hrun|exact Hres].
Defined.

Lemma X3_witness :
  table_latch_ comb_table = latch_free
  ∧ startable comb_table
  ∧ Bucket.IsFull (bucket_at (buckets (booted comb_table))
                     (KeyToPageId 8%Z (dir_page (booted comb_table)))) = false
  ∧ ∃ r s', Insert 1 8%Z 80%Z comb_table = Done r s'
            ∧ (r = false
               <-> (8%Z, 80%Z) ∈ Bucket.GetArrayCopy
                     (bucket_at (buckets (booted comb_table))
                        (KeyToPageId 8%Z (dir_page (booted comb_table))))).
Proof.
  assert (Hf : Bucket.IsFull (bucket_at (buckets (booted comb_table))
                 (KeyToPageId 8%Z (dir_page (booted comb_table)))) = false)
    by (vm_compute; reflexivity).
  split; [apply comb_table_ready|]. split; [left; apply comb_table_ready|].
  split; [exact Hf|].
  destruct (X3_Insert_with_room comb_table 0 8%Z 80%Z
              (proj1 comb_table_ready) (or_introl (proj2 comb_table_ready)) Hf)
    as (r & s' & Hrun & Hr & _).
  exists r, s'. split; [exact Hrun|exact Hr].
Defined.

Lemma X4_witness :
  table_ok with_4
  ∧ Remove 4%Z 40%Z with_4 = Done true without_4
  ∧ Dir.GetGlobalDepth (dir_page with_4) = 3
  ∧ Dir.GetGlobalDepth (dir_page without_4) = 2
  ∧ (true = true <-> stored 4%Z 40%Z (booted with_4))
  ∧ table_ok without_4
  ∧ (¬ stored 4%Z 40%Z without_4)
  ∧ ∃ found result s'',
      GetValue 4%Z without_4 = Done (found, result) s'' ∧ 40%Z ∉ result.
Proof.
  assert (Hrun : Remove 4%Z 40%Z with_4 = Done true without_4)
    by (vm_compute; reflexivity).
  split; [exact with_4_ok|]. split; [exact Hrun|].
  split; [vm_compute; reflexivity|]. split; [vm_compute; reflexivity|].
  exact (X4_removed_pair_is_gone with_4 4%Z 40%Z true without_4 with_4_ok Hrun).
Defined.

Lemma X5_witness :
  table_ok (new_table : table Z Z)
  ∧ run_calls 1 [CallInsert 1%Z 10%Z; CallInsert 3%Z 30%Z; CallRemove 1%Z 10%Z] new_table
    = Done tt (after (run_calls 1 [CallInsert 1%Z 10%Z; CallInsert 3%Z 30%Z;
                                   CallRemove 1%Z 10%Z] new_table))
  ∧ table_ok (after (run_calls 1 [CallInsert 1%Z 10%Z; CallInsert 3%Z 30%Z;
                                  CallRemove 1%Z 10%Z] new_table)).
Proof.
  assert (Hrun : run_calls 1 [CallInsert 1%Z 10%Z; CallInsert 3%Z 30%Z;
                              CallRemove 1%Z 10%Z] (new_table : table Z Z)
    = Done tt (after (run_calls 1 [CallInsert 1%Z 10%Z; CallInsert 3%Z 30%Z;
                                   CallRemove 1%Z 10%Z] new_table)))
    by (vm_compute; reflexivity).
  split; [exact new_table_ok|]. split; [exact Hrun|].
  exact (X5_calls_keep_the_table_in_order 1 _ new_table _ new_table_ok Hrun).
Defined.

Lemma X6_witness :
  let d := dir_page comb_table in
  let tp := Dir.GetBucketPageId d 4 in
  table_latch_ comb_table = latch_free
  ∧ attached comb_table
  ∧ aligned d = true
  ∧ 4 < Dir.Size d
  ∧ Dir.GetLocalDepth d 4 ≠ 0
  ∧ Dir.GetLocalDepth d 4 = Dir.GetLocalDepth d (Dir.GetSplitImageIndex d 4)
  ∧ Bucket.IsEmpty (bucket_at (buckets comb_table) tp) = true
  ∧ pin_count comb_table tp = O
  ∧ tp ≠ directory_page_id_ comb_table
  ∧ ∃ s', Merge 4 comb_table = Done tt s'
      ∧ buckets s' = delete tp (buckets comb_table)
      ∧ aligned (dir_page s') = true
      ∧ Dir.CanShrink (dir_page s') = false.
Proof.
  intros d tp.
  assert (Hal : aligned d = true) by (vm_compute; reflexivity).
  assert (Ht : 4 < Dir.Size d) by (vm_compute; reflexivity).
  assert (H0 : Dir.GetLocalDepth d 4 ≠ 0) by (vm_compute; discriminate).
  assert (Heq : Dir.GetLocalDepth d 4
                = Dir.GetLocalDepth d (Dir.GetSplitImageIndex d 4))
    by (vm_compute; reflexivity).
  assert (He : Bucket.IsEmpty (bucket_at (buckets comb_table) tp) = true)
    by (vm_compute; reflexivity).
  assert (Hpin : pin_count comb_table tp = O) by reflexivity.
  assert (Hne : tp ≠ directory_page_id_ comb_table) by (vm_compute; discriminate).
  split; [apply comb_table_ready|]. split; [apply comb_table_ready|].
  split; [exact Hal|]. split; [exact Ht|]. split; [exact H0|]. split; [exact Heq|].
  split; [exact He|]. split; [exact Hpin|]. split; [exact Hne|].
  destruct (X6_Merge_folds_bucket_into_image comb_table 4
              (proj1 comb_table_ready) (proj2 comb_table_ready)
              Hal Ht H0 Heq He Hpin Hne)
    as (s' & Hrun & Hm & _ & _ & Hal' & _ & Hcs & _).
  exists s'. split; [exact Hrun|]. split; [exact Hm|]. split; [exact Hal'|exact Hcs].
Defined.

Lemma deep_table_ready : table_latch_ deep_table = latch_free ∧ attached deep_table.
Proof.
  split; [reflexivity|]. split; [vm_compute; discriminate|vm_compute; reflexivity].
Defined.

Lemma X7_witness :
  table_latch_ deep_table = latch_free
  ∧ startable deep_table
  ∧ Bucket.IsFull (bucket_at (buckets (booted deep_table))
                     (KeyToPageId 1024%Z (dir_page (booted deep_table)))) = true
  ∧ MAX_BUCKET_DEPTH
    <= Dir.GetLocalDepth (dir_page (booted deep_table))
         (KeyToDirectoryIndex 1024%Z (dir_page (booted deep_table)))
  ∧ ((1024%Z, 300%Z) ∉ Bucket.GetArrayCopy
       (bucket_at (buckets (booted deep_table))
          (KeyToPageId 1024%Z (dir_page (booted deep_table)))))
  ∧ ∃ s', Insert 1 1024%Z 300%Z deep_table = Done false s'
          ∧ dir_page s' = dir_page (booted deep_table)
          ∧ buckets s' = buckets (booted deep_table).
Proof.
  assert (Hf : Bucket.IsFull (bucket_at (buckets (booted deep_table))
                 (KeyToPageId 1024%Z (dir_page (booted deep_table)))) = true)
    by (vm_compute; reflexivity).
  assert (Hmax : MAX_BUCKET_DEPTH
                 <= Dir.GetLocalDepth (dir_page (booted deep_table))
                      (KeyToDirectoryIndex 1024%Z (dir_page (booted deep_table))))
    by (vm_compute; discriminate).
  split; [apply deep_table_ready|]. split; [left; apply deep_table_ready|].
  split; [exact Hf|]. split; [exact Hmax|].
  split.
  { vm_compute. intros H.
    repeat (apply elem_of_cons in H as [H|H]; [discriminate H|]).
    by apply elem_of_nil in H. }
  destruct (X7_Insert_full_at_max_depth deep_table 0 1024%Z 300%Z
              (proj1 deep_table_ready) (or_introl (proj2 deep_table_ready)) Hf Hmax)
    as (s' & Hrun & Hd & Hm & _).
  exists s'. split; [exact Hrun|]. split; [exact Hd|exact Hm].
Defined.

Lemma X8_witness :
  table_latch_ with_4 = latch_free
  ∧ startable with_4
  ∧ run_call 1 (CallRemove 4%Z 40%Z) with_4 = Done tt without_4
  ∧ table_latch_ without_4 = latch_free
  ∧ ∃ evs, trace without_4 = evs ++ trace with_4 ∧ latches_released evs.
Proof.
  assert (Hrun : run_call 1 (CallRemove 4%Z 40%Z) with_4 = Done tt without_4)
    by (vm_compute; reflexivity).
  split; [apply with_4_ready|]. split; [left; apply with_4_ready|].
  split; [exact Hrun|].
  exact (X8_returning_call_releases_latches 1 (CallRemove 4%Z 40%Z) with_4 without_4
           (proj1 with_4_ready) (or_introl (proj2 with_4_ready)) Hrun).
Defined.

Lemma pinned_table_ready :
  table_latch_ pinned_table = latch_free ∧ attached pinned_table.
Proof.
  split; [reflexivity|]. split; [vm_compute; discriminate|reflexivity].
Defined.

Lemma X9_witness :
  let d := dir_page (booted pinned_table) in
  let tp := Dir.GetBucketPageId d 4 in
  table_latch_ pinned_table = latch_free
  ∧ startable pinned_table
  ∧ Dir.GetLocalDepth d 4 ≠ 0
  ∧ Dir.GetLocalDepth d 4 = Dir.GetLocalDepth d (Dir.GetSplitImageIndex d 4)
  ∧ Bucket.IsEmpty (bucket_at (buckets (booted pinned_table)) tp) = true
  ∧ pin_count pinned_table tp ≠ O
  ∧ ∃ s', Merge 4 pinned_table = AssertFail s'.
Proof.
  intros d tp.
  assert (H0 : Dir.GetLocalDepth d 4 ≠ 0) by (vm_compute; discriminate).
  assert (Heq : Dir.GetLocalDepth d 4
                = Dir.GetLocalDepth d (Dir.GetSplitImageIndex d 4))
    by (vm_compute; reflexivity).
  assert (He : Bucket.IsEmpty (bucket_at (buckets (booted pinned_table)) tp) = true)
    by (vm_compute; reflexivity).
  assert (Hpin : pin_count pinned_table tp ≠ O) by (vm_compute; discriminate).
  split; [apply pinned_table_ready|]. split; [left; apply pinned_table_ready|].
  split; [exact H0|]. split; [exact Heq|]. split; [exact He|]. split; [exact Hpin|].
  exact (X9_Merge_stops_on_pinned_page pinned_table 4
           (proj1 pinned_table_ready) (or_introl (proj2 pinned_table_ready))
           H0 Heq He Hpin).
Defined.

Lemma X10_witness :
  table_latch_ comb_table = latch_free
  ∧ startable comb_table
  ∧ aligned (dir_page (booted comb_table)) = true
  ∧ Insert 1 8%Z 80%Z comb_table = Done true with_8
  ∧ (CallRemove 8%Z 80%Z ∉ client_calls)
  ∧ (run_calls 1 client_calls with_8 = Done tt with_8_later)
  ∧ Insert 1 8%Z 80%Z with_8_later
    = Done false (after (Insert 1 8%Z 80%Z with_8_later))
  ∧ false = false
  ∧ dir_page (after (Insert 1 8%Z 80%Z with_8_later)) = dir_page with_8_later
  ∧ ∀ q, bucket_at (buckets (after (Insert 1 8%Z 80%Z with_8_later))) q
         = bucket_at (buckets with_8_later) q.
Proof.
  assert (Hal : aligned (dir_page (booted comb_table)) = true)
    by (vm_compute; reflexivity).
  assert (Hins : Insert 1 8%Z 80%Z comb_table = Done true with_8)
    by (vm_compute; reflexivity).
  assert (Hnot : CallRemove 8%Z 80%Z ∉ client_calls).
  { intros Hin.
    repeat (apply elem_of_cons in Hin as [Hin|Hin]; [discriminate Hin|]).
    by apply elem_of_nil in Hin. }
  assert (Hrun : run_calls 1 client_calls with_8 = Done tt with_8_later)
    by (vm_compute; reflexivity).
  assert (Hagain : Insert 1 8%Z 80%Z with_8_later
                   = Done false (after (Insert 1 8%Z 80%Z with_8_later)))
    by (vm_compute; reflexivity).
  split; [apply comb_table_ready|]. split; [left; apply comb_table_ready|].
  split; [exact Hal|]. split; [exact Hins|]. split; [exact Hnot|].
  split; [exact Hrun|]. split; [exact Hagain|].
  exact (X10_second_insert_is_rejected comb_table 1 8%Z 80%Z with_8 client_calls
           with_8_later false _
           (proj1 comb_table_ready) (or_introl (proj2 comb_table_ready))
           Hal Hins Hnot Hrun Hagain).
Defined.

Lemma X11_witness :
  table_ok comb_table
  ∧ ∃ s', VerifyIntegrity comb_table = Done tt s'
          ∧ dir_page s' = dir_page (booted comb_table)
          ∧ buckets s' = buckets (booted comb_table)
          ∧ table_latch_ s' = latch_free.
Proof.
  split; [exact comb_table_ok|].
  exact (X11_VerifyIntegrity_passes comb_table comb_table_ok).
Defined.

Lemma comb_table_quiescent : quiescent comb_table.
Proof. split; [intros p; reflexivity|vm_compute; reflexivity]. Defined.

Lemma X12_witness :
  table_ok comb_table
  ∧ quiescent comb_table
  ∧ ∃ r s', Remove 4%Z 40%Z comb_table = Done r s' ∧ ∀ p, pin_count s' p = O.
Proof.
  split; [exact comb_table_ok|]. split; [exact comb_table_quiescent|].
  exact (X12_Remove_returns comb_table 4%Z 40%Z comb_table_ok comb_table_quiescent).
Defined.

End FurtherExamples.

(** * A split at the lowest alias of the bucket *)

Section SplitDir.

Implicit Types (d : Dir.directory) (i j x t h : N) (p : Z).

Lemma mod_eq_gap (a b n : N) : n ≠ 0 -> a < b -> a mod n = b mod n -> a + n <= b.
Proof.
  intros Hn Hlt Hmod.
  pose proof (N.div_mod a n Hn) as Ha. pose proof (N.div_mod b n Hn) as Hb.
  pose proof (N.mod_lt a n Hn) as Hr.
  assert (a / n < b / n) by nia. nia.
Qed.

(** The loop [for (i = start; i < Size(); i += diff)] of the split writes
    the slots from [start] on that are congruent to [start] modulo
    [diff]. *)
Lemma loop_up_spec (diff : N) pg idx fuel : ∀ start d,
  diff ≠ 0 -> well_sized d ->
  (N.to_nat (Dir.Size d) <= fuel + N.to_nat start)%nat ->
  let d' := loop_up fuel diff start pg idx d in
  let hit x := (start <=? x) && (x mod diff =? start mod diff) in
  well_sized d' ∧ Dir.GetGlobalDepth d' = Dir.GetGlobalDepth d
  ∧ ∀ x, x < Dir.Size d ->
      Dir.GetBucketPageId d' x = (if hit x then pg else Dir.GetBucketPageId d x)
      ∧ Dir.GetLocalDepth d' x
        = (if hit x then Dir.GetLocalDepth d idx else Dir.GetLocalDepth d x).
Proof.
  induction fuel as [|fuel IH]; intros start d Hdiff Hw Hf; cbv zeta.
  - cbn. split; [done|]. split; [done|]. intros x Hx.
    destruct (N.leb_spec start x); [lia|done].
  - unfold loop_up; fold loop_up.
    destruct (N.ltb_spec start (Dir.Size d)) as [Hi|Hi].
    2:{ split; [done|]. split; [done|]. intros x Hx.
        destruct (N.leb_spec start x); [lia|done]. }
    set (d1 := set_slot d start pg idx).
    assert (Hw1 : well_sized d1) by (by apply well_sized_set_slot).
    destruct (IH (start + diff) d1 Hdiff Hw1) as (Hw' & Hg' & Hx').
    { change (Dir.Size d1) with (Dir.Size d). lia. }
    split; [done|]. split; [done|].
    intros x Hx. destruct (Hx' x Hx) as [Ep El]. rewrite Ep, El.
    subst d1. rewrite GetBucketPageId_set_slot, !GetLocalDepth_set_slot by done.
    assert (Hsame : (start + diff) mod diff = start mod diff).
    { rewrite <- (N.mul_1_l diff) at 1. by rewrite N.Div0.mod_add. }
    rewrite Hsame.
    assert (Hidx : match decide (start = idx) with
                   | left _ | _ => Dir.GetLocalDepth d idx
                   end = Dir.GetLocalDepth d idx) by (by case_decide).
    rewrite Hidx.
    destruct (decide (start = x)) as [->|Hne].
    + destruct (N.leb_spec (x + diff) x); [lia|]. by rewrite N.leb_refl, N.eqb_refl.
    + destruct (N.eqb_spec (x mod diff) (start mod diff)) as [E|E];
        rewrite ?andb_false_r, ?andb_true_r; [|done].
      destruct (N.leb_spec start x) as [Hle|Hgt].
      * assert (start + diff <= x) by (apply mod_eq_gap; [done|lia|done]).
        by destruct (N.leb_spec (start + diff) x); [|lia].
      * by destruct (N.leb_spec (start + diff) x); [lia|].
Qed.

Lemma hit_agree (n start x : N) :
  start < 2 ^ n ->
  (start <=? x) && (x mod 2 ^ n =? start mod 2 ^ n)
  = (N.land x (N.ones n) =? N.land start (N.ones n)).
Proof.
  intros Hs. rewrite !N.land_ones, (N.mod_small start) by done.
  pose proof (N.Div0.mod_le x (2 ^ n)).
  destruct (N.eqb_spec (x mod 2 ^ n) start); [|apply andb_false_r].
  rewrite andb_true_r. apply N.leb_le. lia.
Qed.

Lemma loop_down_low fuel (diff start : N) pg idx d :
  start < diff -> loop_down fuel diff start pg idx d = d.
Proof.
  intros Hlt. destruct fuel; [done|]. unfold loop_down.
  by destruct (N.leb_spec diff start); [lia|].
Qed.

(** The slots of the directory after the four loops, when the slot being
    split is below [2^(local depth + 1)]: its aliases one level down are
    on the split page, those of its split image on the image page, both
    at the new depth; the other slots are as before. *)
Lemma split_slots d1 i (spid ipid : Z) :
  well_sized d1 -> i < Dir.Size d1 ->
  let L := Dir.GetLocalDepth d1 i in
  i < 2 ^ (L + 1) -> L + 1 <= Dir.GetGlobalDepth d1 ->
  let d2 := Dir.IncrLocalDepth d1 i in
  let j := Dir.GetSplitImageIndex d2 i in
  let d' := rewire i j spid ipid
              (Dir.SetBucketPageId (Dir.SetLocalDepth d2 j (Dir.GetLocalDepth d2 i))
                                   j ipid) in
  well_sized d' ∧ Dir.GetGlobalDepth d' = Dir.GetGlobalDepth d1
  ∧ j = N.lxor i (N.shiftl 1 L)
  ∧ ∀ x, x < Dir.Size d1 ->
      (N.land x (N.ones (L + 1)) = N.land i (N.ones (L + 1)) ->
       Dir.GetBucketPageId d' x = spid ∧ Dir.GetLocalDepth d' x = L + 1)
      ∧ (N.land x (N.ones (L + 1)) = N.land j (N.ones (L + 1)) ->
         Dir.GetBucketPageId d' x = ipid ∧ Dir.GetLocalDepth d' x = L + 1)
      ∧ (N.land x (N.ones (L + 1)) ≠ N.land i (N.ones (L + 1)) ->
         N.land x (N.ones (L + 1)) ≠ N.land j (N.ones (L + 1)) ->
         Dir.GetBucketPageId d' x = Dir.GetBucketPageId d1 x
         ∧ Dir.GetLocalDepth d' x = Dir.GetLocalDepth d1 x).
Proof.
  intros Hw Hi L Hlow Hg d2 j d'.
  assert (Hl2 : Dir.GetLocalDepth d2 i = L + 1).
  { subst d2. unfold Dir.IncrLocalDepth. rewrite GetLocalDepth_SetLocalDepth.
    destruct Hw as [Hw _]. rewrite decide_True; [done|]. split; [done|lia]. }
  assert (Hj : j = N.lxor i (N.shiftl 1 L)).
  { subst j. unfold Dir.GetSplitImageIndex. rewrite Hl2. do 2 f_equal. lia. }
  assert (Hjlow : j < 2 ^ (L + 1)).
  { rewrite Hj. replace L with (L + 1 - 1) at 1 by lia.
    apply (image_lt _ (L + 1)); [lia|lia|done]. }
  assert (Hjs : j < Dir.Size d1).
  { rewrite Size_pow. eapply N.lt_le_trans; [exact Hjlow|].
    apply N.pow_le_mono_r; lia. }
  assert (Hij : N.land j (N.ones (L + 1)) ≠ N.land i (N.ones (L + 1))).
  { rewrite Hj. replace L with (L + 1 - 1) at 1 by lia.
    apply image_not_agree. lia. }
  assert (Hw2 : well_sized d2) by (by apply well_sized_SetLocalDepth).
  subst d'. rewrite Hl2.
  set (d0 := Dir.SetBucketPageId (Dir.SetLocalDepth d2 j (L + 1)) j ipid) in *.
  assert (Hw0 : well_sized d0)
    by (by apply well_sized_SetBucketPageId, well_sized_SetLocalDepth).
  assert (Hp0 : ∀ x, Dir.GetBucketPageId d0 x
                     = if decide (j = x) then ipid else Dir.GetBucketPageId d1 x).
  { intros x. subst d0 d2. unfold Dir.IncrLocalDepth.
    rewrite GetBucketPageId_SetBucketPageId, !GetBucketPageId_SetLocalDepth.
    destruct Hw as [_ Hw]. unfold Dir.SetLocalDepth. cbn.
    repeat case_decide; try done; exfalso; intuition lia. }
  assert (Hl0 : ∀ x, Dir.GetLocalDepth d0 x
                     = if decide (x = i ∨ x = j) then L + 1
                       else Dir.GetLocalDepth d1 x).
  { intros x. subst d0. rewrite GetLocalDepth_SetBucketPageId,
      GetLocalDepth_SetLocalDepth.
    subst d2. unfold Dir.IncrLocalDepth. rewrite GetLocalDepth_SetLocalDepth.
    destruct Hw as [Hw _]. unfold Dir.SetLocalDepth. cbn. rewrite ?length_insert.
    repeat case_decide; try done; try (exfalso; intuition (lia || congruence)). }
  assert (Hdiff : N.shiftl 1 (Dir.GetLocalDepth d0 i) = 2 ^ (L + 1)).
  { rewrite Hl0, decide_True by (by left). apply N.shiftl_1_l. }
  assert (Hnz : 2 ^ (L + 1) ≠ 0) by (apply N.pow_nonzero; lia).
  unfold rewire. cbv zeta. rewrite Hdiff.
  rewrite (loop_down_low _ _ i) by done.
  destruct (loop_up_spec (2 ^ (L + 1)) spid i (S (N.to_nat (Dir.Size d0))) i d0
              Hnz Hw0 ltac:(lia)) as (Hwa & Hga & Hxa).
  set (da := loop_up _ _ i spid i d0) in *.
  rewrite (loop_down_low _ _ j) by done.
  assert (Hsa : Dir.Size da = Dir.Size d0) by (by rewrite !Size_pow, Hga).
  destruct (loop_up_spec (2 ^ (L + 1)) ipid i (S (N.to_nat (Dir.Size da))) j da
              Hnz Hwa ltac:(lia)) as (Hwb & Hgb & Hxb).
  set (db := loop_up _ _ j ipid i da) in *.
  split; [done|]. split; [by rewrite Hgb, Hga|]. split; [done|].
  intros x Hx.
  destruct (Hxa x Hx) as [Epa Ela]. rewrite Hsa in Hxb.
  destruct (Hxb x Hx) as [Epb Elb].
  destruct (Hxa i Hi) as [_ Elai].
  rewrite (hit_agree (L + 1) i) in Epa, Ela, Elai by done.
  rewrite (hit_agree (L + 1) j) in Epb, Elb by done.
  rewrite N.eqb_refl in Elai.
  rewrite Epb, Elb, Epa, Ela, Elai, Hp0, !Hl0.
  rewrite (decide_True (P := i = i ∨ i = j)) by (by left).
  destruct (N.eqb_spec (N.land x (N.ones (L + 1))) (N.land j (N.ones (L + 1)))) as [Ej|Ej];
    destruct (N.eqb_spec (N.land x (N.ones (L + 1))) (N.land i (N.ones (L + 1)))) as [Ei|Ei].
  - congruence.
  - split; [done|]. split; [done|]. done.
  - split; [done|]. split; [done|]. done.
  - split; [done|]. split; [done|]. intros _ _.
    rewrite decide_False by (intros ->; done).
    rewrite decide_False by (intros [-> | ->]; done). done.
Qed.

(** Such a split keeps the directory aligned, provided the image page is
    new to the directory; hash values that were not routed to the split
    page go where they went, the others where the new local depth mask
    sends them. *)
Lemma split_wf d1 i (spid ipid : Z) :
  dir_wf d1 -> i < Dir.Size d1 ->
  let L := Dir.GetLocalDepth d1 i in
  i < 2 ^ (L + 1) -> L + 1 <= Dir.GetGlobalDepth d1 ->
  spid = Dir.GetBucketPageId d1 i ->
  (∀ x, x < Dir.Size d1 -> Dir.GetBucketPageId d1 x ≠ ipid) ->
  let d2 := Dir.IncrLocalDepth d1 i in
  let j := Dir.GetSplitImageIndex d2 i in
  let d' := rewire i j spid ipid
              (Dir.SetBucketPageId (Dir.SetLocalDepth d2 j (Dir.GetLocalDepth d2 i))
                                   j ipid) in
  dir_wf d'
  ∧ Dir.GetLocalDepth d' i = L + 1
  ∧ Dir.GetGlobalDepth d' = Dir.GetGlobalDepth d1
  ∧ ∀ h, (route h d1 ≠ spid -> route h d' = route h d1)
         ∧ (route h d1 = spid ->
            route h d' = Dir.GetBucketPageId d' (N.land h (Dir.GetLocalDepthMask d' i))
            ∧ (route h d' = spid ∨ route h d' = ipid)).
Proof.
  intros Hwf Hi L Hlow Hg Hsp Hfresh d2 j d'.
  destruct (split_slots d1 i spid ipid (proj1 Hwf) Hi Hlow Hg)
    as (Hw' & Hg' & Hj & Hslots).
  fold L d2 j d' in Hw', Hg', Hj, Hslots.
  destruct Hwf as [Hw Hd].
  assert (Hne : spid ≠ ipid) by (rewrite Hsp; by apply Hfresh).
  assert (Hs' : Dir.Size d' = Dir.Size d1) by (by rewrite !Size_pow, Hg').
  (* the aliases of the split bucket *)
  assert (Hold : ∀ x, x < Dir.Size d1 ->
            Dir.GetBucketPageId d1 x = spid
            <-> N.land x (N.ones (L + 1)) = N.land i (N.ones (L + 1))
                ∨ N.land x (N.ones (L + 1)) = N.land j (N.ones (L + 1))).
  { intros x Hx. destruct (Hd i Hi) as [_ Hji]. destruct (Hji x Hx) as [Hpage _].
    fold L in Hpage. rewrite Hsp, Hpage, Hj.
    pose proof (agree_split i (L + 1) x ltac:(lia)) as Hsplit.
    by replace (L + 1 - 1) with L in Hsplit by lia. }
  assert (Hdisj : ∀ x, N.land x (N.ones (L + 1)) = N.land i (N.ones (L + 1)) ->
                       N.land x (N.ones (L + 1)) ≠ N.land j (N.ones (L + 1))).
  { intros x Ei Ej. rewrite Hj in Ej.
    pose proof (image_not_agree i (L + 1) ltac:(lia)) as Hn.
    replace (L + 1 - 1) with L in Hn by lia. congruence. }
  (* what a slot carries after the split *)
  assert (Hcase : ∀ x, x < Dir.Size d1 ->
    (N.land x (N.ones (L + 1)) = N.land i (N.ones (L + 1))
     ∧ Dir.GetBucketPageId d' x = spid ∧ Dir.GetLocalDepth d' x = L + 1
     ∧ Dir.GetBucketPageId d1 x = spid)
    ∨ (N.land x (N.ones (L + 1)) = N.land j (N.ones (L + 1))
       ∧ Dir.GetBucketPageId d' x = ipid ∧ Dir.GetLocalDepth d' x = L + 1
       ∧ Dir.GetBucketPageId d1 x = spid)
    ∨ (N.land x (N.ones (L + 1)) ≠ N.land i (N.ones (L + 1))
       ∧ N.land x (N.ones (L + 1)) ≠ N.land j (N.ones (L + 1))
       ∧ Dir.GetBucketPageId d' x = Dir.GetBucketPageId d1 x
       ∧ Dir.GetLocalDepth d' x = Dir.GetLocalDepth d1 x
       ∧ Dir.GetBucketPageId d1 x ≠ spid ∧ Dir.GetBucketPageId d1 x ≠ ipid)).
  { intros x Hx. destruct (Hslots x Hx) as (HI & HJ & HO).
    pose proof (Hold x Hx) as Ho.
    destruct (N.eq_dec (N.land x (N.ones (L + 1))) (N.land i (N.ones (L + 1))))
      as [Ei|Ei]; [left; destruct (HI Ei); tauto|].
    destruct (N.eq_dec (N.land x (N.ones (L + 1))) (N.land j (N.ones (L + 1))))
      as [Ej|Ej]; [right; left; destruct (HJ Ej); tauto|].
    right; right. destruct (HO Ei Ej). pose proof (Hfresh x Hx). tauto. }
  assert (Hwf' : dir_wf d').
  { split; [done|]. rewrite Hs', Hg'. intros a Ha.
    destruct (Hd a Ha) as [Hla Hja].
    destruct (Hcase a Ha) as [(Ia & Epa & Ela & _)|[(Ja & Epa & Ela & _)
                              |(Ia & Ja & Epa & Ela & Hna & Hna')]];
      rewrite Epa, Ela; (split; [lia|]); intros b Hb;
      destruct (Hcase b Hb) as [(Ib & Epb & Elb & Hob)|[(Jb & Epb & Elb & Hob)
                              |(Ib & Jb & Epb & Elb & Hnb & Hnb')]];
      rewrite Epb, Elb.
    - split; [split; [congruence|done]|done].
    - split; [split|]; intros E; exfalso; [congruence|apply (Hdisj a Ia); congruence..].
    - split; [split|]; intros E; exfalso; [congruence|apply Ib; congruence..].
    - split; [split|]; intros E; exfalso; [congruence|apply (Hdisj b Ib); congruence..].
    - split; [split; [congruence|done]|done].
    - split; [split|]; intros E; exfalso; [congruence|apply Jb; congruence..].
    - destruct (Hja b Hb) as [Hpage _].
      split; [split|]; intros E; exfalso; [congruence|apply Hpage in E; congruence..].
    - destruct (Hja b Hb) as [Hpage _].
      split; [split|]; intros E; exfalso; [congruence|apply Hpage in E; congruence..].
    - by apply Hja. }
  assert (Hli : Dir.GetLocalDepth d' i = L + 1).
  { destruct (Hcase i Hi) as [(_ & _ & E & _)|[(E & _)|(E & _)]]; [done| |done].
    exfalso. by apply (Hdisj i). }
  split; [done|]. split; [done|]. split; [done|].
  intros h. unfold route, Dir.GetLocalDepthMask. rewrite !GlobalDepthMask_ones, Hg', Hli, mask_ones.
  set (a := N.land h (N.ones (Dir.GetGlobalDepth d1))).
  set (t' := N.land h (N.ones (L + 1))).
  assert (Ha : a < Dir.Size d1) by (rewrite Size_pow; apply land_ones_lt).
  assert (Ht' : t' < Dir.Size d1).
  { rewrite Size_pow. eapply N.lt_le_trans; [apply land_ones_lt|].
    apply N.pow_le_mono_r; lia. }
  assert (Hat : N.land a (N.ones (L + 1)) = N.land t' (N.ones (L + 1))).
  { subst a t'. by rewrite land_ones_ones, agree_land_ones by done. }
  destruct (Hcase a Ha) as [(Ia & Epa & _ & Hoa)|[(Ja & Epa & _ & Hoa)
                            |(Ia & Ja & Epa & _ & Hna & _)]].
  - split; [done|]. intros _. split; [|by left].
    destruct (Hcase t' Ht') as [(_ & Ept & _)|[(Jt & _)|(It & _)]]; [congruence| |].
    + exfalso. apply (Hdisj a Ia). congruence.
    + exfalso. apply It. congruence.
  - split; [done|]. intros _. split; [|by right].
    destruct (Hcase t' Ht') as [(It & _)|[(_ & Ept & _)|(_ & Jt & _)]]; [|congruence|].
    + exfalso. apply (Hdisj t' It). congruence.
    + exfalso. apply Jt. congruence.
  - split; [done|]. intros E. done.
Qed.

(** A page that is new to the directory is new to the grown one. *)
Lemma fresh_grown d i (ipid : Z) :
  well_sized d ->
  (∀ x, x < Dir.Size d -> Dir.GetBucketPageId d x ≠ ipid) ->
  let d1 := if Dir.GetLocalDepth d i =? Dir.GetGlobalDepth d
            then Dir.IncrGlobalDepth d else d in
  ∀ x, x < Dir.Size d1 -> Dir.GetBucketPageId d1 x ≠ ipid.
Proof.
  intros Hw Hfresh. cbv zeta. destruct (_ =? _); [|done].
  intros x Hx. rewrite Size_IncrGlobalDepth in Hx.
  rewrite GetBucketPageId_grown by done. apply Hfresh.
  rewrite Size_pow. apply land_ones_lt.
Qed.

End SplitDir.

Section SplitTable.

Context {K V : Type} `{!EqDecision K, !EqDecision V, !TableParams K}.

Implicit Types (s : table K V) (p q : Z) (d : Dir.directory) (key : K) (value : V).

(** *** The pairs the split puts back *)

(** During the redistribution each of the two buckets holds distinct
    pairs of the saved array, all of which the directory sends to it. *)
Lemma reinsert_map_sorted (i : N) (spid ipid : Z) d (all rest : list (K * V)) :
  spid ≠ ipid ->
  ∀ m : gmap Z (Bucket.bucket K V),
  (∀ x, x ∈ rest -> x ∈ all) ->
  (∀ q, q = spid ∨ q = ipid ->
     NoDup (Bucket.GetArrayCopy (bucket_at m q))
     ∧ (length (bucket_at m q) <= BUCKET_ARRAY_SIZE)%nat
     ∧ ∀ x, x ∈ Bucket.GetArrayCopy (bucket_at m q) ->
            x ∈ all ∧ target_page d i x = q) ->
  ∀ q, q = spid ∨ q = ipid ->
    NoDup (Bucket.GetArrayCopy (bucket_at (snd (reinsert_map rest i spid ipid d m)) q))
    ∧ (length (bucket_at (snd (reinsert_map rest i spid ipid d m)) q)
       <= BUCKET_ARRAY_SIZE)%nat
    ∧ ∀ x, x ∈ Bucket.GetArrayCopy
                 (bucket_at (snd (reinsert_map rest i spid ipid d m)) q) ->
           x ∈ all ∧ target_page d i x = q.
Proof.
  intros Hne.
  assert (Hstep : ∀ (m : gmap Z (Bucket.bucket K V)) tmp q0,
    q0 = spid ∨ q0 = ipid -> tmp ∈ all -> target_page d i tmp = q0 ->
    (∀ q, q = spid ∨ q = ipid ->
       NoDup (Bucket.GetArrayCopy (bucket_at m q))
       ∧ (length (bucket_at m q) <= BUCKET_ARRAY_SIZE)%nat
       ∧ ∀ x, x ∈ Bucket.GetArrayCopy (bucket_at m q) ->
              x ∈ all ∧ target_page d i x = q) ->
    ∀ q, q = spid ∨ q = ipid ->
      let m1 := <[q0 := snd (Bucket.Insert (fst tmp) (snd tmp) (bucket_at m q0))]> m in
      NoDup (Bucket.GetArrayCopy (bucket_at m1 q))
      ∧ (length (bucket_at m1 q) <= BUCKET_ARRAY_SIZE)%nat
      ∧ ∀ x, x ∈ Bucket.GetArrayCopy (bucket_at m1 q) ->
             x ∈ all ∧ target_page d i x = q).
  { intros m [k v] q0 Hq0 Hall Htgt Hinv q Hq. cbv zeta. cbn [fst snd].
    destruct (decide (q0 = q)) as [<-|Hqq]; [|by rewrite bucket_at_insert_ne; auto].
    rewrite bucket_at_insert. destruct (Hinv q0 Hq0) as (Hnd & Hlen & Hin).
    destruct (Insert_keeps_order k v _ Hnd) as (Hnd' & Hl' & Hsub).
    split; [done|]. split; [lia|].
    intros x [->|Hx]%Hsub; [done|by apply Hin]. }
  induction rest as [|tmp rest IH]; intros m Hsub Hinv; [done|].
  assert (Htmp : tmp ∈ all) by (apply Hsub; by left).
  assert (Hsub' : ∀ x, x ∈ rest -> x ∈ all) by (intros x Hx; apply Hsub; by right).
  cbn [reinsert_map]. fold (target_page d i tmp).
  destruct (Z.eqb_spec (target_page d i tmp) spid) as [E|E].
  - pose proof (Hstep m tmp spid (or_introl eq_refl) Htmp E Hinv) as Hinv1.
    destruct (fst (Bucket.Insert _ _ _)); [by apply IH|exact Hinv1].
  - destruct (Z.eqb_spec (target_page d i tmp) ipid) as [E'|E']; [|exact Hinv].
    pose proof (Hstep m tmp ipid (or_intror eq_refl) Htmp E' Hinv) as Hinv1.
    destruct (fst (Bucket.Insert _ _ _)); [by apply IH|exact Hinv1].
Qed.

(** X13.  A split at the lowest alias.  Take a table in order, a key whose
    slot [i] is below [2^(L + 1)], [L] being its local depth (as it always
    is when the bucket is at the global depth), below [MAX_BUCKET_DEPTH],
    and let the page the buffer pool hands out be new to the directory.
    Then [SplitInsert] reaches its final [Insert] with a directory that is
    aligned, in which the slot has local depth [L + 1], and with every
    bucket in order; the pairs stored after the split are exactly those
    stored before it. *)
Theorem X13_split_at_lowest_alias s (Insert_ : K -> V -> M K V bool) key value :
  table_ok s ->
  let d := dir_page (booted s) in
  let i := KeyToDirectoryIndex key d in
  let L := Dir.GetLocalDepth d i in
  (MAX_BUCKET_DEPTH <=? L) = false ->
  i < N.shiftl 1 (L + 1) ->
  fresh_page d (next_page_id (booted s)) = true ->
  ∃ s', SplitInsert_ Insert_ key value s = Insert_ key value s'
    ∧ aligned (dir_page s') = true
    ∧ buckets_ok (dir_page s') (buckets s') = true
    ∧ Dir.GetLocalDepth (dir_page s') i = L + 1
    ∧ Dir.GetGlobalDepth (dir_page s')
      = (if L =? Dir.GetGlobalDepth d then Dir.GetGlobalDepth d + 1
         else Dir.GetGlobalDepth d)
    ∧ ∀ k v, stored k v s' <-> stored k v (booted s).
Proof.
  intros (Hl & Hs & Hal%aligned_spec & Hbs) d i L Hmax Hlow Hfresh.
  rewrite buckets_ok_spec in Hbs. fold d in Hal, Hbs.
  set (m := buckets (booted s)) in *.
  set (P_old := KeyToPageId key d). set (P_new := next_page_id (booted s)) in *.
  pose proof (KeyToDirectoryIndex_lt key d) as Hi. fold i in Hi.
  unfold fresh_page in Hfresh. rewrite forallb_slots in Hfresh.
  assert (Hfr : ∀ x, x < Dir.Size d -> Dir.GetBucketPageId d x ≠ P_new).
  { intros x Hx. specialize (Hfresh x Hx). apply negb_true_iff in Hfresh.
    by apply Z.eqb_neq. }
  destruct (grown_wf d i Hal Hi) as (Hwf1 & Hi1 & Hl1 & Hp1 & Hg1 & Hr1).
  pose proof (fresh_grown d i P_new (proj1 Hal) Hfr) as Hfr1. cbv zeta in Hfr1.
  set (d1 := if Dir.GetLocalDepth d i =? Dir.GetGlobalDepth d
             then Dir.IncrGlobalDepth d else d) in *.
  fold L in Hl1, Hg1.
  destruct (split_wf d1 i P_old P_new Hwf1 Hi1) as (Hwf' & Hli' & Hg' & Hroute').
  { rewrite Hl1. by rewrite <- N.shiftl_1_l. }
  { by rewrite Hl1. }
  { by rewrite Hp1. }
  { exact Hfr1. }
  assert (Hne : P_old ≠ P_new) by (apply Hfr, Hi).
  assert (Hsd : split_dir key P_new d
                = rewire i (Dir.GetSplitImageIndex (Dir.IncrLocalDepth d1 i) i)
                    P_old P_new
                    (Dir.SetBucketPageId
                       (Dir.SetLocalDepth (Dir.IncrLocalDepth d1 i)
                          (Dir.GetSplitImageIndex (Dir.IncrLocalDepth d1 i) i)
                          (Dir.GetLocalDepth (Dir.IncrLocalDepth d1 i) i))
                       (Dir.GetSplitImageIndex (Dir.IncrLocalDepth d1 i) i) P_new)).
  { unfold split_dir. cbv zeta. fold i d1.
    change (KeyToPageId key (Dir.IncrLocalDepth d1 i)) with (split_page key d).
    by rewrite (split_page_eq key d Hal). }
  rewrite <- Hsd in Hwf', Hli', Hg', Hroute'. clear Hsd.
  set (d' := split_dir key P_new d) in *.
  rewrite Hl1 in Hli'.
  (* the pairs of the split bucket *)
  destruct (bucket_ok_spec d m P_old (Hbs P_old)) as (Hhome & Hnd & Hlen).
  set (origin_array := Bucket.GetArrayCopy (bucket_at m P_old)) in *.
  assert (Hsent : ∀ x, x ∈ origin_array ->
            KeyToPageId (fst x) d' = target_page d' i x
            ∧ (target_page d' i x = P_old ∨ target_page d' i x = P_new)).
  { intros x Hx. destruct (Hroute' (Hash (fst x))) as [_ Hto].
    destruct Hto as [E Hor]; [rewrite Hr1; exact (Hhome x Hx)|].
    split; [exact E|]. unfold target_page. by rewrite <- E. }
  assert (Htarget : Forall (fun tmp => target_page d' i tmp = P_old
                                       ∨ target_page d' i tmp = P_new) origin_array).
  { apply Forall_forall. intros x Hx. by apply Hsent. }
  destruct (SplitInsert_split s Insert_ key value Hl Hs Hmax) as (s' & Hrun & Hd' & Hm').
  fold d P_new in Hrun, Hd', Hm'. rewrite (split_page_eq key d Hal) in Hrun, Hm'.
  fold P_old m i d' in Hrun, Hd', Hm'.
  rewrite take_ge in Hrun, Hm' by (by rewrite length_GetArrayCopy).
  fold origin_array in Hrun, Hm'.
  set (m0 := delete P_new (<[P_old := Bucket.Reset (bucket_at m P_old)]> m)) in *.
  assert (Hzero : Bucket.GetArrayCopy (zeroed_bucket (K:=K) (V:=V)) = []
                  ∧ Bucket.NumReadable (zeroed_bucket (K:=K) (V:=V)) = O
                  ∧ length (zeroed_bucket (K:=K) (V:=V)) = BUCKET_ARRAY_SIZE).
  { unfold zeroed_bucket.
    by rewrite GetArrayCopy_unused, NumReadable_unused, length_replicate. }
  destruct Hzero as (Hz1 & Hz2 & Hz3).
  assert (Hb0 : bucket_at m0 P_old = Bucket.Reset (bucket_at m P_old)).
  { subst m0. by rewrite bucket_at_delete_ne, bucket_at_insert by done. }
  assert (Hb0' : bucket_at m0 P_new = zeroed_bucket).
  { subst m0. by rewrite bucket_at_delete. }
  assert (Hreset : Bucket.GetArrayCopy (Bucket.Reset (bucket_at m P_old)) = []
                   ∧ Bucket.NumReadable (Bucket.Reset (bucket_at m P_old)) = O
                   ∧ length (Bucket.Reset (bucket_at m P_old))
                     = length (bucket_at m P_old)).
  { unfold Bucket.Reset.
    by rewrite GetArrayCopy_unused, NumReadable_unused, length_replicate. }
  destruct Hreset as (Hr0 & Hr0' & Hr0'').
  pose proof (NumReadable_le (bucket_at m P_old)) as Hle.
  assert (Hn : length origin_array = Bucket.NumReadable (bucket_at m P_old))
    by apply length_GetArrayCopy.
  destruct (reinsert_map_fits i P_old P_new d' origin_array m0 Hnd Htarget)
    as [Hfst Hplaced].
  { intros q [-> | ->].
    - rewrite Hb0, Hr0, Hr0', Hr0''. split; [by intros x ?%elem_of_nil|lia].
    - rewrite Hb0', Hz1, Hz2, Hz3. split; [by intros x ?%elem_of_nil|lia]. }
  pose proof (reinsert_map_sorted i P_old P_new d' origin_array origin_array Hne m0
                (fun x Hx => Hx)) as Hsorted.
  rewrite Hfst in Hrun. destruct Hrun as [Hrun _].
  set (m' := snd (reinsert_map origin_array i P_old P_new d' m0)) in *.
  assert (Hsorted' : ∀ q, q = P_old ∨ q = P_new ->
            NoDup (Bucket.GetArrayCopy (bucket_at m' q))
            ∧ (length (bucket_at m' q) <= BUCKET_ARRAY_SIZE)%nat
            ∧ ∀ x, x ∈ Bucket.GetArrayCopy (bucket_at m' q) ->
                   x ∈ origin_array ∧ target_page d' i x = q).
  { apply Hsorted. intros q [-> | ->].
    - rewrite Hb0, Hr0, Hr0''. split; [constructor|]. split; [lia|].
      by intros x ?%elem_of_nil.
    - rewrite Hb0', Hz1, Hz3. split; [constructor|]. split; [lia|].
      by intros x ?%elem_of_nil. }
  clear Hsorted.
  assert (Hframe : ∀ q, q ≠ P_old -> q ≠ P_new -> bucket_at m' q = bucket_at m q).
  { intros q H1 H2. subst m'. rewrite reinsert_map_frame by done.
    subst m0. by rewrite bucket_at_delete_ne, bucket_at_insert_ne. }
  (* where the directory sends a key afterwards *)
  assert (Hkeep : ∀ k, KeyToPageId k d ≠ P_old ->
            KeyToPageId k d' = KeyToPageId k d
            ∧ KeyToPageId k d' ≠ P_old ∧ KeyToPageId k d' ≠ P_new).
  { intros k Hk. destruct (Hroute' (Hash k)) as [Hsame _].
    assert (E : KeyToPageId k d' = KeyToPageId k d).
    { change (route (Hash k) d' = route (Hash k) d). rewrite <- Hr1.
      apply Hsame. rewrite Hr1. exact Hk. }
    rewrite E. split; [done|]. split; [done|].
    apply Hfr, KeyToDirectoryIndex_lt. }
  assert (Hmoved : ∀ k, KeyToPageId k d = P_old ->
            KeyToPageId k d' = P_old ∨ KeyToPageId k d' = P_new).
  { intros k Hk. destruct (Hroute' (Hash k)) as [_ Hto].
    destruct Hto as [_ Hor]; [rewrite Hr1; exact Hk|exact Hor]. }
  exists s'. rewrite Hd', Hm'.
  split; [exact Hrun|]. split; [by apply aligned_spec|].
  split; [|split; [exact Hli'|split]].
  - apply buckets_ok_spec. intros q.
    destruct (decide (q = P_old ∨ q = P_new)) as [Hq|Hq].
    + destruct (Hsorted' q Hq) as (Hnd' & Hlen' & Hin').
      apply bucket_ok_intro; [|done|done].
      intros x Hx. destruct (Hin' x Hx) as [Hxo Hxt].
      destruct (Hsent x Hxo) as [E _]. congruence.
    + assert (H1 : q ≠ P_old) by tauto. assert (H2 : q ≠ P_new) by tauto.
      apply (bucket_ok_from d d' m); rewrite ?Hframe by done;
        [done| |by apply (bucket_ok_spec d m q)|done].
      intros x Hx. right. split; [done|]. intros E.
      destruct (Hkeep (fst x)) as (E' & _); congruence.
  - rewrite Hg'. subst d1. fold L. by destruct (L =? Dir.GetGlobalDepth d).
  - intros k v. unfold stored. rewrite Hd', Hm'. fold d m.
    destruct (decide (KeyToPageId k d = P_old)) as [E|E].
    + rewrite E. fold origin_array. split.
      * intros Hin. destruct (Hsorted' _ (Hmoved k E)) as (_ & _ & Hfrom).
        by destruct (Hfrom _ Hin).
      * intros Hin. destruct (Hsent _ Hin) as [Hto _]. cbn [fst] in Hto.
        destruct (Hplaced _ Hin) as [Hat|Hat].
        -- destruct (Hsorted' P_old (or_introl eq_refl)) as (_ & _ & Hfrom).
           destruct (Hfrom _ Hat) as [_ Ht]. by rewrite Hto, Ht.
        -- destruct (Hsorted' P_new (or_intror eq_refl)) as (_ & _ & Hfrom).
           destruct (Hfrom _ Hat) as [_ Ht]. by rewrite Hto, Ht.
    + destruct (Hkeep k E) as (E1 & E2 & E3).
      by rewrite Hframe, E1.
Qed.

End SplitTable.

Section SplitExamples.
Import Sample.

Lemma X13_witness :
  table_ok comb_table
  ∧ KeyToDirectoryIndex 9%Z (dir_page (booted comb_table)) = 1
  ∧ Dir.GetLocalDepth (dir_page (booted comb_table)) 1 = 1
  ∧ fresh_page (dir_page (booted comb_table)) (next_page_id (booted comb_table))
    = true
  ∧ ∃ s', SplitInsert_ (Insert 0) 9%Z 90%Z comb_table = Insert 0 9%Z 90%Z s'
      ∧ aligned (dir_page s') = true
      ∧ buckets_ok (dir_page s') (buckets s') = true
      ∧ Dir.GetLocalDepth (dir_page s') 1 = 2
      ∧ (stored 7%Z 70%Z s' <-> stored 7%Z 70%Z (booted comb_table)).
Proof.
  assert (Hi : KeyToDirectoryIndex 9%Z (dir_page (booted comb_table)) = 1)
    by (vm_compute; reflexivity).
  assert (HL : Dir.GetLocalDepth (dir_page (booted comb_table)) 1 = 1)
    by (vm_compute; reflexivity).
  assert (Hf : fresh_page (dir_page (booted comb_table))
                 (next_page_id (booted comb_table)) = true)
    by (vm_compute; reflexivity).
  split; [exact comb_table_ok|]. split; [exact Hi|]. split; [exact HL|].
  split; [exact Hf|].
  destruct (X13_split_at_lowest_alias comb_table (Insert 0) 9%Z 90%Z comb_table_ok)
    as (s' & Hrun & Hal & Hbs & Hld & _ & Hst).
  - rewrite Hi, HL. vm_compute. reflexivity.
  - rewrite Hi, HL. vm_compute. reflexivity.
  - exact Hf.
  - exists s'. rewrite Hi, HL in Hld.
    split; [exact Hrun|]. split; [exact Hal|]. split; [exact Hbs|].
    split; [exact Hld|]. apply Hst.
Defined.

End SplitExamples.
